(** * Verification of the spotify-visualizer analysis core

    A shallow embedding of the streaming analysis code of the visualizer:

    - [BeatSync]   : [src/hooks/useBeatSync.ts]   (structural event synchronizer)
    - [Live]       : [src/three/liveAnalyzer.ts]  (spectral extractor, onsets, beat, tempo)
    - [Profile]    : [src/three/audioProfile.ts]  (five-archetype classifier)
    - [Mood]       : [src/three/moodPalette.ts]   (HSL palette modulation)
    - [Scene]      : the [VisualizerScene] class  (song seeds, palettes, frame loop)

    JavaScript [number]s are modelled as rationals [Q], the values of
    finite doubles.  In [BeatSync], where a comparison at the end of a
    window decides whether an event fires, the arithmetic is the code's
    binary64 arithmetic: each operation gives its exact result rounded to
    the nearest double ([Double.fl]).  In the other modules every
    operation the code performs ([+ - * /], [Math.min], [Math.max],
    [Math.abs], [Math.round], comparisons) is taken at its mathematical
    value, without rounding.  Equality of rationals is [Qeq] ([==]).
    Array indices and [Math.round] results are integers [Z]; the bytes of
    a [Uint8Array] are integers in [0, 255]. *)

From Stdlib Require Import QArith ZArith List Bool Lia Lqa Qround Qminmax Qabs Qpower.
From Stdlib Require Import Sorted.
Import ListNotations.

Local Open Scope Q_scope.

(** ** JavaScript comparisons on numbers *)

(** [x < y] of the source, as a boolean. *)
Definition Qltb (x y : Q) : bool := negb (Qle_bool y x).

(** [x <= y] of the source. *)
Definition Qleb (x y : Q) : bool := Qle_bool x y.

(** [x > y] of the source. *)
Definition Qgtb (x y : Q) : bool := Qltb y x.

(** [x >= y] of the source. *)
Definition Qgeb (x y : Q) : bool := Qleb y x.

(** * Binary64 arithmetic

    The value of a JavaScript arithmetic operation on finite doubles is
    its exact result rounded to the nearest double, a tie going to the
    double with an even significand.  Results beyond the largest finite
    double, which the code's operations on finite positions never give,
    are not turned into an infinity. *)

Module Double.

(** The binade of [x > 0]: the [e] with [2^e <= x < 2^(e+1)]. *)
Definition binade (x : Q) : Z :=
  let k := (Z.log2 (Qnum x) - Z.log2 (Zpos (Qden x)))%Z in
  if Qle_bool (2 ^ k) x then k else (k - 1)%Z.

(** The exponent of the unit in the last place of a double in the binade
    of [x > 0]: 53 significant bits, and -1074 for the subnormals. *)
Definition ulpExp (x : Q) : Z := Z.max (binade x - 52) (-1074).

(** The nearest integer, a tie going to the even one. *)
Definition roundHalfEven (x : Q) : Z :=
  let n := Qfloor x in
  match Qcompare (x - inject_Z n) (1 # 2) with
  | Lt => n
  | Gt => (n + 1)%Z
  | Eq => if Z.even n then n else (n + 1)%Z
  end.

(** The nearest multiple of [2^q]. *)
Definition roundTo (q : Z) (x : Q) : Q := inject_Z (roundHalfEven (x / 2 ^ q)) * 2 ^ q.

(** The double nearest to [x > 0]. *)
Definition roundPos (x : Q) : Q := roundTo (ulpExp x) x.

(** The value of a binary64 operation whose exact result is [x]:
    round to nearest, ties to even. *)
Definition fl (x : Q) : Q :=
  match Qcompare x 0 with
  | Eq => 0
  | Gt => roundPos x
  | Lt => - roundPos (- x)
  end.

End Double.

(** * Structural event synchronizer ([useBeatSync.ts]) *)

Module BeatSync.

Import Double.

(** [TimeInterval] of the Spotify analysis. *)
Record TimeInterval := mkInterval {
  ti_start : Q;
  ti_duration : Q;
  ti_confidence : Q
}.

(** [Section]: the synchronizer reads only its [start]. *)
Record Section := mkSection {
  sec_start : Q;
  sec_duration : Q;
  sec_confidence : Q;
  sec_loudness : Q;
  sec_tempo : Q
}.

(** The bound [T extends { start: number }] of [eventsInWindow]. *)
Class HasStart (T : Type) := start : T -> Q.

#[export] Instance TimeInterval_start : HasStart TimeInterval := ti_start.
#[export] Instance Section_start : HasStart Section := sec_start.

(** The tables of [AudioAnalysis] the hook reads. *)
Record AudioAnalysis := mkAnalysis {
  beats : list TimeInterval;
  bars : list TimeInterval;
  sections : list Section
}.

(** The test of the loop body of [eventsInWindow]:
    [arr[i].start > prevSec && arr[i].start <= curSec]. *)
Definition inWindow {T} `{HasStart T} (prevSec curSec : Q) (x : T) : bool :=
  Qgtb (start x) prevSec && Qleb (start x) curSec.

(** [eventsInWindow], the loop started at index [i] on the rest of the array. *)
Fixpoint eventsFrom {T} `{HasStart T} (i : Z) (arr : list T) (prevSec curSec : Q)
  : list (T * Z) :=
  match arr with
  | [] => []
  | x :: rest =>
      if inWindow prevSec curSec x
      then (x, i) :: eventsFrom (i + 1) rest prevSec curSec
      else eventsFrom (i + 1) rest prevSec curSec
  end.

Definition eventsInWindow {T} `{HasStart T} (arr : list T) (prevSec curSec : Q)
  : list (T * Z) :=
  eventsFrom 0 arr prevSec curSec.

(** The callbacks, recorded in the order they are called. *)
Inductive Fired :=
| OnBeat (index : Z) (confidence : Q)
| OnBar (index : Z)
| OnSection (index : Z).

(** The four refs of the hook. [prevPosition = None] is [null]. *)
Record SyncCursor := mkCursor {
  prevPosition : option Q;
  lastBeat : Z;
  lastBar : Z;
  lastSection : Z
}.

(** The reset effect, run when [analysis] changes. *)
Definition resetCursor : SyncCursor :=
  {| prevPosition := None; lastBeat := -1; lastBar := -1; lastSection := -1 |}.

(** One [for ... of eventsInWindow(...)] loop: an entry fires when its
    index differs from the table's last-fired ref, which it then becomes. *)
Fixpoint fireLoop {T} (cb : T -> Z -> Fired) (evs : list (T * Z)) (last : Z)
  : Z * list Fired :=
  match evs with
  | [] => (last, [])
  | (item, index) :: rest =>
      if negb (index =? last)%Z
      then let (last', out) := fireLoop cb rest index in
           (last', cb item index :: out)
      else fireLoop cb rest last
  end.

(** The bodies of the three loops call [onBeat(index, item.confidence)],
    [onBar(index)] and [onSection(index)]. *)
Definition beatCb (item : TimeInterval) (index : Z) : Fired := OnBeat index (ti_confidence item).
Definition barCb (_ : TimeInterval) (index : Z) : Fired := OnBar index.
Definition sectionCb (_ : Section) (index : Z) : Fired := OnSection index.

(** [position / 1000], the division rounded as the code's. *)
Definition curSecOf (position : Q) : Q := fl (position / 1000).

(** [prevPositionRef.current ?? curSec - 0.2]: the lower end of the
    dispatch window of a call at [position], the stored previous position
    or [curSec - 0.2]; the literal [0.2] is the double nearest to 0.2 and
    the subtraction is rounded. *)
Definition prevSecOf (c : SyncCursor) (position : Q) : Q :=
  match prevPosition c with
  | Some p => p
  | None => fl (curSecOf position - fl 0.2)
  end.

(** The dispatch effect of [useBeatSync], run with the current
    [analysis], [position] (milliseconds) and [isPlaying].  The positions
    and the start times are finite doubles; [position / 1000],
    [curSec - 0.2] and [prevSec - 0.5] are rounded, the comparisons are
    exact. *)
Definition syncEffect (analysis : option AudioAnalysis) (position : Q)
    (isPlaying : bool) (c : SyncCursor) : SyncCursor * list Fired :=
  match analysis with
  | None => (c, [])
  | Some a =>
      if negb isPlaying then (c, []) else
      let curSec := curSecOf position in
      let prevSec := prevSecOf c position in
      if Qltb curSec (fl (prevSec - 0.5))
      then ({| prevPosition := Some curSec; lastBeat := lastBeat c;
               lastBar := lastBar c; lastSection := lastSection c |}, [])
      else
        let (lb, fb) := fireLoop beatCb
                          (eventsInWindow (beats a) prevSec curSec) (lastBeat c) in
        let (lr, fr) := fireLoop barCb
                          (eventsInWindow (bars a) prevSec curSec) (lastBar c) in
        let (ls, fs) := fireLoop sectionCb
                          (eventsInWindow (sections a) prevSec curSec) (lastSection c) in
        ({| prevPosition := Some curSec; lastBeat := lb;
            lastBar := lr; lastSection := ls |}, fb ++ fr ++ fs)
  end.

(** The indices of the beats, bars and sections among the fired callbacks. *)
Definition beatsFired (l : list Fired) : list Z :=
  flat_map (fun e => match e with OnBeat i _ => [i] | _ => [] end) l.
Definition barsFired (l : list Fired) : list Z :=
  flat_map (fun e => match e with OnBar i => [i] | _ => [] end) l.
Definition sectionsFired (l : list Fired) : list Z :=
  flat_map (fun e => match e with OnSection i => [i] | _ => [] end) l.

(** A run of the dispatch effect over successive positions, the
    callbacks of each call kept apart. *)
Fixpoint runSync (a : AudioAnalysis) (positions : list Q) (c : SyncCursor)
  : SyncCursor * list (list Fired) :=
  match positions with
  | [] => (c, [])
  | p :: rest =>
      let (c1, f) := syncEffect (Some a) p true c in
      let (c2, fs) := runSync a rest c1 in
      (c2, f :: fs)
  end.

(** Entry [i] of the table exists and starts in [(prevSec, curSec]]. *)
Definition inWindowAt {T} `{HasStart T} (arr : list T) (prevSec curSec : Q) (i : Z) : Prop :=
  exists x, (0 <= i)%Z /\ nth_error arr (Z.to_nat i) = Some x /\
            prevSec < start x /\ start x <= curSec.

(** What a call is to fire from one table, [last] being the table's
    last-fired index when the call starts: the entries of the window, in
    index order and once each, whose index differs from the last-fired
    index at the time the entry is reached, which is [last] for the first
    entry of the window and the index of the entry before it for the others. *)
Definition FiresExactly {T} `{HasStart T} (arr : list T) (prevSec curSec : Q)
    (last : Z) (fired : list Z) : Prop :=
  StronglySorted Z.lt fired /\
  forall i, In i fired <->
            inWindowAt arr prevSec curSec i /\
            (i <> last \/ exists j, (j < i)%Z /\ inWindowAt arr prevSec curSec j).

(** The indices a dispatch loop fires, whatever the callback. *)
Fixpoint firedIdx {T} (evs : list (T * Z)) (last : Z) : list Z :=
  match evs with
  | [] => []
  | (_, index) :: rest =>
      if negb (index =? last)%Z then index :: firedIdx rest index
      else firedIdx rest last
  end.

(** Only the first entry of a window can be suppressed: the indices
    increase, so every later entry differs from the one fired before it. *)
Definition dropHeadIf (last : Z) (l : list Z) : list Z :=
  match l with
  | [] => []
  | i :: rest => if (i =? last)%Z then rest else l
  end.

(** The beat table is dispatched independently of the bars and sections:
    the anchor and the last-fired beat evolve as in [beatStep]. *)
Definition beatStep (bs : list TimeInterval) (pos : Q) (st : option Q * Z)
  : (option Q * Z) * list Z :=
  let curSec := curSecOf pos in
  let prevSec := prevSecOf (mkCursor (fst st) (snd st) 0 0) pos in
  if Qltb curSec (fl (prevSec - 0.5)) then ((Some curSec, snd st), [])
  else ((Some curSec, fst (fireLoop beatCb (eventsInWindow bs prevSec curSec) (snd st))),
        firedIdx (eventsInWindow bs prevSec curSec) (snd st)).

Fixpoint beatRun (bs : list TimeInterval) (positions : list Q) (st : option Q * Z)
  : (option Q * Z) * list (list Z) :=
  match positions with
  | [] => (st, [])
  | p :: rest =>
      let (st1, f) := beatStep bs p st in
      let (st2, fs) := beatRun bs rest st1 in
      (st2, f :: fs)
  end.

(** The number is a double: rounding leaves it as it is. *)
Definition isDouble (x : Q) : Prop := fl x == x.

(** The stored previous position is a double, as every position the hook
    stores is. *)
Definition cursorOk (c : SyncCursor) : Prop :=
  match prevPosition c with
  | Some p => isDouble p
  | None => True
  end.

(** The beat table of the scenarios: beats starting at 0.5 s, 1.0 s and
    1.5 s, with any durations and confidences, beside any bars and sections. *)
Definition scenarioAnalysis (d0 c0 d1 c1 d2 c2 : Q)
    (brs : list TimeInterval) (secs : list Section) : AudioAnalysis :=
  mkAnalysis [mkInterval 0.5 d0 c0; mkInterval 1.0 d1 c1; mkInterval 1.5 d2 c2] brs secs.

(** ** Runs of calls *)

(** Over a run of calls a table fires exactly the entries that start in
    [(lo, hi]], each of them once. *)
Definition FiresOnce {T} `{HasStart T} (arr : list T) (lo hi : Q) (fired : list Z) : Prop :=
  NoDup fired /\ forall i, In i fired <-> inWindowAt arr lo hi i.

(** The last-fired index of a table is behind the anchor: nothing fired
    yet, or the entry fired last starts at or before [prevSec]. *)
Definition behind {T} `{HasStart T} (arr : list T) (prevSec : Q) (last : Z) : Prop :=
  (last < 0)%Z \/ exists x, nth_error arr (Z.to_nat last) = Some x /\ start x <= prevSec.

End BeatSync.

(** * Spectral feature extractor and onset/beat/tempo tracker ([liveAnalyzer.ts]) *)

Module Live.

Inductive AudioSourceMode := Idle | Preview | LiveCapture | Mic.

(** The keys of [onsetRolling], [lastOnset] and [onsets]. *)
Inductive Band := SubBass | Bass | Mids | Highs.

(** An object with one field per onset band. *)
Record PerBand (A : Type) := mkPerBand {
  pb_subBass : A;
  pb_bass : A;
  pb_mids : A;
  pb_highs : A
}.
Arguments mkPerBand {A}.
Arguments pb_subBass {A}.
Arguments pb_bass {A}.
Arguments pb_mids {A}.
Arguments pb_highs {A}.

(** [obj[band]]. *)
Definition getBand {A} (o : PerBand A) (b : Band) : A :=
  match b with
  | SubBass => pb_subBass o
  | Bass => pb_bass o
  | Mids => pb_mids o
  | Highs => pb_highs o
  end.

(** [obj[band] = v]. *)
Definition setBand {A} (o : PerBand A) (b : Band) (v : A) : PerBand A :=
  match b with
  | SubBass => mkPerBand v (pb_bass o) (pb_mids o) (pb_highs o)
  | Bass => mkPerBand (pb_subBass o) v (pb_mids o) (pb_highs o)
  | Mids => mkPerBand (pb_subBass o) (pb_bass o) v (pb_highs o)
  | Highs => mkPerBand (pb_subBass o) (pb_bass o) (pb_mids o) v
  end.

Record LiveAnalysisFrame := mkFrame {
  subBass : Q;
  bass : Q;
  mids : Q;
  highs : Q;
  brilliance : Q;
  rawMids : Q;
  centroid : Q;
  flux : Q;
  rolloff : Q;
  zcr : Q;
  onsets : PerBand bool;
  onsetDensity : Q;
  vocalDetected : bool;
  beatFired : bool;
  beatConfidence : Q;
  bpm : Q
}.

(** The fields of [LiveAnalyzer] that [tick] reads or writes.
    [attached] stands for [analyser] and [dataArray] being non-null (they
    are set and cleared together), [running] for [ctx.state === 'running'],
    [prevDataArray = None] for [null]. *)
Record LiveAnalyzer := mkAnalyzer {
  attached : bool;
  running : bool;
  sampleRate : Q;
  mode : AudioSourceMode;
  prevDataArray : option (list Z);
  smSubBass : Q;
  smBass : Q;
  smMids : Q;
  smHighs : Q;
  smBrilliance : Q;
  smCentroid : Q;
  smFlux : Q;
  smRolloff : Q;
  smZCR : Q;
  onsetRolling : PerBand Q;
  lastOnset : PerBand Q;
  onsetDensitySmooth : Q;
  vocalMidsRolling : Q;
  vocalBassHighRolling : Q;
  rollingBass : Q;
  lastBeatTime : Q;
  beatIntervals : list Q;
  _bpm : Q
}.

(** The field initialisers of the class, which [disposeSource] restores;
    the source is attached by [connectStream] or [loadPreview]. *)
Definition freshAnalyzer (att run : bool) (rate : Q) (m : AudioSourceMode) : LiveAnalyzer :=
  {| attached := att; running := run; sampleRate := rate; mode := m;
     prevDataArray := None;
     smSubBass := 0; smBass := 0; smMids := 0; smHighs := 0; smBrilliance := 0;
     smCentroid := 0.5; smFlux := 0; smRolloff := 0.3; smZCR := 0;
     onsetRolling := mkPerBand 0 0 0 0;
     lastOnset := mkPerBand (-1) (-1) (-1) (-1);
     onsetDensitySmooth := 0;
     vocalMidsRolling := 0; vocalBassHighRolling := 0;
     rollingBass := 20; lastBeatTime := -1; beatIntervals := []; _bpm := 120 |}.

(** The accumulators of the first loop of [tick]. *)
Record Sums := mkSums {
  subBassSum : Q; subBassCount : Q;
  bassSum : Q; bassCount : Q;
  midsSum : Q; midsCount : Q;
  highsSum : Q; highsCount : Q;
  brillSum : Q; brillCount : Q;
  weightedBinSum : Q;
  totalMag : Q;
  fluxSum : Q
}.

Definition zeroSums : Sums := mkSums 0 0 0 0 0 0 0 0 0 0 0 0 0.

(** One iteration of the first loop: bin [i] holding [v], the previous
    frame holding [prev] there. *)
Definition accumulate (hzPerBin : Q) (i : Z) (v prev : Q) (a : Sums) : Sums :=
  let hz := inject_Z i * hzPerBin in
  let a1 :=
    if Qltb hz 60 then
      mkSums (subBassSum a + v) (subBassCount a + 1) (bassSum a) (bassCount a)
             (midsSum a) (midsCount a) (highsSum a) (highsCount a)
             (brillSum a) (brillCount a) (weightedBinSum a) (totalMag a) (fluxSum a)
    else if Qltb hz 250 then
      mkSums (subBassSum a) (subBassCount a) (bassSum a + v) (bassCount a + 1)
             (midsSum a) (midsCount a) (highsSum a) (highsCount a)
             (brillSum a) (brillCount a) (weightedBinSum a) (totalMag a) (fluxSum a)
    else if Qltb hz 2000 then
      mkSums (subBassSum a) (subBassCount a) (bassSum a) (bassCount a)
             (midsSum a + v) (midsCount a + 1) (highsSum a) (highsCount a)
             (brillSum a) (brillCount a) (weightedBinSum a) (totalMag a) (fluxSum a)
    else if Qltb hz 6000 then
      mkSums (subBassSum a) (subBassCount a) (bassSum a) (bassCount a)
             (midsSum a) (midsCount a) (highsSum a + v) (highsCount a + 1)
             (brillSum a) (brillCount a) (weightedBinSum a) (totalMag a) (fluxSum a)
    else
      mkSums (subBassSum a) (subBassCount a) (bassSum a) (bassCount a)
             (midsSum a) (midsCount a) (highsSum a) (highsCount a)
             (brillSum a + v) (brillCount a + 1) (weightedBinSum a) (totalMag a) (fluxSum a)
  in
  mkSums (subBassSum a1) (subBassCount a1) (bassSum a1) (bassCount a1)
         (midsSum a1) (midsCount a1) (highsSum a1) (highsCount a1)
         (brillSum a1) (brillCount a1)
         (weightedBinSum a1 + inject_Z i * v)
         (totalMag a1 + v)
         (fluxSum a1 + Qmax 0 (v - prev)).

(** [this.prevDataArray ? this.prevDataArray[i] : 0].  The previous frame
    is allocated with [binCount] entries, so [i] is always in its range. *)
Definition prevAt (prev : option (list Z)) (i : Z) : Q :=
  match prev with
  | Some p => inject_Z (nth (Z.to_nat i) p 0%Z)
  | None => 0
  end.

(** The first loop, from bin [i] on. *)
Fixpoint accumulateFrom (hzPerBin : Q) (prev : option (list Z)) (i : Z)
    (data : list Z) (a : Sums) : Sums :=
  match data with
  | [] => a
  | v :: rest =>
      accumulateFrom hzPerBin prev (i + 1) rest
        (accumulate hzPerBin i (inject_Z v) (prevAt prev i) a)
  end.

(** The rolloff loop from bin [i] on: the first bin at which the
    running sum reaches [targetEnergy], or the initial [rolloffBin = 0]. *)
Fixpoint rolloffFrom (targetEnergy : Q) (i : Z) (accumulated : Q) (data : list Z) : Z :=
  match data with
  | [] => 0%Z
  | v :: rest =>
      let accumulated' := accumulated + inject_Z v in
      if Qgeb accumulated' targetEnergy then i
      else rolloffFrom targetEnergy (i + 1) accumulated' rest
  end.

(** [count ? Math.min(1, (sum / count / 255) * amp) : 0]. *)
Definition normBand (sum count amp : Q) : Q :=
  if Qeq_bool count 0 then 0 else Qmin 1 ((sum / count / 255) * amp).

(** [count ? sum / count : 0]. *)
Definition avgBand (sum count : Q) : Q :=
  if Qeq_bool count 0 then 0 else sum / count.

(** [Math.round]: the nearest integer, halves upwards. *)
Definition jsRound (x : Q) : Q := inject_Z (Qfloor (x + 0.5)).

(** Constants of the onset detector. *)
Definition alpha_o : Q := 0.967.
Definition ONSET_MULT : Q := 1.5.
Definition ONSET_MIN : Q := 6.
Definition ONSET_GAP : Q := 0.12.

Definition onsetBands : list Band := [SubBass; Bass; Mids; Highs].

(** The state the onset loop updates: [onsetRolling], [lastOnset], [onsets]. *)
Record OnsetState := mkOnsetState {
  os_rolling : PerBand Q;
  os_last : PerBand Q;
  os_onsets : PerBand bool
}.

(** The body of [for (const band of ['subBass', 'bass', 'mids', 'highs'])]. *)
Definition onsetBody (rawBands : PerBand Q) (wallTimeSec : Q)
    (st : OnsetState) (band : Band) : OnsetState :=
  let raw := getBand rawBands band in
  let rolling := setBand (os_rolling st) band
                   (getBand (os_rolling st) band * alpha_o + raw * (1 - alpha_o)) in
  let threshold := Qmax ONSET_MIN (getBand rolling band * ONSET_MULT) in
  if Qgtb raw threshold && Qgtb (wallTimeSec - getBand (os_last st) band) ONSET_GAP
  then mkOnsetState rolling (setBand (os_last st) band wallTimeSec)
                    (setBand (os_onsets st) band true)
  else mkOnsetState rolling (os_last st) (os_onsets st).

Definition onsetLoop (rawBands : PerBand Q) (wallTimeSec : Q)
    (rolling last : PerBand Q) : OnsetState :=
  fold_left (onsetBody rawBands wallTimeSec) onsetBands
    (mkOnsetState rolling last (mkPerBand false false false false)).

(** The tempo state: [lastBeatTime], [beatIntervals], [_bpm]. *)
Record Tempo := mkTempo {
  t_lastBeatTime : Q;
  t_intervals : list Q;
  t_bpm : Q
}.

(** [arr.reduce((a, b) => a + b, 0)]. *)
Definition sumQ (l : list Q) : Q := fold_left Qplus l 0.

(** [arr.length], as a number. *)
Definition lengthQ {A} (l : list A) : Q := inject_Z (Z.of_nat (length l)).

(** The statements under [if (beatFired)] that touch the tempo state. *)
Definition tempoOnBeat (wallTimeSec : Q) (t : Tempo) : Tempo :=
  let t1 :=
    if Qgeb (t_lastBeatTime t) 0 then
      let gap := wallTimeSec - t_lastBeatTime t in
      if Qltb gap 2.0 then
        let pushed := t_intervals t ++ [gap] in
        let ring := if (8 <? length pushed)%nat then tl pushed else pushed in
        if (2 <=? length ring)%nat then
          let avg := sumQ ring / lengthQ ring in
          mkTempo (t_lastBeatTime t) ring (jsRound (60 / avg))
        else mkTempo (t_lastBeatTime t) ring (t_bpm t)
      else t
    else t
  in
  mkTempo wallTimeSec (t_intervals t1) (t_bpm t1).

(** The frame [tick] returns while no source is attached or the context
    is not running. *)
Definition zeroFrame (s : LiveAnalyzer) : LiveAnalysisFrame :=
  {| subBass := 0; bass := 0; mids := 0; highs := 0; brilliance := 0; rawMids := 0;
     centroid := smCentroid s; flux := 0; rolloff := 0.3; zcr := 0;
     onsets := mkPerBand false false false false;
     onsetDensity := 0;
     vocalDetected := false;
     beatFired := false; beatConfidence := 0; bpm := _bpm s |}.

(** The sums of the first loop of [tick] over the whole frame:
    [nyquist = sampleRate / 2], [hzPerBin = nyquist / binCount]. *)
Definition sumsOf (s : LiveAnalyzer) (data : list Z) : Sums :=
  let binCount := lengthQ data in
  let nyquist := sampleRate s / 2 in
  let hzPerBin := nyquist / binCount in
  accumulateFrom hzPerBin (prevDataArray s) 0 data zeroSums.

(** [rawBands]: the raw (unsmoothed) average magnitude of each onset band. *)
Definition rawBandsOf (a : Sums) : PerBand Q :=
  mkPerBand (avgBand (subBassSum a) (subBassCount a))
            (avgBand (bassSum a) (bassCount a))
            (avgBand (midsSum a) (midsCount a))
            (avgBand (highsSum a) (highsCount a)).

(** The tempo fields of the analyzer. *)
Definition tempoOf (s : LiveAnalyzer) : Tempo :=
  mkTempo (lastBeatTime s) (beatIntervals s) (_bpm s).

(** [tick(wallTimeSec)]; [data] is what [getByteFrequencyData] writes into
    [dataArray], whose length is [binCount]. *)
Definition tick (wallTimeSec : Q) (data : list Z) (s : LiveAnalyzer)
  : LiveAnalyzer * LiveAnalysisFrame :=
  if negb (attached s) || negb (running s) then (s, zeroFrame s) else
  let binCount := lengthQ data in
  let a := sumsOf s data in
  let amp := match mode s with LiveCapture => 2.0 | _ => 4.0 end in
  let rawSubBass := normBand (subBassSum a) (subBassCount a) amp in
  let rawBass := normBand (bassSum a) (bassCount a) amp in
  let rawMids := normBand (midsSum a) (midsCount a) amp in
  let rawHighs := normBand (highsSum a) (highsCount a) amp in
  let rawBrilliance := normBand (brillSum a) (brillCount a) amp in
  let S := 0.85 in
  let smSubBass' := smSubBass s * S + rawSubBass * (1 - S) in
  let smBass' := smBass s * S + rawBass * (1 - S) in
  let smMids' := smMids s * S + rawMids * (1 - S) in
  let smHighs' := smHighs s * S + rawHighs * (1 - S) in
  let smBrilliance' := smBrilliance s * S + rawBrilliance * (1 - S) in
  let rawCentroid :=
    if Qgtb (totalMag a) 0 then (weightedBinSum a / totalMag a) / binCount else 0 in
  let smCentroid' := smCentroid s * 0.88 + rawCentroid * 0.12 in
  let rawFlux := fluxSum a / (binCount * 255) in
  let smFlux' := smFlux s * 0.70 + rawFlux * 0.30 in
  let targetEnergy := totalMag a * 0.85 in
  let rolloffBin := rolloffFrom targetEnergy 0 0 data in
  let rawRolloff := if Qgtb binCount 0 then inject_Z rolloffBin / binCount else 0 in
  let smRolloff' := smRolloff s * 0.90 + rawRolloff * 0.10 in
  let avgBrill := avgBand (brillSum a) (brillCount a) in
  let avgTotal := totalMag a / binCount in
  let rawZCR := if Qgtb avgTotal 0 then Qmin 1 ((avgBrill / avgTotal) * 3.0) else 0 in
  let smZCR' := smZCR s * 0.88 + rawZCR * 0.12 in
  let rawBands := rawBandsOf a in
  let os := onsetLoop rawBands wallTimeSec (onsetRolling s) (lastOnset s) in
  let onsets' := os_onsets os in
  let anyOnset := pb_subBass onsets' || pb_bass onsets' || pb_mids onsets' || pb_highs onsets' in
  let onsetDensitySmooth' :=
    onsetDensitySmooth s * 0.992 + (if anyOnset then 1 else 0) * 0.008 in
  let rawVocalMids := avgBand (midsSum a) (midsCount a) in
  let rawVocalBH :=
    (avgBand (bassSum a) (bassCount a) + avgBand (highsSum a) (highsCount a)) * 0.5 in
  let vocalMidsRolling' := vocalMidsRolling s * alpha_o + rawVocalMids * (1 - alpha_o) in
  let vocalBassHighRolling' :=
    vocalBassHighRolling s * alpha_o + rawVocalBH * (1 - alpha_o) in
  let vocalDetected' :=
    Qgtb vocalMidsRolling' (vocalBassHighRolling' * 1.5) && Qgtb vocalMidsRolling' 4 in
  let bassAvg := pb_bass rawBands in
  let rollingBass' := rollingBass s * 0.94 + bassAvg * 0.06 in
  let beatThreshold := Qmax 6 (rollingBass' * 1.4) in
  let gapOk := Qltb (lastBeatTime s) 0 || Qgtb (wallTimeSec - lastBeatTime s) 0.18 in
  let beatFired' := Qgtb bassAvg beatThreshold && gapOk in
  let confidence :=
    if beatFired' then Qmin 1 ((bassAvg - beatThreshold) / Qmax 1 beatThreshold) else 0 in
  let tempo0 := tempoOf s in
  let tempo := if beatFired' then tempoOnBeat wallTimeSec tempo0 else tempo0 in
  ({| attached := attached s; running := running s; sampleRate := sampleRate s;
      mode := mode s;
      prevDataArray := Some data;
      smSubBass := smSubBass'; smBass := smBass'; smMids := smMids';
      smHighs := smHighs'; smBrilliance := smBrilliance';
      smCentroid := smCentroid'; smFlux := smFlux'; smRolloff := smRolloff';
      smZCR := smZCR';
      onsetRolling := os_rolling os; lastOnset := os_last os;
      onsetDensitySmooth := onsetDensitySmooth';
      vocalMidsRolling := vocalMidsRolling';
      vocalBassHighRolling := vocalBassHighRolling';
      rollingBass := rollingBass';
      lastBeatTime := t_lastBeatTime tempo;
      beatIntervals := t_intervals tempo;
      _bpm := t_bpm tempo |},
   {| subBass := smSubBass'; bass := smBass'; mids := smMids'; highs := smHighs';
      brilliance := smBrilliance'; rawMids := rawMids;
      centroid := smCentroid'; flux := smFlux'; rolloff := smRolloff'; zcr := smZCR';
      onsets := onsets';
      onsetDensity := onsetDensitySmooth';
      vocalDetected := vocalDetected';
      beatFired := beatFired'; beatConfidence := confidence;
      bpm := t_bpm tempo |}).

(** Successive ticks, each with its wall time and frequency data. *)
Fixpoint ticks (inputs : list (Q * list Z)) (s : LiveAnalyzer)
  : LiveAnalyzer * list LiveAnalysisFrame :=
  match inputs with
  | [] => (s, [])
  | (t, data) :: rest =>
      let (s1, f) := tick t data s in
      let (s2, fs) := ticks rest s1 in
      (s2, f :: fs)
  end.

(** A source is attached and the audio context runs: [tick] analyses. *)
Definition live (s : LiveAnalyzer) : Prop := attached s = true /\ running s = true.

(** The frequency data is all-zero (and the array is not empty: it has
    [frequencyBinCount = 1024] bins). *)
Definition silent (data : list Z) : Prop := data <> [] /\ Forall (fun v => v = 0%Z) data.

(** The previous frame, when there is one, holds bytes. *)
Definition prevOk (s : LiveAnalyzer) : Prop :=
  match prevDataArray s with
  | Some p => Forall (fun v => (0 <= v <= 255)%Z) p
  | None => True
  end.

(** The nine EMA-smoothed scalars, as the analyzer holds them and as a
    frame reports them: five bands, centroid, flux, rolloff, noisiness. *)
Definition smoothedState (s : LiveAnalyzer) : list Q :=
  [smSubBass s; smBass s; smMids s; smHighs s; smBrilliance s;
   smCentroid s; smFlux s; smRolloff s; smZCR s].

Definition smoothedFrame (f : LiveAnalysisFrame) : list Q :=
  [subBass f; bass f; mids f; highs f; brilliance f;
   centroid f; flux f; rolloff f; zcr f].

(** The retention of each of them, in the same order. *)
Definition retentions : list Q := [0.85; 0.85; 0.85; 0.85; 0.85; 0.88; 0.70; 0.90; 0.88].

(** The weight a retention leaves on a value after [n] frames. *)
Fixpoint retained (ret : Q) (n : nat) : Q :=
  match n with
  | O => 1
  | S m => retained ret m * ret
  end.

(** Each scalar after [n] frames of pure decay. *)
Definition decayed (n : nat) (xs : list Q) : list Q :=
  map (fun xr => fst xr * retained (snd xr) n) (combine xs retentions).

(** Every smoothed scalar of the analyzer is in [0, 1]. *)
Definition inRange (s : LiveAnalyzer) : Prop :=
  Forall (fun x => 0 <= x <= 1) (smoothedState s).

Definition silentInputs (inputs : list (Q * list Z)) : Prop :=
  Forall (fun i => silent (snd i)) inputs.

(** On silence every smoothed scalar comes within any tolerance of its
    floor after a number of frames that depends on the tolerance only. *)
Definition SettlesAt (floors : list Q) : Prop :=
  forall eps, 0 < eps ->
  exists N : nat,
  forall s inputs, live s -> prevOk s -> inRange s -> silentInputs inputs ->
  forall k f, (N <= k)%nat -> nth_error (snd (ticks inputs s)) k = Some f ->
  Forall2 (fun x fl => Qabs (x - fl) < eps) (smoothedFrame f) floors.

(** The floors the specification documents (rolloff 0.3), and the floors
    of the decay on all-zero data. *)
Definition claimedFloors : list Q := [0; 0; 0; 0; 0; 0; 0; 0.3; 0].
Definition silenceFloors : list Q := [0; 0; 0; 0; 0; 0; 0; 0; 0].


(** A number of frames after which [0.9^n < eps]. *)
Definition settleFrames (eps : Q) : nat := Z.to_nat (Qceiling (9 / eps)).

(** The frames of a run at 60 frames per second on 1024 silent bins. *)
Definition zeros (bins : nat) : list Z := repeat 0%Z bins.

Definition silence1024 (n : nat) : list (Q * list Z) :=
  map (fun k => (inject_Z (Z.of_nat k) / 60, zeros 1024)) (seq 0 n).

(** The analyzer after [startLiveCapture] at 44.1 kHz. *)
Definition liveStart : LiveAnalyzer := freshAnalyzer true true 44100 LiveCapture.


(** A frame of 1024 bins with the nine bass bins (64.6 Hz to 236.9 Hz at
    44.1 kHz) at full scale. *)
Definition bassSpike : list Z := repeat 0%Z 3 ++ repeat 255%Z 9 ++ repeat 0%Z 1012.

(** Two frames 0.5 s apart, each with the bass spike. *)
Definition spikeRun : list (Q * list Z) := [(0, bassSpike); (0.5, bassSpike)].






(** The last [n] entries of a list. *)
Definition lastN {A} (n : nat) (l : list A) : list A := skipn (length l - n) l.

(** A gap is recorded when a beat came before and it is under 2 s. *)
Definition gapRecorded (t : Q) (tp : Tempo) : Prop :=
  0 <= t_lastBeatTime tp /\ t - t_lastBeatTime tp < 2.

(** Three frames 0.5 s apart, each with the bass spike. *)
Definition spikeRun3 : list (Q * list Z) :=
  [(0, bassSpike); (0.5, bassSpike); (1.0, bassSpike)].

(** The sums of magnitudes of the first loop are all zero. *)
Definition zeroValued (a : Sums) : Prop :=
  subBassSum a == 0 /\ bassSum a == 0 /\ midsSum a == 0 /\ highsSum a == 0 /\
  brillSum a == 0 /\ weightedBinSum a == 0 /\ totalMag a == 0 /\ fluxSum a == 0.

(** The frequency data of a [Uint8Array]: bytes. *)
Definition bytes (data : list Z) : Prop := Forall (fun v => (0 <= v <= 255)%Z) data.

(** The analyzer holds scalars in their documented range: the nine
    smoothed scalars and the onset density in [0, 1], the previous frame
    made of bytes. *)
Definition wellFormed (s : LiveAnalyzer) : Prop :=
  inRange s /\ (0 <= onsetDensitySmooth s <= 1) /\ prevOk s.

(** The smoothed scalars and the onset density of the frame are in [0, 1]. *)
Definition frameScalarsInRange (f : LiveAnalysisFrame) : Prop :=
  Forall (fun x => 0 <= x <= 1) (smoothedFrame f) /\ (0 <= onsetDensity f <= 1).

(** What the first loop of [tick] keeps true on bytes, [i] bins done:
    sums and counts are not negative, the weighted sum is at most [i]
    times the total, the flux sum at most [255 i]. *)
Definition sumsInv (i : Z) (a : Sums) : Prop :=
  (0 <= i)%Z /\
  0 <= subBassSum a /\ 0 <= subBassCount a /\ 0 <= bassSum a /\ 0 <= bassCount a /\
  0 <= midsSum a /\ 0 <= midsCount a /\ 0 <= highsSum a /\ 0 <= highsCount a /\
  0 <= brillSum a /\ 0 <= brillCount a /\
  0 <= weightedBinSum a /\ weightedBinSum a <= inject_Z i * totalMag a /\
  0 <= totalMag a /\
  0 <= fluxSum a /\ fluxSum a <= 255 * inject_Z i.

(** The inputs of a run: each frame a non-empty array of bytes. *)
Definition byteInputs (inputs : list (Q * list Z)) : Prop :=
  Forall (fun i => snd i <> [] /\ bytes (snd i)) inputs.

(** ** Disposal, band totals and the tempo invariant *)

(** [disposeSource()]: the source is detached and the analysis state goes
    back to its initial values; [_bpm] is not among the fields reset, and
    the audio context keeps its state and its sample rate. *)
Definition disposeSource (s : LiveAnalyzer) : LiveAnalyzer :=
  {| attached := false; running := running s; sampleRate := sampleRate s;
     mode := Idle;
     prevDataArray := None;
     smSubBass := 0; smBass := 0; smMids := 0; smHighs := 0; smBrilliance := 0;
     smCentroid := 0.5; smFlux := 0; smRolloff := 0.3; smZCR := 0;
     onsetRolling := mkPerBand 0 0 0 0;
     lastOnset := mkPerBand (-1) (-1) (-1) (-1);
     onsetDensitySmooth := 0;
     vocalMidsRolling := 0; vocalBassHighRolling := 0;
     rollingBass := 20; lastBeatTime := -1; beatIntervals := [];
     _bpm := _bpm s |}.

(** The number of bins counted and the magnitude summed over the five bands. *)
Definition bandCount (a : Sums) : Q :=
  subBassCount a + bassCount a + midsCount a + highsCount a + brillCount a.

Definition bandSum (a : Sums) : Q :=
  subBassSum a + bassSum a + midsSum a + highsSum a + brillSum a.

(** The sum of the magnitudes of a frame, or of its first bins. *)
Definition sumBytes (data : list Z) : Z := fold_right Z.add 0%Z data.

Definition prefixSum (data : list Z) (k : Z) : Q :=
  inject_Z (sumBytes (firstn (Z.to_nat (k + 1)) data)).

(** What the beat tracker keeps true of the tempo state: the ring holds
    at most 8 gaps, each between 0.18 s and 2 s, and the BPM is between
    30 and 333. *)
Definition tempoOk (tp : Tempo) : Prop :=
  (length (t_intervals tp) <= 8)%nat /\
  Forall (fun gap => 0.18 < gap < 2) (t_intervals tp) /\
  30 <= t_bpm tp <= 333.

End Live.

(** * Audio profile classifier ([audioProfile.ts]) *)

Module Profile.

Import Live.

Inductive ProfileType := heavy | ambient | rhythmic | acoustic | chaotic.

(** [ProfileWeights], also the shape of [rawScores] and [targetWeights]. *)
Record ProfileWeights := mkWeights {
  w_heavy : Q;
  w_ambient : Q;
  w_rhythmic : Q;
  w_acoustic : Q;
  w_chaotic : Q
}.

(** [w[k]]. *)
Definition wget (w : ProfileWeights) (k : ProfileType) : Q :=
  match k with
  | heavy => w_heavy w
  | ambient => w_ambient w
  | rhythmic => w_rhythmic w
  | acoustic => w_acoustic w
  | chaotic => w_chaotic w
  end.

(** [w[k] = v]. *)
Definition wset (w : ProfileWeights) (k : ProfileType) (v : Q) : ProfileWeights :=
  match k with
  | heavy => mkWeights v (w_ambient w) (w_rhythmic w) (w_acoustic w) (w_chaotic w)
  | ambient => mkWeights (w_heavy w) v (w_rhythmic w) (w_acoustic w) (w_chaotic w)
  | rhythmic => mkWeights (w_heavy w) (w_ambient w) v (w_acoustic w) (w_chaotic w)
  | acoustic => mkWeights (w_heavy w) (w_ambient w) (w_rhythmic w) v (w_chaotic w)
  | chaotic => mkWeights (w_heavy w) (w_ambient w) (w_rhythmic w) (w_acoustic w) v
  end.

(** The eleven numeric fields of [ProfileDef] and [VisualParams]. *)
Inductive ParamKey :=
| hue1 | hue2 | hue3 | roughness | displacementScale
| bloomStrength | chromaAmount | grainAmount
| particleVelocity | particleOpacity | cameraShake.

Record ProfileDef := mkDef {
  d_hue1 : Q; d_hue2 : Q; d_hue3 : Q;
  d_roughness : Q; d_displacementScale : Q;
  d_bloomStrength : Q; d_chromaAmount : Q; d_grainAmount : Q;
  d_particleVelocity : Q; d_particleOpacity : Q;
  d_cameraShake : Q
}.

(** [def[key]]. *)
Definition dget (d : ProfileDef) (key : ParamKey) : Q :=
  match key with
  | hue1 => d_hue1 d | hue2 => d_hue2 d | hue3 => d_hue3 d
  | roughness => d_roughness d | displacementScale => d_displacementScale d
  | bloomStrength => d_bloomStrength d | chromaAmount => d_chromaAmount d
  | grainAmount => d_grainAmount d
  | particleVelocity => d_particleVelocity d | particleOpacity => d_particleOpacity d
  | cameraShake => d_cameraShake d
  end.

Record VisualParams := mkParams {
  p_values : ProfileDef;
  dominant : ProfileType
}.

Definition PROFILE_DEFS (p : ProfileType) : ProfileDef :=
  match p with
  | heavy => mkDef 0.02 0.07 0.97 0.85 1.35 2.2 0.007 0.13 0.80 0.85 0.012
  | ambient => mkDef 0.62 0.72 0.55 0.08 0.65 1.8 0.003 0.04 0.15 0.40 0.0
  | rhythmic => mkDef 0.47 0.88 0.50 0.40 1.05 2.5 0.008 0.06 0.65 0.75 0.005
  | acoustic => mkDef 0.10 0.28 0.14 0.18 0.80 1.4 0.004 0.10 0.25 0.55 0.0
  | chaotic => mkDef 0.95 0.50 0.25 1.00 1.55 3.0 0.014 0.16 1.20 0.90 0.020
  end.

(** [Object.keys(PROFILE_DEFS)]: the keys in the order they are written. *)
Definition PROFILE_KEYS : list ProfileType := [heavy; ambient; rhythmic; acoustic; chaotic].

Record RollingStats := mkRolling {
  r_centroid : Q;
  r_flux : Q;
  r_onsetDensity : Q;
  r_bassRatio : Q;
  r_zcr : Q
}.

(** The fields of [AudioProfileClassifier] that [update] reads or writes. *)
Record Classifier := mkClassifier {
  rolling : RollingStats;
  weights : ProfileWeights;
  params : VisualParams;
  txCentroid : Q;
  txOnsetDensity : Q
}.

(** [paramsFromWeights]: each parameter is the weighted sum over
    [PROFILE_KEYS]; [dominant] is the [reduce] without initial value, which
    keeps the accumulator only where it is strictly greater. *)
Definition blend (w : ProfileWeights) (key : ParamKey) : Q :=
  fold_left (fun s p => s + dget (PROFILE_DEFS p) key * wget w p) PROFILE_KEYS 0.

Definition dominantOf (w : ProfileWeights) : ProfileType :=
  fold_left (fun a b => if Qgtb (wget w a) (wget w b) then a else b)
    (tl PROFILE_KEYS) (hd heavy PROFILE_KEYS).

Definition paramsFromWeights (w : ProfileWeights) : VisualParams :=
  {| p_values :=
       mkDef (blend w hue1) (blend w hue2) (blend w hue3)
             (blend w roughness) (blend w displacementScale)
             (blend w bloomStrength) (blend w chromaAmount) (blend w grainAmount)
             (blend w particleVelocity) (blend w particleOpacity)
             (blend w cameraShake);
     dominant := dominantOf w |}.

Definition initialWeights : ProfileWeights := mkWeights 0 1 0 0 0.

(** The field initialisers of the class. *)
Definition initialClassifier : Classifier :=
  {| rolling := mkRolling 0.35 0.05 0.05 0.8 0.15;
     weights := initialWeights;
     params := paramsFromWeights initialWeights;
     txCentroid := 0.35;
     txOnsetDensity := 0.05 |}.

(** [sat] of [update]: [Math.max(0, Math.min(1, x))]. *)
Definition sat (x : Q) : Q := Qmax 0 (Qmin 1 x).

(** The five raw scores, from the rolled scalars. *)
Definition rawScores (r : RollingStats) : ProfileWeights :=
  let centroid := r_centroid r in
  let flux := r_flux r in
  let onsetDensity := r_onsetDensity r in
  let br := r_bassRatio r in
  let zcr := r_zcr r in
  {| w_heavy := sat (br * onsetDensity * flux * 6);
     w_ambient := sat ((1 - onsetDensity) * (1 - flux) * 0.95);
     w_rhythmic := sat (centroid * onsetDensity * Qmax 0 (1 - br * 0.5) * 4);
     w_acoustic := sat ((1 - zcr) * (0.6 - Qabs (centroid - 0.28)) * 4
                        * (1 - onsetDensity * 0.6));
     w_chaotic := sat (zcr * flux * 6) |}.

(** [PROFILE_KEYS.reduce((s, k) => s + rawScores[k], 0) || 1]. *)
Definition totalScore (scores : ProfileWeights) : Q :=
  let t := fold_left (fun s k => s + wget scores k) PROFILE_KEYS 0 in
  if Qeq_bool t 0 then 1 else t.

(** [for (const k of PROFILE_KEYS) targetWeights[k] = rawScores[k] / total],
    starting from the empty object. *)
Definition normalize (scores : ProfileWeights) : ProfileWeights :=
  let total := totalScore scores in
  fold_left (fun tw k => wset tw k (wget scores k / total)) PROFILE_KEYS
    (mkWeights 0 0 0 0 0).

(** [for (const k of PROFILE_KEYS) weights[k] += (target[k] - weights[k]) * a]. *)
Definition blendWeights (w target : ProfileWeights) (a : Q) : ProfileWeights :=
  fold_left (fun w k => wset w k (wget w k + (wget target k - wget w k) * a))
    PROFILE_KEYS w.

(** The loop over [Object.keys(target)] that moves each numeric
    parameter towards its target. *)
Definition smoothParams (p target : ProfileDef) (a : Q) : ProfileDef :=
  mkDef (d_hue1 p + (d_hue1 target - d_hue1 p) * a)
        (d_hue2 p + (d_hue2 target - d_hue2 p) * a)
        (d_hue3 p + (d_hue3 target - d_hue3 p) * a)
        (d_roughness p + (d_roughness target - d_roughness p) * a)
        (d_displacementScale p + (d_displacementScale target - d_displacementScale p) * a)
        (d_bloomStrength p + (d_bloomStrength target - d_bloomStrength p) * a)
        (d_chromaAmount p + (d_chromaAmount target - d_chromaAmount p) * a)
        (d_grainAmount p + (d_grainAmount target - d_grainAmount p) * a)
        (d_particleVelocity p + (d_particleVelocity target - d_particleVelocity p) * a)
        (d_particleOpacity p + (d_particleOpacity target - d_particleOpacity p) * a)
        (d_cameraShake p + (d_cameraShake target - d_cameraShake p) * a).

(** The rolling statistics after one frame. *)
Definition roll (r : RollingStats) (frame : LiveAnalysisFrame) (dt : Q) : RollingStats :=
  let aFast := Qmin 0.15 (dt / 1.5) in
  let aSlow := Qmin 0.04 (dt / 5.0) in
  let bassRatio :=
    (subBass frame + bass frame) / Qmax 0.001 (mids frame + highs frame) in
  {| r_centroid := r_centroid r + (centroid frame - r_centroid r) * aSlow;
     r_flux := r_flux r + (flux frame - r_flux r) * aFast;
     r_onsetDensity := r_onsetDensity r + (onsetDensity frame - r_onsetDensity r) * aSlow;
     r_bassRatio := r_bassRatio r + (bassRatio - r_bassRatio r) * aSlow;
     r_zcr := r_zcr r + (zcr frame - r_zcr r) * aSlow |}.

(** [hasAudio] of [update]. *)
Definition hasAudio (frame : LiveAnalysisFrame) : bool :=
  Qgtb (bass frame) 0 || Qgtb (subBass frame) 0.

(** [update(frame, dt)]: the classifier after the call and the
    parameters returned. *)
Definition update (frame : LiveAnalysisFrame) (dt : Q) (c : Classifier)
  : Classifier * VisualParams :=
  if negb (hasAudio frame) then (c, params c) else
  let rolling' := roll (rolling c) frame dt in
  let scores := rawScores rolling' in
  let targetWeights := normalize scores in
  let aBlend := Qmin 0.02 (dt / 2.5) in
  let weights' := blendWeights (weights c) targetWeights aBlend in
  let target := paramsFromWeights weights' in
  let aVis := Qmin 0.25 (dt / 0.3) in
  let params' := {| p_values := smoothParams (p_values (params c)) (p_values target) aVis;
                    dominant := dominant target |} in
  ({| rolling := rolling'; weights := weights'; params := params';
      txCentroid := txCentroid c; txOnsetDensity := txOnsetDensity c |}, params').

(** Successive [update] calls. *)
Fixpoint updates (inputs : list (LiveAnalysisFrame * Q)) (c : Classifier) : Classifier :=
  match inputs with
  | [] => c
  | (frame, dt) :: rest => updates rest (fst (update frame dt c))
  end.

(** The sum of the five weights. *)
Definition weightSum (w : ProfileWeights) : Q :=
  w_heavy w + w_ambient w + w_rhythmic w + w_acoustic w + w_chaotic w.

(** Five non-negative scalars summing to 1. *)
Definition normalized (w : ProfileWeights) : Prop :=
  0 <= w_heavy w /\ 0 <= w_ambient w /\ 0 <= w_rhythmic w /\
  0 <= w_acoustic w /\ 0 <= w_chaotic w /\ weightSum w == 1.

(** The flux and the onset density of the frame do not exceed 1: both
    are documented as scalars in 0..1. *)
Definition frameInRange (f : LiveAnalysisFrame) : Prop :=
  flux f <= 1 /\ onsetDensity f <= 1.

(** An [update] call: a frame in range and a positive [dt]. *)
Definition validCall (call : LiveAnalysisFrame * Q) : Prop :=
  frameInRange (fst call) /\ 0 < snd call.

(** A frame outside the documented ranges: flux -1 and onset density 50,
    with bass 1 and everything else 0. *)
Definition outOfRangeFrame : LiveAnalysisFrame :=
  {| subBass := 0; bass := 1; mids := 0; highs := 0; brilliance := 0;
     rawMids := 0; centroid := 0; flux := -1; rolloff := 0; zcr := 0;
     onsets := mkPerBand false false false false; onsetDensity := 50;
     vocalDetected := false; beatFired := false; beatConfidence := 0; bpm := 0 |}.

(** The rolled scalars of the scenario: centroid 0.2, flux 0.5, onset
    density 0.6, bass ratio 3.0, noisiness 0.1. *)
Definition scenarioRolling : RollingStats := mkRolling 0.2 0.5 0.6 3.0 0.1.

(** Equality of the rolled scalars and of weights, as numbers. *)
Definition rollingEq (r r' : RollingStats) : Prop :=
  r_centroid r == r_centroid r' /\ r_flux r == r_flux r' /\
  r_onsetDensity r == r_onsetDensity r' /\ r_bassRatio r == r_bassRatio r' /\
  r_zcr r == r_zcr r'.

Definition weightsEq (w w' : ProfileWeights) : Prop :=
  forall k, wget w k == wget w' k.

(** In an [update] call in which the rolled scalars come out as those of
    the scenario and the weights have already converged to the normalized
    scores, the dominant archetype reported is [p]. *)
Definition ConvergedDominant (p : ProfileType) : Prop :=
  forall frame dt c,
    hasAudio frame = true ->
    rollingEq (roll (rolling c) frame dt) scenarioRolling ->
    weightsEq (weights c) (normalize (rawScores scenarioRolling)) ->
    dominant (snd (update frame dt c)) = p.

(** A frame that keeps the rolled scalars of the scenario where they are:
    bass ratio (0.3 + 0.3) / (0.1 + 0.1) = 3. *)
Definition scenarioFrame : LiveAnalysisFrame :=
  {| subBass := 0.3; bass := 0.3; mids := 0.1; highs := 0.1; brilliance := 0.1;
     rawMids := 0.1; centroid := 0.2; flux := 0.5; rolloff := 0.3; zcr := 0.1;
     onsets := mkPerBand false false false false; onsetDensity := 0.6;
     vocalDetected := false; beatFired := false; beatConfidence := 0; bpm := 120 |}.

(** The classifier with the rolled scalars of the scenario and the
    weights converged to the normalized scores. *)
Definition scenarioClassifier : Classifier :=
  {| rolling := scenarioRolling;
     weights := normalize (rawScores scenarioRolling);
     params := paramsFromWeights (normalize (rawScores scenarioRolling));
     txCentroid := 0.35; txOnsetDensity := 0.05 |}.

(** What [update] keeps true: the rolled flux and onset density stay
    below 1, so the ambient score stays positive, and the weights stay
    normalized. *)
Definition classifierInv (c : Classifier) : Prop :=
  r_flux (rolling c) < 1 /\ r_onsetDensity (rolling c) < 1 /\ normalized (weights c).

(** ** Transitions and the parameter envelope *)

(** [checkTransition(frame, dt)]: the classifier after the call and the
    boolean returned. *)
Definition checkTransition (frame : LiveAnalysisFrame) (dt : Q) (c : Classifier)
  : Classifier * bool :=
  let aTx := Qmin 0.01 (dt / 12.0) in
  let prevC := txCentroid c in
  let prevOD := txOnsetDensity c in
  let txCentroid' := prevC + (centroid frame - prevC) * aTx in
  let txOnsetDensity' := prevOD + (onsetDensity frame - prevOD) * aTx in
  let centroidShift := Qabs (centroid frame - prevC) / Qmax 0.05 prevC in
  let onsetShift := Qabs (onsetDensity frame - prevOD) / Qmax 0.005 prevOD in
  ({| rolling := rolling c; weights := weights c; params := params c;
      txCentroid := txCentroid'; txOnsetDensity := txOnsetDensity' |},
   Qgtb centroidShift 0.30 || Qgtb onsetShift 1.2).

(** [getParams()]. *)
Definition getParams (c : Classifier) : VisualParams := params c.

(** The position of a profile in [PROFILE_KEYS]. *)
Definition keyIndex (p : ProfileType) : nat :=
  match p with
  | heavy => 0 | ambient => 1 | rhythmic => 2 | acoustic => 3 | chaotic => 4
  end.

(** The least and the greatest value the five profiles give a parameter. *)
Definition lowest (key : ParamKey) : Q :=
  fold_left (fun m p => Qmin m (dget (PROFILE_DEFS p) key)) PROFILE_KEYS
    (dget (PROFILE_DEFS heavy) key).

Definition highest (key : ParamKey) : Q :=
  fold_left (fun m p => Qmax m (dget (PROFILE_DEFS p) key)) PROFILE_KEYS
    (dget (PROFILE_DEFS heavy) key).

(** Every numeric parameter lies between the least and the greatest value
    of the five profiles. *)
Definition inEnvelope (p : VisualParams) : Prop :=
  forall key, lowest key <= dget (p_values p) key <= highest key.

End Profile.

(** * Mood palette modulation ([moodPalette.ts]) *)

Module Mood.

(** [RGB = [number, number, number]], also the channels of a [THREE.Color]. *)
Record RGB := mkRGB { r : Q; g : Q; b : Q }.

(** The hue, saturation and lightness [rgbToHsl] returns. *)
Record HSL := mkHSL { hue : Q; saturation : Q; lightness : Q }.

(** The four mood-corner palettes. *)
Definition LD : list RGB :=
  [mkRGB 0.08 0.05 0.25; mkRGB 0.40 0.06 0.12; mkRGB 0.16 0.20 0.04; mkRGB 0.06 0.08 0.18].
Definition LB : list RGB :=
  [mkRGB 0.62 0.58 0.88; mkRGB 0.52 0.74 0.56; mkRGB 0.54 0.64 0.78; mkRGB 0.84 0.88 0.96].
Definition HD : list RGB :=
  [mkRGB 0.72 0.28 0.05; mkRGB 0.72 0.06 0.08; mkRGB 0.84 0.72 0.04; mkRGB 0.28 0.04 0.04].
Definition HB : list RGB :=
  [mkRGB 0.98 0.32 0.28; mkRGB 0.06 0.62 0.94; mkRGB 0.68 0.98 0.04; mkRGB 0.92 0.06 0.88].

Definition lerp3 (a c : RGB) (t : Q) : RGB :=
  mkRGB (r a + (r c - r a) * t) (g a + (g c - g a) * t) (b a + (b c - b a) * t).

Definition black : RGB := mkRGB 0 0 0.

(** [moodQuad(energy, bright)]: the four blended colours. *)
Definition moodQuad (energy bright : Q) : list RGB :=
  map (fun i => lerp3 (lerp3 (nth i LD black) (nth i HD black) energy)
                      (lerp3 (nth i LB black) (nth i HB black) energy) bright)
      (seq 0 4).

(** [Math.max(r, g, b)] and [Math.min(r, g, b)]. *)
Definition max3 (x y z : Q) : Q := Qmax (Qmax x y) z.
Definition min3 (x y z : Q) : Q := Qmin (Qmin x y) z.

Definition rgbToHsl (c : RGB) : HSL :=
  let max := max3 (r c) (g c) (b c) in
  let min := min3 (r c) (g c) (b c) in
  let l := (max + min) / 2 in
  if Qeq_bool max min then mkHSL 0 0 l else
  let d := max - min in
  let s := if Qgtb l 0.5 then d / (2 - max - min) else d / (max + min) in
  let h :=
    if Qeq_bool max (r c) then (g c - b c) / d + (if Qltb (g c) (b c) then 6 else 0)
    else if Qeq_bool max (g c) then (b c - r c) / d + 2
    else (r c - g c) / d + 4 in
  mkHSL (h / 6) s l.

Definition h2rgb (p q t : Q) : Q :=
  let t := if Qltb t 0 then t + 1 else t in
  let t := if Qgtb t 1 then t - 1 else t in
  if Qltb t (1 / 6) then p + (q - p) * 6 * t
  else if Qltb t (1 / 2) then q
  else if Qltb t (2 / 3) then p + (q - p) * (2 / 3 - t) * 6
  else p.

(** [x % 1]: the remainder has the sign of [x]. *)
Definition jsMod1 (x : Q) : Q := x - inject_Z (Z.quot (Qnum x) (Zpos (Qden x))).

Definition hslToRgb (h s l : Q) : RGB :=
  let h := jsMod1 (jsMod1 h + 1) in
  if Qltb s 0.0001 then mkRGB l l l else
  let q := if Qltb l 0.5 then l * (1 + s) else l + s - l * s in
  let p := 2 * l - q in
  mkRGB (h2rgb p q (h + 1 / 3)) (h2rgb p q h) (h2rgb p q (h - 1 / 3)).

(** The hue difference of [modulate], brought onto the shortest arc. *)
Definition shortestArc (mH bH : Q) : Q :=
  let dH := mH - bH in
  let dH := if Qgtb dH 0.5 then dH - 1 else dH in
  if Qltb dH (-0.5) then dH + 1 else dH.

(** The [h], [s] and [l] that the body of the loop of [modulate] computes
    from the palette colour and the mood colour. *)
Definition blendHsl (base mood : RGB) : HSL :=
  let bHSL := rgbToHsl base in
  let mHSL := rgbToHsl mood in
  let dH := shortestArc (hue mHSL) (hue bHSL) in
  mkHSL (hue bHSL + dH * 0.40)
        (Qmin 1 (Qmax 0 (saturation bHSL + (saturation mHSL - saturation bHSL) * 0.70)))
        (Qmin 1 (Qmax 0 (lightness bHSL + (lightness mHSL - lightness bHSL) * 0.30))).

(** The body of the loop of [modulate]: the colour written to [pal[i]]. *)
Definition modulateColor (base mood : RGB) : RGB :=
  let c := blendHsl base mood in
  hslToRgb (hue c) (saturation c) (lightness c).

(** The last [n] rounds of the loop of [modulate], on the entries of the
    palette and of the mood colours from the index of the round on.  The
    loop always runs to index 3: where the palette or the mood colours
    have no entry at the index, reading the entry of [undefined] throws a
    [TypeError], which is [None] (the entries before it are rewritten by
    then). *)
Fixpoint modulateLoop (n : nat) (pal current : list RGB) : option (list RGB) :=
  match n with
  | O => Some pal
  | S n' =>
      match pal, current with
      | p :: pal', m :: current' =>
          match modulateLoop n' pal' current' with
          | Some out => Some (modulateColor p m :: out)
          | None => None
          end
      | _, _ => None
      end
  end.

(** [modulate(pal)], with [current] the mood colours of the system: the
    palette after the call, or [None] for the [TypeError]. *)
Definition modulate (current pal : list RGB) : option (list RGB) :=
  modulateLoop 4 pal current.

(** The mood colours of a new [MoodPaletteSystem]. *)
Definition initialCurrent : list RGB := moodQuad 0.5 0.5.

(** Every channel of the colour is in [0, 1]. *)
Definition inGamut (c : RGB) : Prop :=
  (0 <= r c <= 1) /\ (0 <= g c <= 1) /\ (0 <= b c <= 1).



(** Pure red, as a palette colour. *)
Definition red : RGB := mkRGB 1 0 0.


(** [h2rgb] once its [t] is brought into [0, 1]. *)
Definition ramp (p q t : Q) : Q :=
  if Qltb t (1 / 6) then p + (q - p) * 6 * t
  else if Qltb t (1 / 2) then q
  else if Qltb t (2 / 3) then p + (q - p) * (2 / 3 - t) * 6
  else p.

(** The hue [rgbToHsl] computes once the maximum [M] of the channels and
    its distance [d] to the minimum are known. *)
Definition hueOf (M d : Q) (c : RGB) : Q :=
  (if Qeq_bool M (r c) then (g c - b c) / d + (if Qltb (g c) (b c) then 6 else 0)
   else if Qeq_bool M (g c) then (b c - r c) / d + 2
   else (r c - g c) / d + 4) / 6.

(** ** The mood system *)

Import Live.

(** [satAdjust(c, factor)]. *)
Definition satAdjust (c : RGB) (factor : Q) : RGB :=
  let L := r c * 0.299 + g c * 0.587 + b c * 0.114 in
  mkRGB (Qmin 1 (Qmax 0 (L + (r c - L) * factor)))
        (Qmin 1 (Qmax 0 (L + (g c - L) * factor)))
        (Qmin 1 (Qmax 0 (L + (b c - L) * factor))).

(** The fields of [MoodPaletteSystem]; [fastUntil = None] is [-Infinity]. *)
Record MoodPaletteSystem := mkMood {
  rollEnergy : Q;
  rollCentroid : Q;
  rollOnset : Q;
  rollFlux : Q;
  rollFluxMAD : Q;
  energyFast : Q;
  energySlow : Q;
  fastUntil : option Q;
  target : list RGB;
  current : list RGB
}.

(** The field initialisers of the class. *)
Definition initialMood : MoodPaletteSystem :=
  {| rollEnergy := 0.30; rollCentroid := 0.30; rollOnset := 0.05; rollFlux := 0.03;
     rollFluxMAD := 0;
     energyFast := 0.30; energySlow := 0.30; fastUntil := None;
     target := moodQuad 0.5 0.5; current := moodQuad 0.5 0.5 |}.

(** [colors[i] = v] on an array that has an entry [i]. *)
Fixpoint setAt (i : nat) (v : RGB) (colors : list RGB) : list RGB :=
  match i, colors with
  | O, _ :: rest => v :: rest
  | S i', c :: rest => c :: setAt i' v rest
  | _, [] => []
  end.

(** [for (let i = 0; i < n; i++) current[i] = lerp3(current[i], target[i], a)];
    both arrays have four entries. *)
Fixpoint lerpLoop (n : nat) (cur tgt : list RGB) (a : Q) : list RGB :=
  match n, cur, tgt with
  | S n', c :: cur', t :: tgt' => lerp3 c t a :: lerpLoop n' cur' tgt' a
  | _, _, _ => cur
  end.

(** [wallTimeSec < this.fastUntil]. *)
Definition beforeFastUntil (wallTimeSec : Q) (u : option Q) : bool :=
  match u with
  | Some x => Qltb wallTimeSec x
  | None => false
  end.

(** [update(frame, dt, wallTimeSec)]: the system after the call and the
    boolean returned. *)
Definition update (frame : LiveAnalysisFrame) (dt wallTimeSec : Q) (m : MoodPaletteSystem)
  : MoodPaletteSystem * bool :=
  let energy :=
    Qmin 1 ((subBass frame + bass frame + mids frame * 0.8 + highs frame * 0.4
             + brilliance frame * 0.2) * 0.55) in
  let a5 := Qmin 0.50 (dt / 5.0) in
  let rollEnergy' := rollEnergy m + (energy - rollEnergy m) * a5 in
  let rollCentroid' := rollCentroid m + (centroid frame - rollCentroid m) * a5 in
  let rollOnset' := rollOnset m + (onsetDensity frame - rollOnset m) * a5 in
  let rollFlux' := rollFlux m + (flux frame - rollFlux m) * a5 in
  let a3 := Qmin 0.50 (dt / 3.0) in
  let rollFluxMAD' :=
    rollFluxMAD m + (Qabs (flux frame - rollFlux') - rollFluxMAD m) * a3 in
  let energyFast' := energyFast m + (energy - energyFast m) * Qmin 1 (dt / 0.3) in
  let energySlow' := energySlow m + (energy - energySlow m) * Qmin 1 (dt / 2.5) in
  let sectionDelta := Qabs (energyFast' - energySlow') / Qmax 0.05 energySlow' in
  let sectionChange := Qgtb sectionDelta 0.40 in
  let fastUntil' := if sectionChange then Some (wallTimeSec + 1.5) else fastUntil m in
  let bpmBoost := Qmin 0.25 (Qmax 0 ((bpm frame - 80) / 120)) in
  let e := Qmin 1 (rollEnergy' * 2.2 + bpmBoost) in
  let bright := Qmin 1 (rollCentroid' * 3.0) in
  let colors := moodQuad e bright in
  let satFactor := 0.35 + Qmin 1 (rollOnset' * 8) * 2.05 in
  let colors := map (fun c => satAdjust c satFactor) colors in
  let fluxNorm := Qmin 1 (rollFluxMAD' / Qmax 0.01 rollFlux') in
  let colors :=
    if Qgtb fluxNorm 0.35 then
      let src := nth 0 colors black in
      let comp := mkRGB (1 - r src) (1 - g src) (1 - b src) in
      setAt 3 (lerp3 (nth 3 colors black) comp (((fluxNorm - 0.35) / 0.65) * 0.80)) colors
    else colors in
  let speed := if beforeFastUntil wallTimeSec fastUntil' then 1 / 1.5 else 1 / 8.0 in
  let aBlend := Qmin 1 (dt * speed) in
  ({| rollEnergy := rollEnergy'; rollCentroid := rollCentroid'; rollOnset := rollOnset';
      rollFlux := rollFlux'; rollFluxMAD := rollFluxMAD';
      energyFast := energyFast'; energySlow := energySlow'; fastUntil := fastUntil';
      target := colors;
      current := lerpLoop 4 (current m) colors aBlend |},
   sectionChange).

(** Successive [update] calls, each with its frame, [dt] and wall time. *)
Fixpoint moodUpdates (calls : list (LiveAnalysisFrame * Q * Q)) (m : MoodPaletteSystem)
  : MoodPaletteSystem :=
  match calls with
  | [] => m
  | (frame, dt, t) :: rest => moodUpdates rest (fst (update frame dt t m))
  end.

(** Two colours with the same channels, as numbers. *)
Definition rgbEq (a c : RGB) : Prop := r a == r c /\ g a == g c /\ b a == b c.

(** The luma [satAdjust] computes. *)
Definition luma (c : RGB) : Q := r c * 0.299 + g c * 0.587 + b c * 0.114.

(** Four colours, all in gamut. *)
Definition quadInGamut (colors : list RGB) : Prop :=
  length colors = 4%nat /\ Forall inGamut colors.

End Mood.

(** * Scene: seeds, palettes and the frame loop ([VisualizerScene]) *)

Module Scene.

Import Live Mood.

(** The eight four-colour palettes. *)
Definition PALETTES : list (list RGB) :=
  [ [mkRGB 0.04 0.04 0.20; mkRGB 0.97 0.84 0.06; mkRGB 0.91 0.18 0.08; mkRGB 0.97 0.94 0.87];
    [mkRGB 0.06 0.06 0.06; mkRGB 0.94 0.94 0.94; mkRGB 0.22 0.22 0.22; mkRGB 0.78 0.78 0.78];
    [mkRGB 0.06 0.12 0.42; mkRGB 0.40 0.88 0.20; mkRGB 0.22 0.40 0.08; mkRGB 0.76 0.88 0.96];
    [mkRGB 0.12 0.04 0.30; mkRGB 0.84 0.10 0.55; mkRGB 0.96 0.55 0.08; mkRGB 0.95 0.92 0.84];
    [mkRGB 0.06 0.30 0.32; mkRGB 0.92 0.38 0.28; mkRGB 0.86 0.74 0.52; mkRGB 0.04 0.07 0.10];
    [mkRGB 0.74 0.08 0.08; mkRGB 0.95 0.50 0.08; mkRGB 0.98 0.90 0.10; mkRGB 0.04 0.04 0.04];
    [mkRGB 0.12 0.08 0.55; mkRGB 0.10 0.80 0.90; mkRGB 0.28 0.95 0.65; mkRGB 0.04 0.06 0.20];
    [mkRGB 0.72 0.58 0.10; mkRGB 0.70 0.28 0.10; mkRGB 0.95 0.90 0.78; mkRGB 0.14 0.08 0.04] ].

Definition NUM_COMPS : Z := 10.
Definition BLEND_SECS : Q := 2.0.

(** [SongSeed].  Angles are kept in units of pi/12: the rotations the code
    picks from are 0, pi/12, pi/6 and pi/4. *)
Record SongSeed := mkSeed {
  comp : Z;
  palIdx : Z;
  warpCenters : list (Q * Q);
  gridDensity : Q;
  gridRotation : Q;
  cellShape : Z;
  colorBandDir : Z;
  numWarps : Z;
  mirrorN : Z;
  headPosX : Q
}.

(** [diff(cur, max)] of [makeSeed], [rnd] being what [r()] returns. *)
Definition diff (rnd : Q) (cur max : Z) : Z :=
  let n := Qfloor (rnd * inject_Z max) in
  if (n =? cur)%Z then Z.rem (n + 1) max else n.

(** [pick(arr)] of [makeSeed]: [arr[Math.floor(r() * arr.length)]]. *)
Definition pick {A} (rnd : Q) (arr : list A) (d : A) : A :=
  nth (Z.to_nat (Qfloor (rnd * lengthQ arr))) arr d.

(** [makeSeed(prev, aspect)]; [rnd k] is what the [k]-th call of [r()]
    returns, the calls counted from 0 in the order they are made. *)
Definition makeSeed (rnd : nat -> Q) (prev : option SongSeed) (aspect : Q) : SongSeed :=
  let comp' :=
    match prev with
    | Some p => diff (rnd 0%nat) (comp p) NUM_COMPS
    | None => Qfloor (rnd 0%nat * inject_Z NUM_COMPS)
    end in
  let palIdx' :=
    match prev with
    | Some p => diff (rnd 1%nat) (palIdx p) (Z.of_nat (length PALETTES))
    | None => Qfloor (rnd 1%nat * lengthQ PALETTES)
    end in
  let warpCenters' :=
    map (fun i => ((rnd (2 + 2 * i)%nat * 2 - 1) * 0.65 * aspect,
                   (rnd (3 + 2 * i)%nat * 2 - 1) * 0.65))
        (seq 0 4) in
  let headSide := if Qltb (rnd 10%nat) 0.5 then -1 else 1 in
  let headPosX' := headSide * (0.35 + rnd 11%nat * 0.12) in
  {| comp := comp';
     palIdx := palIdx';
     warpCenters := warpCenters';
     gridDensity := 20 + rnd 12%nat * 40;
     gridRotation := pick (rnd 13%nat) [0; 1; 2; 3] 0;
     cellShape := Qfloor (rnd 14%nat * 4);
     colorBandDir := Qfloor (rnd 15%nat * 4);
     numWarps := if (comp' =? 7)%Z then (2 + Qfloor (rnd 16%nat * 3))%Z
                 else (1 + Qfloor (rnd 16%nat * 2))%Z;
     mirrorN := pick (rnd 17%nat) [4; 5; 6]%Z 0%Z;
     headPosX := headPosX' |}.

(** [PALETTES[idx]]; [None] is [undefined]. *)
Definition paletteAt (idx : Z) : option (list RGB) :=
  if (idx <? 0)%Z then None else nth_error PALETTES (Z.to_nat idx).

(** [stepPalette()]: the four colours written to [smoothPal], from
    [palBlend] and the palette indices of the current and the previous
    seed; [None] is the [TypeError] of reading an entry of [undefined]. *)
Definition stepPalette (t : Q) (curIdx prevIdx : Z) : option (list RGB) :=
  match paletteAt curIdx, paletteAt prevIdx with
  | Some cp, Some pp =>
      Some (map (fun i =>
                   let p := nth i pp black in
                   let c := nth i cp black in
                   mkRGB (r p + (r c - r p) * t) (g p + (g c - g p) * t)
                         (b p + (b c - b p) * t))
                (seq 0 4))
  | _, _ => None
  end.

(** [dt] of [animLoop], from two readings of [performance.now()]. *)
Definition frameDt (now lastFrameTime : Q) : Q := Qmin ((now - lastFrameTime) / 1000) 0.05.

(** [Math.min(1, blend + dt / BLEND_SECS)]: what a frame does to [blend]
    and to [palBlend]. *)
Definition advanceBlend (dt blend : Q) : Q := Qmin 1 (blend + dt / BLEND_SECS).

(** The blend after frames with the given [dt]s. *)
Definition blendAfter (dts : list Q) (blend : Q) : Q :=
  fold_left (fun bl dt => advanceBlend dt bl) dts blend.

(** The vocal silhouette state of the scene. *)
Record Vocal := mkVocal {
  vocalFade : Q;
  vocalFade2 : Q;
  vocalMouth : Q
}.

(** The statements of [animLoop] that move the vocal silhouette. *)
Definition vocalStep (live : LiveAnalysisFrame) (dt : Q) (v : Vocal) : Vocal :=
  let aIn := Qmin 1 (dt / 0.5) in
  let aOut := Qmin 1 (dt / 0.8) in
  let vTarget := if vocalDetected live then 1 else 0 in
  let v2Target := if vocalDetected live && Qgtb (mids live) 0.5 then 1 else 0 in
  let vocalFade' :=
    vocalFade v + (vTarget - vocalFade v) * (if Qgtb vTarget (vocalFade v) then aIn else aOut) in
  let vocalFade2' :=
    vocalFade2 v
    + (v2Target - vocalFade2 v) * (if Qgtb v2Target (vocalFade2 v) then aIn else aOut) in
  let mouthTarget := if vocalDetected live then Qmin 1 (rawMids live * 2.5) else 0 in
  let vocalMouth' := vocalMouth v + (mouthTarget - vocalMouth v) * Qmin 1 (dt / 0.06) in
  {| vocalFade := vocalFade'; vocalFade2 := vocalFade2'; vocalMouth := vocalMouth' |}.

(** The palette of a frame of [animLoop]: [stepPalette()], then
    [moodSystem.update(live, dt, t)] and [moodSystem.modulate(smoothPal)]. *)
Definition paletteFrame (palBlend : Q) (curIdx prevIdx : Z)
    (live : LiveAnalysisFrame) (dt t : Q) (mood : MoodPaletteSystem)
  : option (MoodPaletteSystem * list RGB) :=
  match stepPalette palBlend curIdx prevIdx with
  | Some smoothPal =>
      let mood' := fst (update live dt t mood) in
      match modulate (current mood') smoothPal with
      | Some pal => Some (mood', pal)
      | None => None
      end
  | None => None
  end.

(** The draws of [Math.random()]: numbers of [0, 1). *)
Definition unitDraws (rnd : nat -> Q) : Prop := forall k, 0 <= rnd k < 1.

(** The silhouette strengths are in [0, 1], the second at most the first. *)
Definition vocalOk (v : Vocal) : Prop :=
  0 <= vocalFade2 v /\ vocalFade2 v <= vocalFade v /\ vocalFade v <= 1 /\
  0 <= vocalMouth v <= 1.

(** The fields of a seed are in the ranges the scene and the shader
    expect, for the aspect ratio the seed was made for. *)
Definition seedOk (aspect : Q) (s : SongSeed) : Prop :=
  (0 <= comp s < 10)%Z /\ (0 <= palIdx s < 8)%Z /\
  length (warpCenters s) = 4%nat /\
  Forall (fun w => Qabs (fst w) <= 0.65 * aspect /\ Qabs (snd w) <= 0.65) (warpCenters s) /\
  (20 <= gridDensity s < 60) /\
  In (gridRotation s) [0; 1; 2; 3] /\
  (0 <= cellShape s <= 3)%Z /\ (0 <= colorBandDir s <= 3)%Z /\
  (if (comp s =? 7)%Z then (2 <= numWarps s <= 4)%Z else (1 <= numWarps s <= 2)%Z) /\
  In (mirrorN s) [4; 5; 6]%Z /\
  (0.35 <= Qabs (headPosX s) < 0.47).

End Scene.


(** * Facts about the comparisons *)

Lemma Qltb_lt (x y : Q) : Qltb x y = true <-> x < y.
Proof.
  unfold Qltb. rewrite negb_true_iff.
  split; intro H.
  - apply Qnot_le_lt. intro Hle. apply Qle_bool_iff in Hle. congruence.
  - destruct (Qle_bool y x) eqn:E; [|reflexivity].
    apply Qle_bool_iff in E. exfalso. apply (Qlt_not_le _ _ H E).
Qed.

Lemma Qltb_ge (x y : Q) : Qltb x y = false <-> y <= x.
Proof.
  unfold Qltb. rewrite negb_false_iff. apply Qle_bool_iff.
Qed.

Lemma Qleb_le (x y : Q) : Qleb x y = true <-> x <= y.
Proof. apply Qle_bool_iff. Qed.

Lemma Qleb_gt (x y : Q) : Qleb x y = false <-> y < x.
Proof.
  unfold Qleb. split; intro H.
  - apply Qnot_le_lt. intro Hle. apply Qle_bool_iff in Hle. congruence.
  - destruct (Qle_bool x y) eqn:E; [|reflexivity].
    apply Qle_bool_iff in E. exfalso. apply (Qlt_not_le _ _ H E).
Qed.

Lemma Qgtb_gt (x y : Q) : Qgtb x y = true <-> y < x.
Proof. apply Qltb_lt. Qed.

Lemma Qgtb_le (x y : Q) : Qgtb x y = false <-> x <= y.
Proof. apply Qltb_ge. Qed.

#[export] Instance Qltb_comp : Proper (Qeq ==> Qeq ==> eq) Qltb.
Proof. intros x x' Hx y y' Hy. unfold Qltb. now rewrite Hx, Hy. Qed.

#[export] Instance Qleb_comp' : Proper (Qeq ==> Qeq ==> eq) Qleb.
Proof. intros x x' Hx y y' Hy. unfold Qleb. now rewrite Hx, Hy. Qed.

#[export] Instance Qgtb_comp : Proper (Qeq ==> Qeq ==> eq) Qgtb.
Proof. intros x x' Hx y y' Hy. unfold Qgtb. now rewrite Hx, Hy. Qed.

(** Reflect every boolean comparison of the context and the goal into
    its proposition, so that [lra] can use it. *)
Ltac qbool :=
  repeat match goal with
  | H : Qltb _ _ = true |- _ => apply Qltb_lt in H
  | H : Qltb _ _ = false |- _ => apply Qltb_ge in H
  | H : Qleb _ _ = true |- _ => apply Qleb_le in H
  | H : Qleb _ _ = false |- _ => apply Qleb_gt in H
  | H : Qgtb _ _ = true |- _ => apply Qgtb_gt in H
  | H : Qgtb _ _ = false |- _ => apply Qgtb_le in H
  | |- Qltb _ _ = true => apply Qltb_lt
  | |- Qltb _ _ = false => apply Qltb_ge
  | |- Qleb _ _ = true => apply Qleb_le
  | |- Qleb _ _ = false => apply Qleb_gt
  | |- Qgtb _ _ = true => apply Qgtb_gt
  | |- Qgtb _ _ = false => apply Qgtb_le
  end.

(** * Rounding to binary64 *)

Module DoubleProofs.

Import Double.

Lemma pow2_pos (e : Z) : 0 < 2 ^ e.
Proof. apply Qpower_0_lt. reflexivity. Qed.

Lemma pow2_le (a c : Z) : (a <= c)%Z -> 2 ^ a <= 2 ^ c.
Proof. intros H. apply Qpower_le_compat_l; [exact H|discriminate]. Qed.

Lemma pow2_lt (a c : Z) : (a < c)%Z -> 2 ^ a < 2 ^ c.
Proof. intros H. apply Qpower_lt_compat_l; [exact H|reflexivity]. Qed.

Lemma pow2_plus (a c : Z) : 2 ^ (a + c) == 2 ^ a * 2 ^ c.
Proof. apply Qpower_plus. discriminate. Qed.

Lemma pow2_succ (a : Z) : 2 ^ (a + 1) == 2 * 2 ^ a.
Proof. rewrite pow2_plus. change (2 ^ 1) with 2. ring. Qed.

Lemma pow2_Z (e : Z) : (0 <= e)%Z -> 2 ^ e == inject_Z (2 ^ e).
Proof. intros H. now rewrite Zpower_Qpower. Qed.

(** The binade is the integer part of the binary logarithm. *)
Lemma binade_spec (x : Q) : 0 < x -> 2 ^ binade x <= x /\ x < 2 ^ (binade x + 1).
Proof.
  intros Hx. destruct x as [n d]. unfold binade. cbn [Qnum Qden].
  assert (Hn : (0 < n)%Z) by (unfold Qlt in Hx; simpl in Hx; lia).
  set (a := Z.log2 n). set (c := Z.log2 (Z.pos d)).
  destruct (Z.log2_spec n Hn) as [Ha1 Ha2]. fold a in Ha1, Ha2.
  destruct (Z.log2_spec (Z.pos d) (Pos2Z.is_pos d)) as [Hc1 Hc2]. fold c in Hc1, Hc2.
  assert (Ha0 : (0 <= a)%Z) by apply Z.log2_nonneg.
  assert (Hc0 : (0 <= c)%Z) by apply Z.log2_nonneg.
  assert (HA : 2 ^ a == inject_Z (2 ^ a)) by now apply pow2_Z.
  assert (HC : 2 ^ c == inject_Z (2 ^ c)) by now apply pow2_Z.
  assert (Hk : 2 ^ (a - c) * 2 ^ c == 2 ^ a).
  { rewrite <- pow2_plus. now replace (a - c + c)%Z with a by lia. }
  assert (Hx' : (n # d) * inject_Z (Z.pos d) == inject_Z n).
  { unfold Qeq, Qmult, inject_Z. simpl. lia. }
  assert (Q1 : inject_Z (2 ^ a) <= inject_Z n) by now rewrite <- Zle_Qle.
  assert (Q2 : inject_Z n < inject_Z (2 ^ (a + 1))) by now rewrite <- Zlt_Qlt.
  assert (Q3 : inject_Z (2 ^ c) <= inject_Z (Z.pos d)) by now rewrite <- Zle_Qle.
  assert (Q4 : inject_Z (Z.pos d) < inject_Z (2 ^ (c + 1))) by now rewrite <- Zlt_Qlt.
  rewrite <- pow2_Z in Q2, Q4 by lia. rewrite <- HA in Q1. rewrite <- HC in Q3.
  rewrite pow2_succ in Q2, Q4.
  pose proof (pow2_pos (a - c)) as Pk. pose proof (pow2_pos c) as Pc.
  assert (Pd : 0 < inject_Z (Z.pos d)) by (unfold Qlt; simpl; lia).
  set (D := inject_Z (Z.pos d)) in *. set (N := inject_Z n) in *.
  set (X := n # d) in *. set (K := 2 ^ (a - c)) in *. set (C := 2 ^ c) in *.
  set (A := 2 ^ a) in *.
  destruct (Qle_bool K X) eqn:E.
  - apply Qle_bool_iff in E. split; [exact E|].
    rewrite pow2_succ. fold K.
    apply Qnot_le_lt. intros Hle.
    assert (2 * K * D <= X * D) by (apply Qmult_le_compat_r; lra).
    assert (K * C <= K * D) by (apply Qmult_le_l; lra).
    lra.
  - assert (Hlt : X < K).
    { apply Qnot_le_lt. intros Hle. apply Qle_bool_iff in Hle. congruence. }
    replace (a - c - 1 + 1)%Z with (a - c)%Z by lia. split; [|exact Hlt].
    assert (Hh : 2 * 2 ^ (a - c - 1) == K).
    { rewrite <- pow2_succ. now replace (a - c - 1 + 1)%Z with (a - c)%Z by lia. }
    apply Qnot_lt_le. intros Hlt'.
    assert (X * D < 2 ^ (a - c - 1) * D) by (apply Qmult_lt_compat_r; lra).
    assert (K * D < K * (2 * C)) by (apply Qmult_lt_l; lra).
    nra.
Qed.

Lemma binade_unique (x : Q) (e : Z) : 2 ^ e <= x -> x < 2 ^ (e + 1) -> binade x = e.
Proof.
  intros H1 H2.
  assert (Hx : 0 < x) by (pose proof (pow2_pos e); lra).
  destruct (binade_spec x Hx) as [B1 B2].
  destruct (Z.lt_trichotomy (binade x) e) as [Hlt|[Heq|Hgt]]; [exfalso|exact Heq|exfalso].
  - pose proof (pow2_le (binade x + 1) e ltac:(lia)). lra.
  - pose proof (pow2_le (e + 1) (binade x) ltac:(lia)). lra.
Qed.

Lemma binade_comp (x y : Q) : 0 < x -> x == y -> binade x = binade y.
Proof.
  intros Hx E. destruct (binade_spec x Hx) as [B1 B2].
  symmetry. apply binade_unique; lra.
Qed.

Lemma binade_mono (x y : Q) : 0 < x -> x <= y -> (binade x <= binade y)%Z.
Proof.
  intros Hx Hle.
  destruct (binade_spec x Hx) as [B1 B2].
  destruct (binade_spec y ltac:(lra)) as [C1 C2].
  destruct (Z_le_gt_dec (binade x) (binade y)) as [H|H]; [exact H|exfalso].
  pose proof (pow2_le (binade y + 1) (binade x) ltac:(lia)). lra.
Qed.

Lemma ulpExp_mono (x y : Q) : 0 < x -> x <= y -> (ulpExp x <= ulpExp y)%Z.
Proof. intros Hx Hle. unfold ulpExp. pose proof (binade_mono x y Hx Hle). lia. Qed.

Lemma ulpExp_comp (x y : Q) : 0 < x -> x == y -> ulpExp x = ulpExp y.
Proof. intros Hx E. unfold ulpExp. now rewrite (binade_comp x y Hx E). Qed.

#[export] Instance roundHalfEven_comp : Proper (Qeq ==> eq) roundHalfEven.
Proof.
  intros x y E. unfold roundHalfEven. rewrite (Qfloor_comp x y E).
  now rewrite (Qcompare_comp (x - inject_Z (Qfloor y)) (y - inject_Z (Qfloor y))
                 ltac:(now rewrite E) (1 # 2) (1 # 2) ltac:(reflexivity)).
Qed.

Lemma roundHalfEven_bounds (x : Q) :
  (Qfloor x <= roundHalfEven x <= Qfloor x + 1)%Z.
Proof.
  unfold roundHalfEven.
  destruct (Qcompare _ _); [destruct (Z.even _)| |]; lia.
Qed.

Lemma roundHalfEven_Z (n : Z) : roundHalfEven (inject_Z n) = n.
Proof.
  unfold roundHalfEven. rewrite Qfloor_Z.
  destruct (Qcompare_spec (inject_Z n - inject_Z n) (1 # 2)) as [H|H|H];
    [exfalso; lra|reflexivity|exfalso; lra].
Qed.

Lemma roundHalfEven_mono (x y : Q) : x <= y -> (roundHalfEven x <= roundHalfEven y)%Z.
Proof.
  intros Hle. pose proof (Qfloor_resp_le x y Hle) as Hf.
  pose proof (roundHalfEven_bounds x) as Bx. pose proof (roundHalfEven_bounds y) as By.
  destruct (Z.eq_dec (Qfloor x) (Qfloor y)) as [E|NE]; [|lia].
  unfold roundHalfEven. rewrite E.
  destruct (Qcompare_spec (x - inject_Z (Qfloor y)) (1 # 2)) as [Hx|Hx|Hx];
    destruct (Qcompare_spec (y - inject_Z (Qfloor y)) (1 # 2)) as [Hy|Hy|Hy];
    try destruct (Z.even (Qfloor y)); try lia; exfalso; lra.
Qed.

Lemma roundTo_comp (q : Z) (x y : Q) : x == y -> roundTo q x == roundTo q y.
Proof. intros E. unfold roundTo. now rewrite E. Qed.

(** A multiple of [2^q] is its own rounding, and the rounding of [x] does
    not cross a multiple of [2^q]. *)
Lemma roundTo_grid (q m : Z) : roundTo q (inject_Z m * 2 ^ q) == inject_Z m * 2 ^ q.
Proof.
  unfold roundTo.
  assert (E : inject_Z m * 2 ^ q / 2 ^ q == inject_Z m).
  { field. pose proof (pow2_pos q). lra. }
  now rewrite E, roundHalfEven_Z.
Qed.

Lemma roundTo_mono (q : Z) (x y : Q) : x <= y -> roundTo q x <= roundTo q y.
Proof.
  intros Hle. unfold roundTo. pose proof (pow2_pos q) as P.
  apply Qmult_le_compat_r; [|lra].
  rewrite <- Zle_Qle. apply roundHalfEven_mono.
  apply Qmult_le_compat_r; [exact Hle|]. apply Qlt_le_weak. now apply Qinv_lt_0_compat.
Qed.

Lemma roundTo_le_grid (q m : Z) (x : Q) :
  x <= inject_Z m * 2 ^ q -> roundTo q x <= inject_Z m * 2 ^ q.
Proof. intros H. rewrite <- (roundTo_grid q m). now apply roundTo_mono. Qed.

Lemma roundTo_ge_grid (q m : Z) (x : Q) :
  inject_Z m * 2 ^ q <= x -> inject_Z m * 2 ^ q <= roundTo q x.
Proof. intros H. rewrite <- (roundTo_grid q m). now apply roundTo_mono. Qed.

(** A power of two at or above the unit is a multiple of it. *)
Lemma pow2_grid (q e : Z) : (q <= e)%Z -> 2 ^ e == inject_Z (2 ^ (e - q)) * 2 ^ q.
Proof.
  intros H. rewrite <- pow2_Z by lia. rewrite <- pow2_plus.
  now replace (e - q + q)%Z with e by lia.
Qed.

Lemma roundPos_comp (x y : Q) : 0 < x -> x == y -> roundPos x == roundPos y.
Proof.
  intros Hx E. unfold roundPos. rewrite (ulpExp_comp x y Hx E). now apply roundTo_comp.
Qed.

Lemma roundPos_nonneg (x : Q) : 0 < x -> 0 <= roundPos x.
Proof.
  intros Hx. unfold roundPos.
  pose proof (roundTo_ge_grid (ulpExp x) 0 x) as H.
  change (inject_Z 0) with 0 in H. rewrite Qmult_0_l in H. apply H. lra.
Qed.

(** The rounding of [x > 0] stays in the closed binade of [x]. *)
Lemma roundPos_upper (x : Q) (e : Z) :
  0 < x -> (binade x < e)%Z -> (ulpExp x <= e)%Z -> roundPos x <= 2 ^ e.
Proof.
  intros Hx He Hq. unfold roundPos.
  destruct (binade_spec x Hx) as [_ B2].
  rewrite (pow2_grid (ulpExp x) e Hq). apply roundTo_le_grid.
  rewrite <- (pow2_grid (ulpExp x) e Hq).
  pose proof (pow2_le (binade x + 1) e ltac:(lia)). lra.
Qed.

Lemma roundPos_lower (x : Q) :
  0 < x -> (-1022 <= binade x)%Z -> 2 ^ binade x <= roundPos x.
Proof.
  intros Hx He. unfold roundPos.
  destruct (binade_spec x Hx) as [B1 _].
  assert (Hq : (ulpExp x <= binade x)%Z) by (unfold ulpExp; lia).
  rewrite (pow2_grid (ulpExp x) (binade x) Hq). apply roundTo_ge_grid.
  now rewrite <- (pow2_grid (ulpExp x) (binade x) Hq).
Qed.

Lemma roundPos_mono (x y : Q) : 0 < x -> x <= y -> roundPos x <= roundPos y.
Proof.
  intros Hx Hle.
  pose proof (ulpExp_mono x y Hx Hle) as Hq.
  destruct (Z.eq_dec (ulpExp x) (ulpExp y)) as [E|NE].
  - unfold roundPos. rewrite E. now apply roundTo_mono.
  - assert (Hb : (binade x < binade y)%Z /\ (-1022 <= binade y)%Z)
      by (unfold ulpExp in *; lia).
    destruct Hb as [Hb Hn].
    eapply Qle_trans;
      [apply (roundPos_upper x (binade y) Hx Hb); unfold ulpExp in *; lia|].
    apply roundPos_lower; [lra|exact Hn].
Qed.

#[export] Instance fl_comp : Proper (Qeq ==> Qeq) fl.
Proof.
  intros x y E. unfold fl. rewrite <- (Qcompare_comp x y E 0 0 ltac:(reflexivity)).
  destruct (Qcompare_spec x 0) as [H|H|H]; [reflexivity| |].
  - apply Qopp_comp. apply roundPos_comp; [lra|now rewrite E].
  - apply roundPos_comp; [lra|exact E].
Qed.

Lemma fl_pos (x : Q) : 0 < x -> fl x = roundPos x.
Proof.
  intros H. unfold fl.
  destruct (Qcompare_spec x 0) as [H'|H'|H']; [exfalso; lra|exfalso; lra|reflexivity].
Qed.

Lemma fl_neg (x : Q) : x < 0 -> fl x = - roundPos (- x).
Proof.
  intros H. unfold fl.
  destruct (Qcompare_spec x 0) as [H'|H'|H']; [exfalso; lra|reflexivity|exfalso; lra].
Qed.

Lemma fl_zero (x : Q) : x == 0 -> fl x = 0.
Proof.
  intros H. unfold fl.
  destruct (Qcompare_spec x 0) as [H'|H'|H']; [reflexivity|exfalso; lra|exfalso; lra].
Qed.

Lemma fl_sign (x : Q) : (0 <= x -> 0 <= fl x) /\ (x <= 0 -> fl x <= 0).
Proof.
  destruct (Qcompare_spec x 0) as [H|H|H].
  - rewrite (fl_zero x H). split; intros _; apply Qle_refl.
  - rewrite (fl_neg x H). pose proof (roundPos_nonneg (- x) ltac:(lra)). split; intros; lra.
  - rewrite (fl_pos x H). pose proof (roundPos_nonneg x H). split; intros; lra.
Qed.

(** Rounding keeps the order. *)
Theorem fl_mono (x y : Q) : x <= y -> fl x <= fl y.
Proof.
  intros Hle.
  destruct (Qlt_le_dec 0 x) as [Hx|Hx].
  - rewrite (fl_pos x Hx), (fl_pos y ltac:(lra)). now apply roundPos_mono.
  - destruct (Qlt_le_dec y 0) as [Hy|Hy].
    + rewrite (fl_neg x ltac:(lra)), (fl_neg y Hy).
      pose proof (roundPos_mono (- y) (- x) ltac:(lra) ltac:(lra)). lra.
    + pose proof (proj2 (fl_sign x) Hx). pose proof (proj1 (fl_sign y) Hy). lra.
Qed.

(** A positive multiple of [2^q], [q >= -1074], of at most 53 bits or
    equal to [2^(q+53)] is a double. *)
Lemma roundPos_fixed (q m : Z) :
  (-1074 <= q)%Z -> (0 < m)%Z -> inject_Z m * 2 ^ q <= 2 ^ (q + 53) ->
  roundPos (inject_Z m * 2 ^ q) == inject_Z m * 2 ^ q.
Proof.
  intros Hq Hm Hub. set (y := inject_Z m * 2 ^ q) in *.
  assert (Hy : 0 < y).
  { unfold y. apply Qmult_lt_0_compat; [|apply pow2_pos]. now rewrite <- (Zlt_Qlt 0). }
  destruct (binade_spec y Hy) as [B1 B2].
  assert (He : (binade y <= q + 53)%Z).
  { destruct (Z_le_gt_dec (binade y) (q + 53)) as [H|H]; [exact H|exfalso].
    pose proof (pow2_lt (q + 53) (binade y) ltac:(lia)). lra. }
  unfold roundPos.
  destruct (Z_le_gt_dec (ulpExp y) q) as [Hle|Hgt].
  - assert (E : y == inject_Z (m * 2 ^ (q - ulpExp y)) * 2 ^ ulpExp y).
    { rewrite inject_Z_mult, <- (pow2_Z (q - ulpExp y)) by lia.
      rewrite <- Qmult_assoc, <- pow2_plus.
      now replace (q - ulpExp y + ulpExp y)%Z with q by lia. }
    rewrite (roundTo_comp _ _ _ E), roundTo_grid. symmetry. exact E.
  - assert (Hb : binade y = (q + 53)%Z) by (unfold ulpExp in Hgt; lia).
    assert (Eq' : ulpExp y = (q + 1)%Z) by (unfold ulpExp; lia).
    assert (E : y == 2 ^ (q + 53)) by (rewrite Hb in B1; lra).
    pose proof (pow2_grid (q + 1) (q + 53) ltac:(lia)) as G.
    assert (E' : y == inject_Z (2 ^ (q + 53 - (q + 1))) * 2 ^ (q + 1))
      by (rewrite E; exact G).
    rewrite Eq', (roundTo_comp _ _ _ E'), roundTo_grid. symmetry. exact E'.
Qed.

Lemma roundPos_idem (x : Q) : 0 < x -> 0 < roundPos x -> roundPos (roundPos x) == roundPos x.
Proof.
  intros Hx Hy.
  assert (Hb : (binade x < ulpExp x + 53)%Z) by (unfold ulpExp; lia).
  pose proof (roundPos_upper x (ulpExp x + 53) Hx Hb ltac:(lia)) as Hub.
  assert (Hq : (-1074 <= ulpExp x)%Z) by (unfold ulpExp; lia).
  unfold roundPos at 2 3. unfold roundPos in Hy, Hub. unfold roundTo in *.
  set (q := ulpExp x) in *. set (m := roundHalfEven (x / 2 ^ q)) in *.
  assert (Hm : (0 < m)%Z).
  { pose proof (pow2_pos q). rewrite (Zlt_Qlt 0).
    apply Qnot_le_lt. intros Hle. change (inject_Z 0) with 0 in Hle.
    assert (inject_Z m * 2 ^ q <= 0 * 2 ^ q) by (apply Qmult_le_compat_r; lra). lra. }
  now apply roundPos_fixed.
Qed.

(** Rounding a double gives the double back. *)
Theorem fl_idem (x : Q) : fl (fl x) == fl x.
Proof.
  destruct (Qcompare_spec x 0) as [H|H|H].
  - rewrite (fl_zero x H). now rewrite (fl_zero 0).
  - rewrite (fl_neg x H).
    pose proof (roundPos_nonneg (- x) ltac:(lra)) as Hn.
    destruct (Qle_lt_or_eq _ _ Hn) as [Hp|Hz].
    + rewrite (fl_neg (- roundPos (- x)) ltac:(lra)).
      rewrite (roundPos_comp (- - roundPos (- x)) (roundPos (- x)) ltac:(lra) ltac:(ring)).
      now rewrite roundPos_idem by lra.
    + rewrite (fl_zero (- roundPos (- x))) by lra. lra.
  - rewrite (fl_pos x H).
    pose proof (roundPos_nonneg x H) as Hn.
    destruct (Qle_lt_or_eq _ _ Hn) as [Hp|Hz].
    + rewrite (fl_pos (roundPos x) Hp). now apply roundPos_idem.
    + rewrite (fl_zero (roundPos x)) by lra. lra.
Qed.

(** Rounding moves a number by at most half a unit in the last place:
    a relative error of [2^-53], or [2^-1075] among the subnormals. *)
Lemma roundHalfEven_near (t : Q) : Qabs (inject_Z (roundHalfEven t) - t) <= 1 # 2.
Proof.
  pose proof (Qfloor_le t) as H1. pose proof (Qlt_floor t) as H2.
  rewrite inject_Z_plus in H2. change (inject_Z 1) with 1 in H2.
  unfold roundHalfEven.
  destruct (Qcompare_spec (t - inject_Z (Qfloor t)) (1 # 2)) as [H|H|H].
  - destruct (Z.even (Qfloor t)).
    + apply Qabs_Qle_condition. split; lra.
    + rewrite inject_Z_plus. change (inject_Z 1) with 1.
      apply Qabs_Qle_condition. split; lra.
  - apply Qabs_Qle_condition. split; lra.
  - rewrite inject_Z_plus. change (inject_Z 1) with 1.
    apply Qabs_Qle_condition. split; lra.
Qed.

Lemma roundTo_near (q : Z) (x : Q) : Qabs (roundTo q x - x) <= (1 # 2) * 2 ^ q.
Proof.
  pose proof (pow2_pos q) as P. unfold roundTo.
  assert (E : inject_Z (roundHalfEven (x / 2 ^ q)) * 2 ^ q - x
              == (inject_Z (roundHalfEven (x / 2 ^ q)) - x / 2 ^ q) * 2 ^ q)
    by (field; lra).
  rewrite E, Qabs_Qmult, (Qabs_pos (2 ^ q)) by lra.
  apply Qmult_le_compat_r; [apply roundHalfEven_near|lra].
Qed.

Lemma roundPos_error (x : Q) :
  0 < x -> Qabs (roundPos x - x) <= 2 ^ (-53) * x + 2 ^ (-1075).
Proof.
  intros Hx. destruct (binade_spec x Hx) as [B1 _].
  pose proof (pow2_pos (-1075)) as P1. pose proof (pow2_pos (-53)) as P2.
  eapply Qle_trans; [apply roundTo_near|].
  assert (Hhalf : forall e, (1 # 2) * 2 ^ e == 2 ^ (e - 1)).
  { intros e. replace e with (e - 1 + 1)%Z at 1 by lia. rewrite pow2_succ. field. }
  rewrite Hhalf.
  unfold ulpExp. destruct (Z.max_spec (binade x - 52) (-1074)) as [[_ ->]|[_ ->]].
  - change (-1074 - 1)%Z with (-1075)%Z.
    assert (0 <= 2 ^ (-53) * x) by (apply Qmult_le_0_compat; lra). lra.
  - replace (binade x - 52 - 1)%Z with (-53 + binade x)%Z by lia.
    rewrite pow2_plus.
    assert (2 ^ (-53) * 2 ^ binade x <= 2 ^ (-53) * x) by (apply Qmult_le_l; lra).
    lra.
Qed.

Theorem fl_error (x : Q) : Qabs (fl x - x) <= 2 ^ (-53) * Qabs x + 2 ^ (-1075).
Proof.
  pose proof (pow2_pos (-1075)) as P1.
  destruct (Qcompare_spec x 0) as [H|H|H].
  - rewrite (fl_zero x H), H. setoid_replace (0 - 0) with 0 by ring.
    change (Qabs 0) with 0. lra.
  - rewrite (fl_neg x H), (Qabs_neg x) by lra.
    pose proof (roundPos_error (- x) ltac:(lra)) as E.
    setoid_replace (- roundPos (- x) - x) with (- (roundPos (- x) - - x)) by ring.
    now rewrite Qabs_opp.
  - rewrite (fl_pos x H), (Qabs_pos x) by lra. now apply roundPos_error.
Qed.

End DoubleProofs.

(** * The structural event synchronizer *)

Module BeatSyncProofs.

Import Double DoubleProofs BeatSync.

(** The seconds the hook computes are doubles, and its two subtractions
    do not move up. *)
Lemma curSecOf_double (pos : Q) : isDouble (curSecOf pos).
Proof. apply fl_idem. Qed.

Lemma seek_limit (p : Q) : isDouble p -> fl (p - 0.5) <= p.
Proof.
  intros Hp. eapply Qle_trans; [apply (fl_mono (p - 0.5) p); lra|].
  unfold isDouble in Hp. rewrite Hp. apply Qle_refl.
Qed.

Lemma literal_0_2 : 0 < fl 0.2.
Proof. vm_compute. reflexivity. Qed.

Lemma first_lower (pos : Q) : fl (curSecOf pos - fl 0.2) <= curSecOf pos.
Proof.
  pose proof literal_0_2 as H02.
  eapply Qle_trans; [apply (fl_mono (curSecOf pos - fl 0.2) (curSecOf pos)); lra|].
  pose proof (curSecOf_double pos) as Hd. unfold isDouble in Hd. rewrite Hd. apply Qle_refl.
Qed.

Lemma curSecOf_mono (p p2 : Q) : p <= p2 -> curSecOf p <= curSecOf p2.
Proof.
  intros H. apply fl_mono. unfold Qdiv. apply Qmult_le_compat_r; [exact H|discriminate].
Qed.

Lemma prevSecOf_double (c : SyncCursor) (pos : Q) : cursorOk c -> isDouble (prevSecOf c pos).
Proof.
  unfold cursorOk, prevSecOf. destruct (prevPosition c); [tauto|].
  intros _. apply fl_idem.
Qed.

Lemma prevSecOf_le (c : SyncCursor) (pos : Q) :
  prevPosition c = None -> prevSecOf c pos <= curSecOf pos.
Proof. intros E. unfold prevSecOf. rewrite E. apply first_lower. Qed.

Section Window.

Context {T : Type} `{HasStart T}.

Lemma inWindow_iff (prevSec curSec : Q) (x : T) :
  inWindow prevSec curSec x = true <-> prevSec < start x /\ start x <= curSec.
Proof.
  unfold inWindow. rewrite andb_true_iff, Qgtb_gt, Qleb_le. tauto.
Qed.

(** The loop of [eventsInWindow] returns the entries of the window, each
    with its index in the array. *)
Lemma eventsFrom_In (arr : list T) (prevSec curSec : Q) :
  forall (i : Z) (x : T) (j : Z),
    In (x, j) (eventsFrom i arr prevSec curSec) <->
    (i <= j)%Z /\ nth_error arr (Z.to_nat (j - i)) = Some x /\
    prevSec < start x /\ start x <= curSec.
Proof.
  induction arr as [|y rest IH]; intros i x j; simpl.
  - split; [tauto|]. intros (_ & Hn & _). now destruct (Z.to_nat (j - i)).
  - assert (Hrest : In (x, j) (eventsFrom (i + 1) rest prevSec curSec) <->
                    (i < j)%Z /\ nth_error (y :: rest) (Z.to_nat (j - i)) = Some x /\
                    prevSec < start x /\ start x <= curSec).
    { rewrite IH. split.
      - intros (Hle & Hn & Hw). split; [lia|]. split; [|exact Hw].
        replace (Z.to_nat (j - i)) with (S (Z.to_nat (j - (i + 1)))) by lia. exact Hn.
      - intros (Hlt & Hn & Hw). split; [lia|]. split; [|exact Hw].
        replace (Z.to_nat (j - i)) with (S (Z.to_nat (j - (i + 1)))) in Hn by lia.
        exact Hn. }
    destruct (inWindow prevSec curSec y) eqn:E.
    + simpl. rewrite Hrest. split.
      * intros [Heq | (Hlt & Hn & Hw)].
        -- inversion Heq; subst. split; [lia|]. rewrite Z.sub_diag. simpl.
           split; [reflexivity|]. now apply inWindow_iff.
        -- split; [lia|]. now split.
      * intros (Hle & Hn & Hw).
        destruct (Z.eq_dec i j) as [->|Hne].
        -- left. rewrite Z.sub_diag in Hn. simpl in Hn. congruence.
        -- right. split; [lia|]. now split.
    + rewrite Hrest. split.
      * intros (Hlt & Hn & Hw). split; [lia|]. now split.
      * intros (Hle & Hn & Hw).
        destruct (Z.eq_dec i j) as [->|Hne].
        -- rewrite Z.sub_diag in Hn. simpl in Hn. inversion Hn; subst.
           apply inWindow_iff in Hw. congruence.
        -- split; [lia|]. now split.
Qed.

Lemma eventsInWindow_In (arr : list T) (prevSec curSec : Q) (x : T) (j : Z) :
  In (x, j) (eventsInWindow arr prevSec curSec) <->
  (0 <= j)%Z /\ nth_error arr (Z.to_nat j) = Some x /\
  prevSec < start x /\ start x <= curSec.
Proof.
  unfold eventsInWindow. rewrite eventsFrom_In. now rewrite Z.sub_0_r.
Qed.

(** The indices come out in increasing order. *)
Lemma eventsFrom_sorted (arr : list T) (prevSec curSec : Q) :
  forall i, StronglySorted Z.lt (map snd (eventsFrom i arr prevSec curSec)).
Proof.
  induction arr as [|y rest IH]; intros i; simpl; [constructor|].
  destruct (inWindow prevSec curSec y); [|apply IH].
  simpl. constructor; [apply IH|].
  apply Forall_forall. intros j Hj. apply in_map_iff in Hj.
  destruct Hj as ([x j'] & Hj' & Hin). simpl in Hj'. subst j'.
  apply eventsFrom_In in Hin. lia.
Qed.

Lemma fireLoop_select (cb : T -> Z -> Fired) (sel : Fired -> list Z) :
  (forall x i, sel (cb x i) = [i]) ->
  forall evs last, flat_map sel (snd (fireLoop cb evs last)) = firedIdx evs last.
Proof.
  intros Hsel. induction evs as [|[x i] rest IH]; intros last; simpl; [reflexivity|].
  destruct (negb (i =? last)%Z).
  - specialize (IH i). destruct (fireLoop cb rest i) as [l out]. simpl in *.
    now rewrite Hsel, IH.
  - apply IH.
Qed.

Lemma fireLoop_ignore (cb : T -> Z -> Fired) (sel : Fired -> list Z) :
  (forall x i, sel (cb x i) = []) ->
  forall evs last, flat_map sel (snd (fireLoop cb evs last)) = [].
Proof.
  intros Hsel. induction evs as [|[x i] rest IH]; intros last; simpl; [reflexivity|].
  destruct (negb (i =? last)%Z).
  - specialize (IH i). destruct (fireLoop cb rest i) as [l out]. simpl in *.
    now rewrite Hsel, IH.
  - apply IH.
Qed.

(** The last-fired index after the loop does not depend on the callback. *)
Lemma fireLoop_last (cb cb' : T -> Z -> Fired) :
  forall evs last, fst (fireLoop cb evs last) = fst (fireLoop cb' evs last).
Proof.
  induction evs as [|[x i] rest IH]; intros last; simpl; [reflexivity|].
  destruct (negb (i =? last)%Z).
  - specialize (IH i). destruct (fireLoop cb rest i), (fireLoop cb' rest i). exact IH.
  - apply IH.
Qed.

Lemma dropHeadIf_above (last : Z) (l : list Z) :
  Forall (Z.lt last) l -> dropHeadIf last l = l.
Proof.
  destruct l as [|i rest]; simpl; [reflexivity|].
  intros Hall. inversion Hall; subst.
  destruct (Z.eqb_spec i last); [lia|reflexivity].
Qed.

Lemma firedIdx_sorted (evs : list (T * Z)) :
  StronglySorted Z.lt (map snd evs) ->
  forall last, firedIdx evs last = dropHeadIf last (map snd evs).
Proof.
  induction evs as [|[x i] rest IH]; intros Hs last; simpl; [reflexivity|].
  simpl in Hs. inversion Hs as [|? ? Hs' Hall]; subst.
  destruct (Z.eqb_spec i last) as [->|Hne]; simpl.
  - rewrite IH by assumption. now apply dropHeadIf_above.
  - rewrite IH by assumption. f_equal. now apply dropHeadIf_above.
Qed.

Lemma dropHeadIf_sorted (last : Z) (l : list Z) :
  StronglySorted Z.lt l -> StronglySorted Z.lt (dropHeadIf last l).
Proof.
  destruct l as [|i rest]; simpl; [auto|].
  intros Hs. destruct (i =? last)%Z; [|exact Hs]. now inversion Hs.
Qed.

Lemma dropHeadIf_In (last : Z) (l : list Z) :
  StronglySorted Z.lt l ->
  forall i, In i (dropHeadIf last l) <->
            In i l /\ (i <> last \/ exists j, (j < i)%Z /\ In j l).
Proof.
  destruct l as [|k rest]; simpl; [tauto|].
  intros Hs i. inversion Hs as [|? ? Hs' Hall]; subst.
  rewrite Forall_forall in Hall.
  destruct (Z.eqb_spec k last) as [->|Hne]; simpl.
  - split.
    + intros Hin. split; [now right|]. right. exists last. split; [now apply Hall|now left].
    + intros [[->|Hin] Hor]; [|exact Hin].
      destruct Hor as [Hne|(j & Hlt & [->|Hj])]; [congruence|lia|].
      apply Hall in Hj. lia.
  - split.
    + intros [->|Hin].
      * split; [now left|now left].
      * split; [now right|]. right. exists k. split; [now apply Hall|now left].
    + tauto.
Qed.

(** The indices fired from the window of a table are as [FiresExactly] says. *)
Lemma firedIdx_FiresExactly (arr : list T) (prevSec curSec : Q) (last : Z) :
  FiresExactly arr prevSec curSec last
    (firedIdx (eventsInWindow arr prevSec curSec) last).
Proof.
  assert (Hs : StronglySorted Z.lt (map snd (eventsInWindow arr prevSec curSec)))
    by apply eventsFrom_sorted.
  assert (Hin : forall i, In i (map snd (eventsInWindow arr prevSec curSec)) <->
                          inWindowAt arr prevSec curSec i).
  { intros i. rewrite in_map_iff. unfold inWindowAt. split.
    - intros ([x j] & Hj & Hx). simpl in Hj. subst j.
      apply eventsInWindow_In in Hx. exists x. tauto.
    - intros (x & Hx). exists (x, i). split; [reflexivity|].
      apply eventsInWindow_In. tauto. }
  rewrite firedIdx_sorted by exact Hs. split.
  - now apply dropHeadIf_sorted.
  - intros i. rewrite dropHeadIf_In by exact Hs. rewrite Hin.
    split; intros [Hw Hor]; (split; [exact Hw|]);
      (destruct Hor as [Hne|(j & Hlt & Hj)]; [now left|right; exists j; split; [exact Hlt|]]);
      now apply Hin.
Qed.

(** A seek leaves the window empty. *)
Lemma seek_window_empty (arr : list T) (prevSec curSec : Q) (last : Z) :
  isDouble prevSec -> curSec < fl (prevSec - 0.5) -> FiresExactly arr prevSec curSec last [].
Proof.
  intros Hd Hseek. pose proof (seek_limit prevSec Hd) as Hlim.
  split; [constructor|].
  intros i. simpl. split; [tauto|].
  intros [(x & _ & _ & Hlo & Hhi) _]. lra.
Qed.

End Window.

(** A call while playing: a seek, or the three dispatch loops. *)
Lemma syncEffect_playing (a : AudioAnalysis) (pos : Q) (c : SyncCursor) :
  syncEffect (Some a) pos true c =
  let curSec := curSecOf pos in
  let prevSec := prevSecOf c pos in
  if Qltb curSec (fl (prevSec - 0.5))
  then (mkCursor (Some curSec) (lastBeat c) (lastBar c) (lastSection c), [])
  else
    (mkCursor (Some curSec)
       (fst (fireLoop beatCb (eventsInWindow (beats a) prevSec curSec) (lastBeat c)))
       (fst (fireLoop barCb (eventsInWindow (bars a) prevSec curSec) (lastBar c)))
       (fst (fireLoop sectionCb (eventsInWindow (sections a) prevSec curSec) (lastSection c))),
     snd (fireLoop beatCb (eventsInWindow (beats a) prevSec curSec) (lastBeat c))
     ++ snd (fireLoop barCb (eventsInWindow (bars a) prevSec curSec) (lastBar c))
     ++ snd (fireLoop sectionCb (eventsInWindow (sections a) prevSec curSec) (lastSection c))).
Proof.
  unfold syncEffect, prevSecOf. cbv zeta. simpl negb. cbv iota.
  destruct (Qltb _ _); [reflexivity|].
  destruct (fireLoop beatCb _ _), (fireLoop barCb _ _), (fireLoop sectionCb _ _).
  reflexivity.
Qed.

Lemma syncEffect_prevPosition (a : AudioAnalysis) (pos : Q) (c : SyncCursor) :
  prevPosition (fst (syncEffect (Some a) pos true c)) = Some (curSecOf pos).
Proof.
  rewrite syncEffect_playing. cbv zeta. now destruct (Qltb _ _).
Qed.

Lemma syncEffect_seek (a : AudioAnalysis) (pos p : Q) (c : SyncCursor) :
  prevPosition c = Some p -> curSecOf pos < fl (p - 0.5) ->
  syncEffect (Some a) pos true c =
  (mkCursor (Some (curSecOf pos)) (lastBeat c) (lastBar c) (lastSection c), []).
Proof.
  intros Hp Hseek. rewrite syncEffect_playing. cbv zeta.
  unfold prevSecOf. rewrite Hp.
  apply Qltb_lt in Hseek. now rewrite Hseek.
Qed.

Lemma syncEffect_beatsFired (a : AudioAnalysis) (pos : Q) (c : SyncCursor) :
  beatsFired (snd (syncEffect (Some a) pos true c)) =
  if Qltb (curSecOf pos) (fl (prevSecOf c pos - 0.5)) then []
  else firedIdx (eventsInWindow (beats a) (prevSecOf c pos) (curSecOf pos)) (lastBeat c).
Proof.
  rewrite syncEffect_playing. cbv zeta. destruct (Qltb _ _); [reflexivity|].
  unfold beatsFired. simpl snd. rewrite !flat_map_app.
  rewrite (fireLoop_select beatCb) by reflexivity.
  rewrite (fireLoop_ignore barCb), (fireLoop_ignore sectionCb) by reflexivity.
  now rewrite !app_nil_r.
Qed.

Lemma syncEffect_barsFired (a : AudioAnalysis) (pos : Q) (c : SyncCursor) :
  barsFired (snd (syncEffect (Some a) pos true c)) =
  if Qltb (curSecOf pos) (fl (prevSecOf c pos - 0.5)) then []
  else firedIdx (eventsInWindow (bars a) (prevSecOf c pos) (curSecOf pos)) (lastBar c).
Proof.
  rewrite syncEffect_playing. cbv zeta. destruct (Qltb _ _); [reflexivity|].
  unfold barsFired. simpl snd. rewrite !flat_map_app.
  rewrite (fireLoop_select barCb) by reflexivity.
  rewrite (fireLoop_ignore beatCb), (fireLoop_ignore sectionCb) by reflexivity.
  now rewrite app_nil_r.
Qed.

Lemma syncEffect_sectionsFired (a : AudioAnalysis) (pos : Q) (c : SyncCursor) :
  sectionsFired (snd (syncEffect (Some a) pos true c)) =
  if Qltb (curSecOf pos) (fl (prevSecOf c pos - 0.5)) then []
  else firedIdx (eventsInWindow (sections a) (prevSecOf c pos) (curSecOf pos)) (lastSection c).
Proof.
  rewrite syncEffect_playing. cbv zeta. destruct (Qltb _ _); [reflexivity|].
  unfold sectionsFired. simpl snd. rewrite !flat_map_app.
  rewrite (fireLoop_select sectionCb) by reflexivity.
  now rewrite (fireLoop_ignore beatCb), (fireLoop_ignore barCb) by reflexivity.
Qed.

Lemma syncEffect_lastBeat (a : AudioAnalysis) (pos : Q) (c : SyncCursor) :
  lastBeat (fst (syncEffect (Some a) pos true c)) =
  if Qltb (curSecOf pos) (fl (prevSecOf c pos - 0.5)) then lastBeat c
  else fst (fireLoop beatCb (eventsInWindow (beats a) (prevSecOf c pos) (curSecOf pos))
              (lastBeat c)).
Proof.
  rewrite syncEffect_playing. cbv zeta. now destruct (Qltb _ _).
Qed.

Lemma syncEffect_beatStep (a : AudioAnalysis) (pos : Q) (c : SyncCursor) :
  let res := syncEffect (Some a) pos true c in
  ((prevPosition (fst res), lastBeat (fst res)), beatsFired (snd res)) =
  beatStep (beats a) pos (prevPosition c, lastBeat c).
Proof.
  cbv zeta. rewrite syncEffect_prevPosition, syncEffect_lastBeat, syncEffect_beatsFired.
  unfold beatStep, prevSecOf. simpl. now destruct (Qltb _ _).
Qed.

Lemma runSync_beatRun (a : AudioAnalysis) (positions : list Q) :
  forall c,
    let res := runSync a positions c in
    ((prevPosition (fst res), lastBeat (fst res)), map beatsFired (snd res)) =
    beatRun (beats a) positions (prevPosition c, lastBeat c).
Proof.
  induction positions as [|p rest IH]; intros c; [reflexivity|].
  cbn [runSync beatRun].
  pose proof (syncEffect_beatStep a p c) as Hstep. cbv zeta in Hstep.
  destruct (syncEffect (Some a) p true c) as [c1 f]. cbn [fst snd] in Hstep.
  rewrite <- Hstep.
  specialize (IH c1). cbv zeta in IH.
  destruct (runSync a rest c1) as [c2 fs]. cbn [fst snd] in IH. rewrite <- IH.
  reflexivity.
Qed.

(** What every playing call fires from each of the three tables. *)
Lemma syncEffect_FiresExactly (a : AudioAnalysis) (pos : Q) (c : SyncCursor) :
  cursorOk c ->
  let fired := snd (syncEffect (Some a) pos true c) in
  FiresExactly (beats a) (prevSecOf c pos) (curSecOf pos) (lastBeat c) (beatsFired fired) /\
  FiresExactly (bars a) (prevSecOf c pos) (curSecOf pos) (lastBar c) (barsFired fired) /\
  FiresExactly (sections a) (prevSecOf c pos) (curSecOf pos) (lastSection c)
    (sectionsFired fired).
Proof.
  intros Hc. pose proof (prevSecOf_double c pos Hc) as Hd. cbv zeta.
  rewrite syncEffect_beatsFired, syncEffect_barsFired, syncEffect_sectionsFired.
  destruct (Qltb (curSecOf pos) (fl (prevSecOf c pos - 0.5))) eqn:E.
  - apply Qltb_lt in E. split; [|split]; now apply seek_window_empty.
  - split; [|split]; apply firedIdx_FiresExactly.
Qed.

(** ** Runs of calls *)

Section Forward.

Context {T : Type} `{HasStart T}.

Lemma last_cons_default {A} (l : list A) (x d : A) : last (x :: l) d = last l x.
Proof.
  revert x d. induction l as [|y l IH]; intros x d; [reflexivity|].
  change (last (x :: y :: l) d) with (last (y :: l) d).
  now rewrite !IH.
Qed.

Lemma sorted_NoDup (l : list Z) : StronglySorted Z.lt l -> NoDup l.
Proof.
  induction 1 as [|i l Hs IH Hall]; constructor; [|exact IH].
  intros Hin. rewrite Forall_forall in Hall. apply Hall in Hin. lia.
Qed.

Lemma last_In_or_default {A} (l : list A) (d : A) : last l d = d /\ l = [] \/ In (last l d) l.
Proof.
  destruct l as [|x l]; [left; now split|right].
  rewrite last_cons_default. revert x. induction l as [|y l IH]; intros x.
  - now left.
  - rewrite last_cons_default. right. apply IH.
Qed.

(** The last-fired ref after a dispatch loop is the last index fired, or
    what it was when nothing fired. *)
Lemma fireLoop_fst_last (cb : T -> Z -> Fired) (evs : list (T * Z)) :
  forall lastFired, fst (fireLoop cb evs lastFired) = last (firedIdx evs lastFired) lastFired.
Proof.
  induction evs as [|[x i] rest IH]; intros lf; [reflexivity|].
  cbn [fireLoop firedIdx].
  destruct (negb (i =? lf)%Z).
  - specialize (IH i). destruct (fireLoop cb rest i) as [l out]. cbn [fst] in *.
    now rewrite last_cons_default.
  - apply IH.
Qed.

Lemma window_indices (arr : list T) (prevSec curSec : Q) (i : Z) :
  In i (map snd (eventsInWindow arr prevSec curSec)) <-> inWindowAt arr prevSec curSec i.
Proof.
  rewrite in_map_iff. unfold inWindowAt. split.
  - intros ([x j] & Hj & Hx). simpl in Hj. subst j.
    apply eventsInWindow_In in Hx. exists x. tauto.
  - intros (x & Hx). exists (x, i). split; [reflexivity|].
    apply eventsInWindow_In. tauto.
Qed.

(** A call that moves forward fires its whole window: the entry fired
    last lies behind the window, so the guard suppresses nothing. *)
Lemma forward_step (cb : T -> Z -> Fired) (arr : list T) (prevSec curSec : Q) (lf : Z) :
  prevSec <= curSec -> behind arr prevSec lf ->
  firedIdx (eventsInWindow arr prevSec curSec) lf
  = map snd (eventsInWindow arr prevSec curSec) /\
  behind arr curSec (fst (fireLoop cb (eventsInWindow arr prevSec curSec) lf)).
Proof.
  intros Hle Hb.
  assert (Hs : StronglySorted Z.lt (map snd (eventsInWindow arr prevSec curSec)))
    by apply eventsFrom_sorted.
  assert (Hfired : firedIdx (eventsInWindow arr prevSec curSec) lf
                   = map snd (eventsInWindow arr prevSec curSec)).
  { rewrite firedIdx_sorted by exact Hs.
    pose proof (window_indices arr prevSec curSec) as Hin.
    destruct (map snd (eventsInWindow arr prevSec curSec)) as [|i rest]; [reflexivity|].
    cbn [dropHeadIf]. destruct (Z.eqb_spec i lf) as [->|Hne]; [exfalso|reflexivity].
    destruct (proj1 (Hin lf) (or_introl eq_refl)) as (x & Hpos & Hx & Hlo & _).
    destruct Hb as [Hneg|(y & Hy & Hstart)]; [lia|].
    rewrite Hx in Hy. inversion Hy; subst. lra. }
  split; [exact Hfired|].
  rewrite fireLoop_fst_last, Hfired.
  destruct (last_In_or_default (map snd (eventsInWindow arr prevSec curSec)) lf)
    as [[-> _]|Hin].
  - destruct Hb as [Hneg|(y & Hy & Hstart)]; [now left|right].
    exists y. split; [exact Hy|lra].
  - apply window_indices in Hin. destruct Hin as (x & _ & Hx & _ & Hhi).
    right. exists x. now split.
Qed.

Lemma inWindowAt_split (arr : list T) (lo mid hi : Q) (i : Z) :
  lo <= mid -> mid <= hi ->
  (inWindowAt arr lo hi i <-> inWindowAt arr lo mid i \/ inWindowAt arr mid hi i).
Proof.
  intros H1 H2. unfold inWindowAt. split.
  - intros (x & Hpos & Hx & Hlo & Hhi).
    destruct (Qlt_le_dec mid (start x)) as [Hgt|Hle'].
    + right. exists x. tauto.
    + left. exists x. tauto.
  - intros [(x & Hpos & Hx & Hlo & Hhi)|(x & Hpos & Hx & Hlo & Hhi)];
      exists x; (split; [exact Hpos|]); (split; [exact Hx|]); split; lra.
Qed.

Lemma inWindowAt_disjoint (arr : list T) (lo mid hi : Q) (i : Z) :
  inWindowAt arr lo mid i -> inWindowAt arr mid hi i -> False.
Proof.
  intros (x & _ & Hx & _ & Hhi) (y & _ & Hy & Hlo & _).
  rewrite Hx in Hy. inversion Hy; subst. lra.
Qed.

Variable tab : AudioAnalysis -> list T.
Variable lastOf : SyncCursor -> Z.
Variable sel : list Fired -> list Z.
Variable cb : T -> Z -> Fired.

Hypothesis sel_fired : forall a pos c,
  sel (snd (syncEffect (Some a) pos true c)) =
  if Qltb (curSecOf pos) (fl (prevSecOf c pos - 0.5)) then []
  else firedIdx (eventsInWindow (tab a) (prevSecOf c pos) (curSecOf pos)) (lastOf c).

Hypothesis lastOf_fired : forall a pos c,
  lastOf (fst (syncEffect (Some a) pos true c)) =
  if Qltb (curSecOf pos) (fl (prevSecOf c pos - 0.5)) then lastOf c
  else fst (fireLoop cb (eventsInWindow (tab a) (prevSecOf c pos) (curSecOf pos)) (lastOf c)).

Lemma last_ge (rest : list Q) (p : Q) :
  StronglySorted Qle (p :: rest) -> p <= last rest p.
Proof.
  intros Hs. inversion Hs as [|? ? _ Hall]; subst.
  destruct (last_In_or_default rest p) as [[-> _]|Hin]; [apply Qle_refl|].
  rewrite Forall_forall in Hall. now apply Hall.
Qed.

Lemma runSync_forward (a : AudioAnalysis) (rest : list Q) :
  forall p c,
    StronglySorted Qle (p :: rest) ->
    isDouble (prevSecOf c p) ->
    prevSecOf c p <= curSecOf p ->
    behind (tab a) (prevSecOf c p) (lastOf c) ->
    FiresOnce (tab a) (prevSecOf c p) (curSecOf (last rest p))
      (concat (map sel (snd (runSync a (p :: rest) c)))).
Proof.
  induction rest as [|p2 rest IH]; intros p c Hs Hd Hle Hb.
  - cbn [runSync last].
    destruct (syncEffect (Some a) p true c) as [c1 f] eqn:E.
    cbn [snd map concat]. rewrite app_nil_r.
    pose proof (sel_fired a p c) as Hsel. rewrite E in Hsel. cbn [snd] in Hsel.
    pose proof (seek_limit _ Hd) as Hlim.
    assert (Hns : Qltb (curSecOf p) (fl (prevSecOf c p - 0.5)) = false) by (qbool; lra).
    rewrite Hns in Hsel. rewrite Hsel.
    destruct (forward_step cb (tab a) _ _ _ Hle Hb) as [-> _].
    split.
    + apply sorted_NoDup. apply eventsFrom_sorted.
    + intros i. apply window_indices.
  - change (runSync a (p :: p2 :: rest) c)
      with (let (c1, f) := syncEffect (Some a) p true c in
            let (c2, fs) := runSync a (p2 :: rest) c1 in (c2, f :: fs)).
    pose proof (sel_fired a p c) as Hsel.
    pose proof (lastOf_fired a p c) as Hlast.
    pose proof (syncEffect_prevPosition a p c) as Hprev.
    destruct (syncEffect (Some a) p true c) as [c1 f].
    cbn [fst snd] in Hsel, Hlast, Hprev.
    pose proof (seek_limit _ Hd) as Hlim.
    assert (Hns : Qltb (curSecOf p) (fl (prevSecOf c p - 0.5)) = false) by (qbool; lra).
    rewrite Hns in Hsel, Hlast.
    destruct (forward_step cb (tab a) _ _ _ Hle Hb) as [Hf Hb1].
    rewrite <- Hlast in Hb1. rewrite Hf in Hsel.
    assert (Hs2 : StronglySorted Qle (p2 :: rest)) by now inversion Hs.
    assert (Hp2 : p <= p2).
    { inversion Hs as [|? ? _ Hall]; subst. now inversion Hall. }
    assert (Hanchor : prevSecOf c1 p2 = curSecOf p) by (unfold prevSecOf; now rewrite Hprev).
    assert (Hmid : curSecOf p <= curSecOf p2) by now apply curSecOf_mono.
    specialize (IH p2 c1 Hs2). rewrite Hanchor in IH.
    specialize (IH (curSecOf_double p) Hmid Hb1).
    destruct (runSync a (p2 :: rest) c1) as [c2 fs]. cbn [snd] in IH |- *.
    cbn [map concat]. rewrite Hsel.
    rewrite last_cons_default.
    assert (Hhi : curSecOf p2 <= curSecOf (last rest p2)).
    { apply curSecOf_mono. now apply last_ge. }
    destruct IH as [Hnd Hin]. split.
    + apply NoDup_app.
      * apply sorted_NoDup. apply eventsFrom_sorted.
      * exact Hnd.
      * intros i Hi Hi'. apply window_indices in Hi. apply Hin in Hi'.
        exact (inWindowAt_disjoint _ _ _ _ _ Hi Hi').
    + intros i. rewrite in_app_iff, window_indices, Hin.
      symmetry. apply inWindowAt_split; [exact Hle|lra].
Qed.

End Forward.

Lemma syncEffect_lastBar (a : AudioAnalysis) (pos : Q) (c : SyncCursor) :
  lastBar (fst (syncEffect (Some a) pos true c)) =
  if Qltb (curSecOf pos) (fl (prevSecOf c pos - 0.5)) then lastBar c
  else fst (fireLoop barCb (eventsInWindow (bars a) (prevSecOf c pos) (curSecOf pos))
              (lastBar c)).
Proof.
  rewrite syncEffect_playing. cbv zeta. now destruct (Qltb _ _).
Qed.

Lemma syncEffect_lastSection (a : AudioAnalysis) (pos : Q) (c : SyncCursor) :
  lastSection (fst (syncEffect (Some a) pos true c)) =
  if Qltb (curSecOf pos) (fl (prevSecOf c pos - 0.5)) then lastSection c
  else fst (fireLoop sectionCb (eventsInWindow (sections a) (prevSecOf c pos) (curSecOf pos))
              (lastSection c)).
Proof.
  rewrite syncEffect_playing. cbv zeta. now destruct (Qltb _ _).
Qed.

(** C5. With beats at 0.5 s, 1.0 s and 1.5 s and playback running, the
    calls at 0.0 s, 0.6 s, 1.2 s and 1.8 s from the reset cursor fire no
    beat, then beat 0, then beat 1, then beat 2.  Every playing call fires
    from each table exactly the entries that start in the window
    (previous position, current position], in index order, whose index
    differs from the last-fired index of that table when the entry is
    reached; it stores the current position, and in each last-fired index
    the index of the last entry it fired from that table, or what was
    there when it fired none.  So a call whose window holds only the entry
    fired last fires nothing: after the calls at 0.0 s and 0.6 s, a step
    back to 0.4 s and a call at 0.6 s again find beat 0 in the window and
    do not fire it. *)
Theorem sync_dispatch_exactness :
  (forall d0 c0 d1 c1 d2 c2 brs secs,
      map beatsFired
        (snd (runSync (scenarioAnalysis d0 c0 d1 c1 d2 c2 brs secs)
                [0; 600; 1200; 1800] resetCursor))
      = [[]; [0%Z]; [1%Z]; [2%Z]]) /\
  (forall d0 c0 d1 c1 d2 c2 brs secs,
      map beatsFired
        (snd (runSync (scenarioAnalysis d0 c0 d1 c1 d2 c2 brs secs)
                [0; 600; 400; 600] resetCursor))
      = [[]; [0%Z]; []; []]) /\
  cursorOk resetCursor /\
  (forall a pos c,
      cursorOk c ->
      let res := syncEffect (Some a) pos true c in
      let fired := snd res in
      FiresExactly (beats a) (prevSecOf c pos) (curSecOf pos) (lastBeat c)
        (beatsFired fired) /\
      FiresExactly (bars a) (prevSecOf c pos) (curSecOf pos) (lastBar c)
        (barsFired fired) /\
      FiresExactly (sections a) (prevSecOf c pos) (curSecOf pos) (lastSection c)
        (sectionsFired fired) /\
      prevPosition (fst res) = Some (curSecOf pos) /\
      lastBeat (fst res) = last (beatsFired fired) (lastBeat c) /\
      lastBar (fst res) = last (barsFired fired) (lastBar c) /\
      lastSection (fst res) = last (sectionsFired fired) (lastSection c) /\
      cursorOk (fst res)).
Proof.
  split; [|split; [|split; [exact I|]]].
  - intros.
    pose proof (runSync_beatRun (scenarioAnalysis d0 c0 d1 c1 d2 c2 brs secs)
                  [0; 600; 1200; 1800] resetCursor) as Hrun.
    cbv zeta in Hrun.
    apply (f_equal snd) in Hrun. cbn [snd] in Hrun. rewrite Hrun.
    vm_compute. reflexivity.
  - intros.
    pose proof (runSync_beatRun (scenarioAnalysis d0 c0 d1 c1 d2 c2 brs secs)
                  [0; 600; 400; 600] resetCursor) as Hrun.
    cbv zeta in Hrun.
    apply (f_equal snd) in Hrun. cbn [snd] in Hrun. rewrite Hrun.
    vm_compute. reflexivity.
  - intros a pos c Hc res fired.
    destruct (syncEffect_FiresExactly a pos c Hc) as (Hb & Hr & Hs).
    split; [exact Hb|]. split; [exact Hr|]. split; [exact Hs|].
    pose proof (syncEffect_prevPosition a pos c) as Hp. fold res in Hp.
    split; [exact Hp|].
    unfold fired, res.
    rewrite syncEffect_lastBeat, syncEffect_lastBar, syncEffect_lastSection.
    rewrite syncEffect_beatsFired, syncEffect_barsFired, syncEffect_sectionsFired.
    split; [|split; [|split]].
    + destruct (Qltb _ _); [reflexivity|apply fireLoop_fst_last].
    + destruct (Qltb _ _); [reflexivity|apply fireLoop_fst_last].
    + destruct (Qltb _ _); [reflexivity|apply fireLoop_fst_last].
    + unfold cursorOk. fold res. rewrite Hp. apply curSecOf_double.
Qed.

Lemma sync_dispatch_exactness_witness :
  cursorOk resetCursor /\
  FiresExactly (beats (scenarioAnalysis 0 0 0 0 0 0 [] []))
    (prevSecOf resetCursor 600) (curSecOf 600) (lastBeat resetCursor)
    (beatsFired (snd (syncEffect (Some (scenarioAnalysis 0 0 0 0 0 0 [] [])) 600 true
                        resetCursor))).
Proof.
  split; [exact I|].
  exact (proj1 (proj2 (proj2 (proj2 sync_dispatch_exactness))
                  (scenarioAnalysis 0 0 0 0 0 0 [] []) 600 resetCursor I)).
Defined.

(** C6. After the calls up to 1.8 s, a call at 0.2 s fires nothing, keeps
    the last-fired beat and moves the anchor to 0.2 s, that is to the
    double of the literal [0.2], within 2^-56 of 0.2; the next call, at
    0.6 s, fires beat 0 again. *)
Theorem seek_suppression :
  forall d0 c0 d1 c1 d2 c2 brs secs,
    let a := scenarioAnalysis d0 c0 d1 c1 d2 c2 brs secs in
    let c4 := fst (runSync a [0; 600; 1200; 1800] resetCursor) in
    let back := syncEffect (Some a) 200 true c4 in
    let again := syncEffect (Some a) 600 true (fst back) in
    snd back = [] /\
    (exists p, prevPosition (fst back) = Some p /\ p == fl 0.2 /\
               Qabs (p - 0.2) <= 2 ^ (-56)) /\
    lastBeat (fst back) = 2%Z /\
    beatsFired (snd again) = [0%Z].
Proof.
  intros.
  pose proof (runSync_beatRun a [0; 600; 1200; 1800] resetCursor) as Hrun.
  cbv zeta in Hrun. fold c4 in Hrun.
  apply (f_equal fst) in Hrun. cbn [fst] in Hrun.
  assert (Hc4 : (prevPosition c4, lastBeat c4) = (Some (curSecOf 1800), 2%Z)).
  { rewrite Hrun. vm_compute. reflexivity. }
  apply pair_equal_spec in Hc4. destruct Hc4 as [Hprev Hlast].
  assert (Hback : back = (mkCursor (Some (curSecOf 200)) (lastBeat c4) (lastBar c4)
                            (lastSection c4), [])).
  { apply (syncEffect_seek a 200 (curSecOf 1800)); [exact Hprev|].
    vm_compute. reflexivity. }
  repeat split.
  - now rewrite Hback.
  - exists (curSecOf 200). rewrite Hback. split; [reflexivity|].
    split; [vm_compute; reflexivity|vm_compute; discriminate].
  - now rewrite Hback.
  - pose proof (syncEffect_beatStep a 600 (fst back)) as Hstep.
    cbv zeta in Hstep. fold again in Hstep.
    apply (f_equal snd) in Hstep. cbn [snd] in Hstep. rewrite Hstep.
    rewrite Hback. cbn [fst prevPosition lastBeat]. rewrite Hlast.
    vm_compute. reflexivity.
Qed.

(** The window of a first call is the one of [curSec - 0.2] up to the
    rounding of the code's arithmetic. *)
Lemma first_window_near (pos : Q) :
  Qabs (curSecOf pos - pos / 1000) <= 2 ^ (-51) * (Qabs (pos / 1000) + 1) /\
  Qabs (fl (curSecOf pos - fl 0.2) - (pos / 1000 - 0.2))
  <= 2 ^ (-51) * (Qabs (pos / 1000) + 1).
Proof.
  unfold curSecOf. set (X := pos / 1000). set (cur := fl X).
  pose proof (fl_error X) as E1. fold cur in E1.
  pose proof (fl_error (cur - fl 0.2)) as E2.
  assert (E3 : Qabs (fl 0.2 - 0.2) <= 2 ^ (-56)) by (vm_compute; discriminate).
  assert (H02 : 0 <= fl 0.2 <= 1 # 4) by (split; vm_compute; discriminate).
  assert (T : 2 ^ (-1075) <= 2 ^ (-110)) by (apply pow2_le; lia).
  assert (V1 : 2 ^ (-110) == 1 # 1298074214633706907132624082305024) by reflexivity.
  assert (V2 : 2 ^ (-53) == 1 # 9007199254740992) by reflexivity.
  assert (V3 : 2 ^ (-51) == 1 # 2251799813685248) by reflexivity.
  assert (V4 : 2 ^ (-56) == 1 # 72057594037927936) by reflexivity.
  rewrite V2 in E1, E2. rewrite V3. rewrite V4 in E3. rewrite V1 in T.
  set (tiny := 2 ^ (-1075)) in *.
  pose proof (Qabs_nonneg X) as A0.
  assert (A1 : Qabs cur <= Qabs X + Qabs (cur - X)).
  { setoid_replace cur with (X + (cur - X)) at 1 by ring. apply Qabs_triangle. }
  assert (A2 : Qabs (cur - fl 0.2) <= Qabs cur + fl 0.2).
  { eapply Qle_trans; [apply (Qabs_triangle cur (- fl 0.2))|].
    rewrite Qabs_opp, (Qabs_pos (fl 0.2)) by lra. apply Qle_refl. }
  assert (A3 : Qabs (fl (cur - fl 0.2) - (X - 0.2))
               <= Qabs (fl (cur - fl 0.2) - (cur - fl 0.2)) + Qabs (cur - X)
                  + Qabs (fl 0.2 - 0.2)).
  { setoid_replace (fl (cur - fl 0.2) - (X - 0.2))
      with ((fl (cur - fl 0.2) - (cur - fl 0.2)) + (cur - X) + - (fl 0.2 - 0.2)) by ring.
    eapply Qle_trans; [apply Qabs_triangle|].
    rewrite Qabs_opp. apply Qplus_le_compat; [apply Qabs_triangle|apply Qle_refl]. }
  pose proof (Qabs_nonneg cur) as A4.
  split; [lra|].
  assert (A5 : Qabs cur <= 2 * Qabs X + 1) by lra.
  lra.
Qed.

(** With no entry fired before, the guard suppresses nothing. *)
Lemma firesExactly_fresh {T} `{HasStart T} (arr : list T) (lo hi : Q) (lf : Z)
    (fired : list Z) :
  lf = (-1)%Z -> FiresExactly arr lo hi lf fired ->
  forall i, In i fired <-> inWindowAt arr lo hi i.
Proof.
  intros -> [_ Hin] i. rewrite Hin. split; [tauto|].
  intros Hi. split; [exact Hi|]. left. destruct Hi as (x & Hpos & _). lia.
Qed.

(** C10 (as the code has it). On a call that finds no stored previous
    position the window is (lo, cur], with cur the position in seconds and
    lo the code's [curSec - 0.2], both in double arithmetic: from the reset
    cursor every beat, bar and section that starts in it fires on that
    call, and nothing else does.  The window is never inverted, and its
    ends are the exact position in seconds and the exact position less
    0.2 s up to the rounding: each is within 2^-51 * (|p| + 1) of the
    exact value, [p] being the position in seconds. *)
Theorem first_call_window :
  forall a pos,
    let cur := curSecOf pos in
    let lo := fl (cur - fl 0.2) in
    (forall lb lr ls,
        let c := mkCursor None lb lr ls in
        let fired := snd (syncEffect (Some a) pos true c) in
        FiresExactly (beats a) lo cur lb (beatsFired fired) /\
        FiresExactly (bars a) lo cur lr (barsFired fired) /\
        FiresExactly (sections a) lo cur ls (sectionsFired fired)) /\
    (let fired := snd (syncEffect (Some a) pos true resetCursor) in
     (forall i, In i (beatsFired fired) <-> inWindowAt (beats a) lo cur i) /\
     (forall i, In i (barsFired fired) <-> inWindowAt (bars a) lo cur i) /\
     (forall i, In i (sectionsFired fired) <-> inWindowAt (sections a) lo cur i)) /\
    lo <= cur /\
    Qabs (cur - pos / 1000) <= 2 ^ (-51) * (Qabs (pos / 1000) + 1) /\
    Qabs (lo - (pos / 1000 - 0.2)) <= 2 ^ (-51) * (Qabs (pos / 1000) + 1).
Proof.
  intros a pos cur lo. split; [|split; [|split]].
  - intros lb lr ls c.
    exact (syncEffect_FiresExactly a pos c I).
  - destruct (syncEffect_FiresExactly a pos resetCursor I) as (Hb & Hr & Hs).
    split; [|split]; intros i;
      [exact (firesExactly_fresh _ _ _ _ _ eq_refl Hb i)
      |exact (firesExactly_fresh _ _ _ _ _ eq_refl Hr i)
      |exact (firesExactly_fresh _ _ _ _ _ eq_refl Hs i)].
  - apply first_lower.
  - apply first_window_near.
Qed.

(** C10 as stated fails: the lower end is not the exact [curSec - 0.2].
    On a first call at 700 ms the code's lower end is below 0.5 and the
    beat that starts at 0.5 s fires, although 0.5 is not above
    0.7 - 0.2. *)
Lemma first_call_window_counterexample :
  ~ (forall a pos,
       let cur := pos / 1000 in
       let fired := snd (syncEffect (Some a) pos true resetCursor) in
       forall i, In i (beatsFired fired) <-> inWindowAt (beats a) (cur - 0.2) cur i).
Proof.
  intros Hclaim.
  specialize (Hclaim (scenarioAnalysis 0 0 0 0 0 0 [] []) 700 0%Z). cbv zeta in Hclaim.
  assert (Hf : beatsFired (snd (syncEffect (Some (scenarioAnalysis 0 0 0 0 0 0 [] [])) 700 true
                                  resetCursor)) = [0%Z]) by (vm_compute; reflexivity).
  rewrite Hf in Hclaim.
  destruct (proj1 Hclaim (or_introl eq_refl)) as (x & _ & Hx & Hlo & _).
  cbn in Hx. inversion Hx; subst. revert Hlo. vm_compute. discriminate.
Qed.

(** X1. Over calls at positions that never move back, starting from the
    reset state with playback running, each table fires every entry that
    starts in the window from the lower end of the first call (the code's
    [curSec - 0.2]) up to the last position in seconds, once each, and
    nothing else: the windows of successive calls tile that stretch and
    the last-fired guard suppresses nothing. *)
Theorem forward_playback_fires_once (a : AudioAnalysis) (p : Q) (rest : list Q) :
  StronglySorted Qle (p :: rest) ->
  let calls := snd (runSync a (p :: rest) resetCursor) in
  let lo := fl (curSecOf p - fl 0.2) in
  let hi := curSecOf (last rest p) in
  FiresOnce (beats a) lo hi (concat (map beatsFired calls)) /\
  FiresOnce (bars a) lo hi (concat (map barsFired calls)) /\
  FiresOnce (sections a) lo hi (concat (map sectionsFired calls)).
Proof.
  intros Hs calls lo hi.
  assert (Hd : isDouble (prevSecOf resetCursor p)) by (apply prevSecOf_double; exact I).
  assert (Hle : prevSecOf resetCursor p <= curSecOf p) by now apply prevSecOf_le.
  split; [|split].
  - apply (runSync_forward beats lastBeat beatsFired beatCb
             syncEffect_beatsFired syncEffect_lastBeat a rest p resetCursor Hs Hd Hle).
    left. reflexivity.
  - apply (runSync_forward bars lastBar barsFired barCb
             syncEffect_barsFired syncEffect_lastBar a rest p resetCursor Hs Hd Hle).
    left. reflexivity.
  - apply (runSync_forward sections lastSection sectionsFired sectionCb
             syncEffect_sectionsFired syncEffect_lastSection a rest p resetCursor Hs Hd Hle).
    left. reflexivity.
Qed.

(** The window of a call that does not move forward is empty. *)
Lemma backward_window_empty {T} `{HasStart T} (arr : list T) (prevSec curSec : Q) :
  curSec <= prevSec -> eventsInWindow arr prevSec curSec = [].
Proof.
  intros Hle. destruct (eventsInWindow arr prevSec curSec) as [|[x i] l] eqn:E; [reflexivity|].
  assert (Hin : In (x, i) (eventsInWindow arr prevSec curSec)) by (rewrite E; now left).
  apply eventsInWindow_In in Hin. destruct Hin as (_ & _ & Hlo & Hhi). lra.
Qed.

(** X2. A playing call whose position in seconds is at or behind the
    stored previous position fires nothing, whether it counts as a seek or
    not: it only moves the stored position to the current one and keeps
    the three last-fired indices. *)
Theorem backward_call_fires_nothing (a : AudioAnalysis) (pos p : Q) (c : SyncCursor) :
  prevPosition c = Some p -> curSecOf pos <= p ->
  syncEffect (Some a) pos true c
  = (mkCursor (Some (curSecOf pos)) (lastBeat c) (lastBar c) (lastSection c), []).
Proof.
  intros Hp Hle. rewrite syncEffect_playing. cbv zeta.
  assert (Hprev : prevSecOf c pos = p) by (unfold prevSecOf; now rewrite Hp).
  rewrite Hprev.
  destruct (Qltb (curSecOf pos) (fl (p - 0.5))); [reflexivity|].
  now rewrite !backward_window_empty by exact Hle.
Qed.

Lemma scenario_positions_sorted : StronglySorted Qle [0; 600; 1200; 1800].
Proof. repeat constructor; discriminate. Qed.

Lemma forward_playback_fires_once_witness :
  StronglySorted Qle [0; 600; 1200; 1800] /\
  FiresOnce (beats (scenarioAnalysis 0 0 0 0 0 0 [] [])) (fl (curSecOf 0 - fl 0.2))
    (curSecOf (last [600; 1200; 1800] 0))
    (concat (map beatsFired
       (snd (runSync (scenarioAnalysis 0 0 0 0 0 0 [] []) [0; 600; 1200; 1800] resetCursor)))).
Proof.
  split; [exact scenario_positions_sorted|].
  exact (proj1 (forward_playback_fires_once (scenarioAnalysis 0 0 0 0 0 0 [] []) 0
                  [600; 1200; 1800] scenario_positions_sorted)).
Defined.

Lemma backward_step_le : curSecOf 1700 <= curSecOf 1800.
Proof. apply curSecOf_mono. discriminate. Qed.

Lemma backward_call_fires_nothing_witness :
  prevPosition (mkCursor (Some (curSecOf 1800)) 2 (-1) (-1)) = Some (curSecOf 1800) /\
  curSecOf 1700 <= curSecOf 1800 /\
  syncEffect (Some (scenarioAnalysis 0 0 0 0 0 0 [] [])) 1700 true
    (mkCursor (Some (curSecOf 1800)) 2 (-1) (-1))
  = (mkCursor (Some (curSecOf 1700)) 2 (-1) (-1), []).
Proof.
  split; [reflexivity|]. split; [exact backward_step_le|].
  exact (backward_call_fires_nothing (scenarioAnalysis 0 0 0 0 0 0 [] []) 1700
           (curSecOf 1800) (mkCursor (Some (curSecOf 1800)) 2 (-1) (-1))
           eq_refl backward_step_le).
Defined.

End BeatSyncProofs.

(** * The spectral extractor and the trackers *)

Module LiveProofs.

Import Live.


Lemma inject_Z_nonneg (z : Z) : (0 <= z)%Z -> 0 <= inject_Z z.
Proof. intros Hz. unfold Qle. simpl. lia. Qed.

Lemma Qmax_zero_l (x : Q) : x <= 0 -> Qmax 0 x == 0.
Proof. intros Hx. now apply Q.max_l. Qed.

Lemma Qmin_one_zero (x : Q) : x == 0 -> Qmin 1 x == 0.
Proof. intros Hx. rewrite Q.min_r; [exact Hx|]. rewrite Hx. discriminate. Qed.

Lemma accumulate_zero (hzPerBin : Q) (i : Z) (prev : Q) (a : Sums) :
  0 <= prev -> zeroValued a -> zeroValued (accumulate hzPerBin i 0 prev a).
Proof.
  intros Hp (H1 & H2 & H3 & H4 & H5 & H6 & H7 & H8).
  assert (Hf : Qmax 0 (0 - prev) == 0) by (apply Qmax_zero_l; lra).
  unfold accumulate, zeroValued.
  destruct (Qltb _ 60); [|destruct (Qltb _ 250); [|destruct (Qltb _ 2000);
    [|destruct (Qltb _ 6000)]]]; cbn [subBassSum bassSum midsSum highsSum brillSum
      weightedBinSum totalMag fluxSum]; rewrite Hf; repeat split; lra.
Qed.

Lemma prevAt_nonneg (prev : option (list Z)) (i : Z) :
  match prev with Some p => Forall (fun v => (0 <= v <= 255)%Z) p | None => True end ->
  0 <= prevAt prev i.
Proof.
  destruct prev as [p|]; simpl; [|discriminate].
  intros Hall. apply inject_Z_nonneg.
  destruct (nth_in_or_default (Z.to_nat i) p 0%Z) as [Hin|Hd].
  - rewrite Forall_forall in Hall. apply Hall in Hin. lia.
  - rewrite Hd. lia.
Qed.

Lemma accumulateFrom_zero (hzPerBin : Q) (prev : option (list Z)) (data : list Z) :
  match prev with Some p => Forall (fun v => (0 <= v <= 255)%Z) p | None => True end ->
  Forall (fun v => v = 0%Z) data ->
  forall i a, zeroValued a -> zeroValued (accumulateFrom hzPerBin prev i data a).
Proof.
  intros Hprev Hall. induction Hall as [|v rest Hv _ IH]; intros i a Ha; simpl; [exact Ha|].
  subst v. apply IH. apply accumulate_zero; [now apply prevAt_nonneg|exact Ha].
Qed.

Lemma sumsOf_silent (s : LiveAnalyzer) (data : list Z) :
  prevOk s -> silent data -> zeroValued (sumsOf s data).
Proof.
  intros Hp [_ Hz]. unfold sumsOf. apply accumulateFrom_zero; try assumption.
  unfold zeroValued, zeroSums. simpl. repeat split; reflexivity.
Qed.

Lemma normBand_zero (sum count amp : Q) : sum == 0 -> normBand sum count amp == 0.
Proof.
  intros Hs. unfold normBand. destruct (Qeq_bool count 0); [reflexivity|].
  apply Qmin_one_zero. rewrite Hs. unfold Qdiv. ring.
Qed.

Lemma rolloffFrom_silent (target : Q) (data : list Z) :
  target == 0 -> silent data -> rolloffFrom target 0 0 data = 0%Z.
Proof.
  intros Ht [Hne Hz]. destruct data as [|v rest]; [congruence|].
  inversion Hz; subst. simpl.
  assert (H : Qgeb (0 + inject_Z 0) target = true).
  { unfold Qgeb. apply Qleb_le. rewrite Ht. discriminate. }
  now rewrite H.
Qed.

(** One tick on silence: every smoothed scalar is its previous value
    times its retention. *)
Lemma tick_silent (t : Q) (data : list Z) (s : LiveAnalyzer) :
  live s -> prevOk s -> silent data ->
  let s' := fst (tick t data s) in
  let f := snd (tick t data s) in
  live s' /\ prevOk s' /\
  smoothedFrame f = smoothedState s' /\
  Forall2 Qeq (smoothedState s') (decayed 1 (smoothedState s)).
Proof.
  intros [Ha Hr] Hp Hs.
  pose proof (sumsOf_silent s data Hp Hs) as (H1 & H2 & H3 & H4 & H5 & H6 & H7 & H8).
  pose proof (rolloffFrom_silent (totalMag (sumsOf s data) * 0.85) data) as Hroll.
  unfold tick. rewrite Ha, Hr. cbn [negb orb]. cbv zeta. cbn [fst snd].
  split; [now split|]. split.
  { unfold prevOk. cbn [prevDataArray]. destruct Hs as [_ Hz].
    eapply Forall_impl; [|exact Hz]. intros v ->. lia. }
  split; [reflexivity|].
  unfold smoothedState, decayed, retentions.
  cbn [smSubBass smBass smMids smHighs smBrilliance smCentroid smFlux smRolloff smZCR
       combine map fst snd].
  rewrite Hroll by (try assumption; rewrite H7; reflexivity).
  assert (Hc : Qgtb (totalMag (sumsOf s data)) 0 = false) by (apply Qgtb_le; lra).
  assert (Hz : Qgtb (totalMag (sumsOf s data) / lengthQ data) 0 = false).
  { apply Qgtb_le. rewrite H7. unfold Qdiv. rewrite Qmult_0_l. discriminate. }
  rewrite Hc, Hz.
  cbn [retained].
  repeat (constructor; [|]); try constructor;
    rewrite ?normBand_zero by assumption; try lra.
  - rewrite H8. unfold Qdiv. ring.
  - destruct (Qgtb (lengthQ data) 0); unfold Qdiv; simpl; ring.
Qed.

Lemma retained_nonneg (ret : Q) (n : nat) : 0 <= ret -> 0 <= retained ret n.
Proof.
  intros Hr. induction n as [|n IH]; simpl; [discriminate|].
  now apply Qmult_le_0_compat.
Qed.

Lemma retained_le_1 (ret : Q) (n : nat) : 0 <= ret <= 1 -> retained ret n <= 1.
Proof.
  intros Hr. induction n as [|n IH]; simpl; [discriminate|].
  pose proof (retained_nonneg ret n (proj1 Hr)). nra.
Qed.

Lemma retained_add (ret : Q) (n m : nat) :
  retained ret (n + m) == retained ret m * retained ret n.
Proof.
  induction n as [|n IH]; simpl; [ring|]. rewrite IH. ring.
Qed.

(** No retention of the analyzer exceeds 0.9, and 0.9^n (9 + n) <= 9. *)
Lemma retained_bound (ret : Q) (n : nat) :
  0 <= ret <= 0.9 -> retained ret n * (9 + inject_Z (Z.of_nat n)) <= 9.
Proof.
  intros Hr. induction n as [|n IH].
  - cbn [retained Z.of_nat]. change (inject_Z 0) with 0. lra.
  - rewrite Nat2Z.inj_succ. unfold Z.succ. rewrite inject_Z_plus.
    cbn [retained].
    pose proof (retained_nonneg ret n (proj1 Hr)) as Hn.
    assert (Hk : 0 <= inject_Z (Z.of_nat n)) by (apply inject_Z_nonneg; lia).
    change (inject_Z 1) with 1. nra.
Qed.

Lemma Forall2_Qeq_trans (xs ys zs : list Q) :
  Forall2 Qeq xs ys -> Forall2 Qeq ys zs -> Forall2 Qeq xs zs.
Proof.
  intros H. revert zs. induction H; intros zs Hz; inversion Hz; subst; constructor.
  - etransitivity; eassumption.
  - auto.
Qed.

Lemma decayed_compat (n : nat) (xs ys : list Q) :
  Forall2 Qeq xs ys -> Forall2 Qeq (decayed n xs) (decayed n ys).
Proof.
  unfold decayed. generalize retentions as rs.
  intros rs H. revert rs. induction H; intros [|ret rs]; simpl; constructor.
  - simpl. now rewrite H.
  - apply IHForall2.
Qed.

Lemma decayed_add (n m : nat) (xs : list Q) :
  Forall2 Qeq (decayed n (decayed m xs)) (decayed (n + m) xs).
Proof.
  unfold decayed. generalize retentions as rs.
  induction xs as [|x xs IH]; intros [|ret rs]; simpl; constructor.
  - simpl. rewrite retained_add. ring.
  - apply IH.
Qed.

Lemma ticks_cons (t : Q) (data : list Z) (rest : list (Q * list Z)) (s : LiveAnalyzer) :
  ticks ((t, data) :: rest) s =
  (fst (ticks rest (fst (tick t data s))),
   snd (tick t data s) :: snd (ticks rest (fst (tick t data s)))).
Proof.
  cbn [ticks]. destruct (tick t data s) as [s1 f]. cbn [fst snd].
  now destruct (ticks rest s1).
Qed.

Lemma ticks_length (inputs : list (Q * list Z)) :
  forall s, length (snd (ticks inputs s)) = length inputs.
Proof.
  induction inputs as [|[t d] rest IH]; intros s; [reflexivity|].
  rewrite ticks_cons. simpl. now rewrite IH.
Qed.

(** On silence the scalars of frame [k] are those of the state before
    the run, each times its retention to the power [k + 1]. *)
Lemma ticks_silent (inputs : list (Q * list Z)) :
  forall s, live s -> prevOk s -> silentInputs inputs ->
  forall k f, nth_error (snd (ticks inputs s)) k = Some f ->
  Forall2 Qeq (smoothedFrame f) (decayed (S k) (smoothedState s)).
Proof.
  induction inputs as [|[t d] rest IH]; intros s Hl Hp Hs k f Hk.
  - now destruct k.
  - rewrite ticks_cons in Hk. cbn [snd] in Hk.
    inversion Hs as [|? ? Hd Hrest]; subst. cbn [snd] in Hd.
    destruct (tick_silent t d s Hl Hp Hd) as (Hl1 & Hp1 & Hf & Hstep).
    destruct k as [|k]; simpl in Hk.
    + inversion Hk; subst. rewrite Hf. exact Hstep.
    + specialize (IH _ Hl1 Hp1 Hrest k f Hk).
      eapply Forall2_Qeq_trans; [exact IH|].
      eapply Forall2_Qeq_trans; [apply decayed_compat; exact Hstep|].
      replace (S (S k)) with (S k + 1)%nat by lia. apply decayed_add.
Qed.

Lemma decay_elem (x ret : Q) (n : nat) :
  0 <= x <= 1 -> 0 <= ret <= 0.9 ->
  (0 <= x * retained ret n <= 1) /\
  x * retained ret n <= x /\
  x * retained ret (S n) <= x * retained ret n /\
  x * retained ret n * (9 + inject_Z (Z.of_nat n)) <= 9.
Proof.
  intros Hx Hr.
  pose proof (retained_nonneg ret n (proj1 Hr)) as H0.
  assert (H1 : retained ret n <= 1) by (apply retained_le_1; lra).
  pose proof (retained_bound ret n Hr) as Hb.
  assert (Hk : 0 <= inject_Z (Z.of_nat n)) by (apply inject_Z_nonneg; lia).
  cbn [retained].
  set (R := retained ret n) in *. set (K := inject_Z (Z.of_nat n)) in *.
  assert (A1 : 0 <= x * R) by (apply Qmult_le_0_compat; lra).
  assert (A2 : 0 <= x * (1 - R)) by (apply Qmult_le_0_compat; lra).
  assert (A3 : 0 <= x * R * (1 - ret)) by (apply Qmult_le_0_compat; lra).
  assert (A4 : 0 <= (1 - x) * (R * (9 + K))).
  { apply Qmult_le_0_compat; [lra|]. apply Qmult_le_0_compat; lra. }
  repeat split; lra.
Qed.

Ltac inv_Forall :=
  repeat match goal with
  | H : Forall2 _ (_ :: _) _ |- _ => inversion H; clear H; subst
  | H : Forall2 _ _ (_ :: _) |- _ => inversion H; clear H; subst
  | H : Forall2 _ [] _ |- _ => inversion H; clear H; subst
  | H : Forall2 _ _ [] |- _ => inversion H; clear H; subst
  | H : Forall _ (_ :: _) |- _ => inversion H; clear H; subst
  | H : Forall _ [] |- _ => clear H
  end.

(** What the closed form gives for the scalars [xs] of a frame of a
    silent run and the scalars [ys] of the frame after it. *)
Lemma silent_frame_facts (s : LiveAnalyzer) (n : nat) (xs ys : list Q) :
  inRange s ->
  Forall2 Qeq xs (decayed n (smoothedState s)) ->
  Forall2 Qeq ys (decayed (S n) (smoothedState s)) ->
  Forall (fun x => 0 <= x <= 1) xs /\
  Forall2 Qle xs (smoothedState s) /\
  Forall2 Qle ys xs /\
  Forall (fun x => x * (9 + inject_Z (Z.of_nat n)) <= 9) xs.
Proof.
  unfold inRange, smoothedState, decayed, retentions.
  cbn [combine map fst snd].
  intros Hr Hf Hg. inv_Forall.
  repeat match goal with
  | H : ?a == ?x * retained ?r n |- _ =>
      match goal with
      | Hx : 0 <= x <= 1 |- _ =>
          let F := fresh "F" in
          let G := fresh "G" in
          assert (F : 0 <= r <= 0.9) by (split; discriminate);
          pose proof (decay_elem x r n Hx F) as G; cbn [retained] in G; clear F;
          revert H
      end
  end.
  intros.
  repeat split; repeat (constructor; [|]); try constructor;
    repeat match goal with H : _ /\ _ |- _ => destruct H end;
    repeat match goal with H : _ == _ |- _ => rewrite H; clear H end;
    try assumption; try (split; assumption).
Qed.

Lemma Forall2_Qeq_refl (xs : list Q) : Forall2 Qeq xs xs.
Proof. induction xs; constructor; [reflexivity|assumption]. Qed.

Lemma settleFrames_enough (eps : Q) (k : nat) :
  0 < eps -> (settleFrames eps <= k)%nat ->
  9 < eps * (9 + inject_Z (Z.of_nat (S k))).
Proof.
  intros He Hk. unfold settleFrames in Hk.
  assert (H1 : 9 / eps <= inject_Z (Z.of_nat k)).
  { eapply Qle_trans; [apply Qle_ceiling|].
    rewrite <- Zle_Qle. lia. }
  assert (H2 : 9 <= eps * inject_Z (Z.of_nat k)).
  { apply (Qmult_le_l _ _ eps He) in H1.
    rewrite Qmult_div_r in H1; [exact H1|]. intro E. rewrite E in He. discriminate. }
  rewrite Nat2Z.inj_succ. unfold Z.succ. rewrite inject_Z_plus.
  change (inject_Z 1) with 1. lra.
Qed.

Lemma silent_settles : SettlesAt silenceFloors.
Proof.
  intros eps He. exists (settleFrames eps).
  intros s inputs Hl Hp Hr Hs k f Hk Hf.
  pose proof (ticks_silent inputs s Hl Hp Hs k f Hf) as Hc.
  destruct (silent_frame_facts s (S k) (smoothedFrame f)
              (decayed (S (S k)) (smoothedState s)) Hr Hc (Forall2_Qeq_refl _))
    as (H01 & _ & _ & Hb).
  pose proof (settleFrames_enough eps k He Hk) as Hn.
  assert (Hpos : 0 < 9 + inject_Z (Z.of_nat (S k))).
  { assert (0 <= inject_Z (Z.of_nat (S k))) by (apply inject_Z_nonneg; lia). lra. }
  unfold smoothedFrame, silenceFloors in *. inv_Forall.
  repeat (constructor; [|]); try constructor;
    apply Qabs_Qlt_condition;
    match goal with
    | |- _ < ?x - 0 < _ =>
        match goal with
        | H1 : 0 <= x <= 1, H2 : x * _ <= 9 |- _ =>
            assert (x < eps) by
              (apply (Qmult_lt_r _ _ _ Hpos); lra); lra
        end
    end.
Qed.

Lemma zeros_silent (bins : nat) : (0 < bins)%nat -> silent (zeros bins).
Proof.
  intros Hb. split.
  - destruct bins; [lia|discriminate].
  - apply Forall_forall. intros v Hv. now apply repeat_spec in Hv.
Qed.

Lemma silence1024_silent (n : nat) : silentInputs (silence1024 n).
Proof.
  unfold silentInputs, silence1024. apply Forall_forall. intros [t d] Hin.
  apply in_map_iff in Hin. destruct Hin as (k & Hk & _).
  apply (f_equal snd) in Hk. cbn [snd] in *. subst d.
  apply zeros_silent. apply Nat.lt_0_succ.
Qed.

Lemma liveStart_ok : live liveStart /\ prevOk liveStart /\ inRange liveStart.
Proof.
  split; [now split|]. split; [exact I|].
  unfold inRange, liveStart, freshAnalyzer, smoothedState.
  cbn [smSubBass smBass smMids smHighs smBrilliance smCentroid smFlux smRolloff smZCR].
  repeat constructor; discriminate.
Qed.

Lemma inject_Z_byte (v : Z) : (0 <= v <= 255)%Z -> 0 <= inject_Z v <= 255.
Proof. intros Hv. split; [apply inject_Z_nonneg; lia|]. unfold Qle. simpl. lia. Qed.

Lemma accumulate_inv (hzPerBin : Q) (i : Z) (v prev : Q) (a : Sums) :
  0 <= v <= 255 -> 0 <= prev -> sumsInv i a ->
  sumsInv (i + 1) (accumulate hzPerBin i v prev a).
Proof.
  intros Hv Hp (Hi & A1 & A2 & A3 & A4 & A5 & A6 & A7 & A8 & A9 & A10 & W0 & W1 & T0 & F0 & F1).
  assert (Hf : 0 <= Qmax 0 (v - prev) <= 255).
  { split; [apply Q.le_max_l|]. apply Q.max_lub; lra. }
  assert (Hk : 0 <= inject_Z i) by now apply inject_Z_nonneg.
  assert (Hiv : 0 <= inject_Z i * v) by (apply Qmult_le_0_compat; lra).
  unfold accumulate, sumsInv.
  rewrite inject_Z_plus. change (inject_Z 1) with 1.
  destruct (Qltb _ 60); [|destruct (Qltb _ 250); [|destruct (Qltb _ 2000);
    [|destruct (Qltb _ 6000)]]];
    cbn [subBassSum subBassCount bassSum bassCount midsSum midsCount highsSum highsCount
         brillSum brillCount weightedBinSum totalMag fluxSum];
    (split; [lia|]); repeat split; try lra; nra.
Qed.

Lemma accumulateFrom_inv (hzPerBin : Q) (prev : option (list Z)) (data : list Z) :
  match prev with Some p => Forall (fun v => (0 <= v <= 255)%Z) p | None => True end ->
  bytes data ->
  forall i a, sumsInv i a ->
    sumsInv (i + Z.of_nat (length data)) (accumulateFrom hzPerBin prev i data a).
Proof.
  intros Hprev Hall. induction Hall as [|v rest Hv _ IH]; intros i a Ha; cbn [accumulateFrom length].
  - now rewrite Z.add_0_r.
  - replace (i + Z.of_nat (S (length rest)))%Z with (i + 1 + Z.of_nat (length rest))%Z by lia.
    apply IH. apply accumulate_inv; [now apply inject_Z_byte|now apply prevAt_nonneg|exact Ha].
Qed.

Lemma sumsOf_inv (s : LiveAnalyzer) (data : list Z) :
  prevOk s -> bytes data -> sumsInv (Z.of_nat (length data)) (sumsOf s data).
Proof.
  intros Hp Hb. unfold sumsOf.
  apply (accumulateFrom_inv _ _ data Hp Hb 0%Z zeroSums).
  unfold sumsInv, zeroSums. cbn. repeat split; try discriminate; lia.
Qed.

Lemma div_nonneg (x y : Q) : 0 <= x -> 0 <= y -> 0 <= x / y.
Proof.
  intros Hx Hy. unfold Qdiv. apply Qmult_le_0_compat; [exact Hx|].
  now apply Qinv_le_0_compat.
Qed.

Lemma div_le_1 (x y : Q) : 0 < y -> x <= y -> x / y <= 1.
Proof. intros Hy Hxy. apply Qle_shift_div_r; lra. Qed.

Lemma Qmin1_range (x : Q) : 0 <= x -> 0 <= Qmin 1 x <= 1.
Proof.
  intros Hx. split; [|apply Q.le_min_l]. apply Q.min_glb; [discriminate|exact Hx].
Qed.

Lemma normBand_range (sum count amp : Q) :
  0 <= sum -> 0 <= count -> 0 <= amp -> 0 <= normBand sum count amp <= 1.
Proof.
  intros Hs Hc Ha. unfold normBand. destruct (Qeq_bool count 0); [split; discriminate|].
  apply Qmin1_range. apply Qmult_le_0_compat; [|exact Ha].
  apply div_nonneg; [|discriminate]. now apply div_nonneg.
Qed.

Lemma avgBand_nonneg (sum count : Q) : 0 <= sum -> 0 <= count -> 0 <= avgBand sum count.
Proof.
  intros Hs Hc. unfold avgBand. destruct (Qeq_bool count 0); [discriminate|].
  now apply div_nonneg.
Qed.

Lemma rolloffFrom_range (target : Q) (data : list Z) :
  forall i acc, (0 <= i)%Z ->
    (0 <= rolloffFrom target i acc data <= i + Z.of_nat (length data))%Z.
Proof.
  induction data as [|v rest IH]; intros i acc Hi; cbn [rolloffFrom length]; [lia|].
  destruct (Qgeb _ _); [lia|].
  specialize (IH (i + 1)%Z (acc + inject_Z v)). lia.
Qed.

(** A weighted mean of two values of [0, 1] is in [0, 1]. *)
Lemma ema_range (x sample keep take : Q) :
  0 <= x <= 1 -> 0 <= sample <= 1 -> 0 <= keep -> 0 <= take -> keep + take == 1 ->
  0 <= x * keep + sample * take <= 1.
Proof.
  intros Hx Hs Hk Ht E.
  assert (0 <= x * keep) by (apply Qmult_le_0_compat; lra).
  assert (0 <= (1 - x) * keep) by (apply Qmult_le_0_compat; lra).
  assert (0 <= sample * take) by (apply Qmult_le_0_compat; lra).
  assert (0 <= (1 - sample) * take) by (apply Qmult_le_0_compat; lra).
  lra.
Qed.

Lemma lengthQ_pos {A} (l : list A) : l <> [] -> 0 < lengthQ l.
Proof.
  intros Hne. unfold lengthQ. destruct l as [|x l]; [congruence|].
  cbn [length]. unfold Qlt. simpl. lia.
Qed.

(** A tick on bytes keeps the analyzer well formed, and its frame has
    every smoothed scalar and the onset density in [0, 1]. *)
Lemma tick_wellFormed (t : Q) (data : list Z) (s : LiveAnalyzer) :
  wellFormed s -> data <> [] -> bytes data ->
  wellFormed (fst (tick t data s)) /\ frameScalarsInRange (snd (tick t data s)).
Proof.
  intros (Hr & Hod & Hp) Hne Hb.
  unfold inRange, smoothedState in Hr. inv_Forall.
  unfold tick. destruct (negb (attached s) || negb (running s)).
  - cbn [fst snd]. split.
    + split; [|now split]. unfold inRange, smoothedState.
      repeat (apply Forall_cons; [assumption|]). apply Forall_nil.
    + unfold frameScalarsInRange, smoothedFrame, zeroFrame.
      cbn [subBass bass mids highs brilliance centroid flux rolloff zcr onsetDensity].
      split; [|split; discriminate].
      repeat (apply Forall_cons; [first [assumption|split; discriminate]|]).
      apply Forall_nil.
  - pose proof (sumsOf_inv s data Hp Hb)
      as (Hi & A1 & A2 & A3 & A4 & A5 & A6 & A7 & A8 & A9 & A10 & W0 & W1 & T0 & F0 & F1).
    pose proof (lengthQ_pos data Hne) as HN. unfold lengthQ in W1, F1. fold (lengthQ data) in W1, F1.
    set (a := sumsOf s data) in *. set (N := lengthQ data) in *.
    assert (Hamp : 0 <= match mode s with LiveCapture => 2.0 | _ => 4.0 end)
      by (destruct (mode s); discriminate).
    assert (Rc : 0 <= (if Qgtb (totalMag a) 0
                       then weightedBinSum a / totalMag a / N else 0) <= 1).
    { destruct (Qgtb (totalMag a) 0) eqn:E; [|split; discriminate]. qbool. split.
      - apply div_nonneg; [|lra]. apply div_nonneg; lra.
      - apply div_le_1; [exact HN|]. apply Qle_shift_div_r; lra. }
    assert (Rf : 0 <= fluxSum a / (N * 255) <= 1).
    { split; [apply div_nonneg; [lra|]|apply div_le_1; [|lra]];
        try (apply Qmult_le_0_compat; lra).
      apply Qmult_lt_0_compat; [exact HN|reflexivity]. }
    assert (Rr : 0 <= (if Qgtb N 0
                       then inject_Z (rolloffFrom (totalMag a * 0.85) 0 0 data) / N
                       else 0) <= 1).
    { destruct (Qgtb N 0); [|split; discriminate].
      pose proof (rolloffFrom_range (totalMag a * 0.85) data 0 0 (Z.le_refl 0)) as [R0 R1].
      split.
      - apply div_nonneg; [now apply inject_Z_nonneg|lra].
      - apply div_le_1; [exact HN|]. unfold N, lengthQ. rewrite <- Zle_Qle. lia. }
    assert (Rz : 0 <= (if Qgtb (totalMag a / N) 0
                       then Qmin 1 (avgBand (brillSum a) (brillCount a) / (totalMag a / N) * 3.0)
                       else 0) <= 1).
    { destruct (Qgtb (totalMag a / N) 0) eqn:E; [|split; discriminate]. qbool.
      apply Qmin1_range. apply Qmult_le_0_compat; [|discriminate].
      apply div_nonneg; [now apply avgBand_nonneg|lra]. }
    cbv zeta. cbn [fst snd]. fold a N.
    unfold wellFormed, inRange, frameScalarsInRange, smoothedState, smoothedFrame, prevOk.
    cbn [smSubBass smBass smMids smHighs smBrilliance smCentroid smFlux smRolloff smZCR
         onsetDensitySmooth prevDataArray
         subBass bass mids highs brilliance centroid flux rolloff zcr onsetDensity].
    assert (Hema : forall x sample keep take,
               0 <= x <= 1 -> 0 <= sample <= 1 -> Qle_bool 0 keep = true ->
               Qle_bool 0 take = true -> Qeq_bool (keep + take) 1 = true ->
               0 <= x * keep + sample * take <= 1).
    { intros x sample keep take Hx Hs Hk Ht E. apply ema_range; try assumption.
      - now apply Qle_bool_iff. - now apply Qle_bool_iff. - now apply Qeq_bool_iff. }
    assert (Hany : forall c : bool, 0 <= (if c then 1 else 0) <= 1)
      by (intros [|]; split; discriminate).
    assert (Hall : Forall (fun x => 0 <= x <= 1)
      [smSubBass s * 0.85 + normBand (subBassSum a) (subBassCount a)
                              match mode s with LiveCapture => 2.0 | _ => 4.0 end * (1 - 0.85);
       smBass s * 0.85 + normBand (bassSum a) (bassCount a)
                           match mode s with LiveCapture => 2.0 | _ => 4.0 end * (1 - 0.85);
       smMids s * 0.85 + normBand (midsSum a) (midsCount a)
                           match mode s with LiveCapture => 2.0 | _ => 4.0 end * (1 - 0.85);
       smHighs s * 0.85 + normBand (highsSum a) (highsCount a)
                            match mode s with LiveCapture => 2.0 | _ => 4.0 end * (1 - 0.85);
       smBrilliance s * 0.85 + normBand (brillSum a) (brillCount a)
                                 match mode s with LiveCapture => 2.0 | _ => 4.0 end * (1 - 0.85);
       smCentroid s * 0.88
       + (if Qgtb (totalMag a) 0 then weightedBinSum a / totalMag a / N else 0) * 0.12;
       smFlux s * 0.70 + fluxSum a / (N * 255) * 0.30;
       smRolloff s * 0.90
       + (if Qgtb N 0 then inject_Z (rolloffFrom (totalMag a * 0.85) 0 0 data) / N else 0)
         * 0.10;
       smZCR s * 0.88
       + (if Qgtb (totalMag a / N) 0
          then Qmin 1 (avgBand (brillSum a) (brillCount a) / (totalMag a / N) * 3.0)
          else 0) * 0.12]).
    { repeat (apply Forall_cons; [apply Hema; try assumption; try reflexivity;
                                  now apply normBand_range|]).
      apply Forall_nil. }
    split; [split; [exact Hall|split]|split; [exact Hall|]].
    + apply Hema; try assumption; try reflexivity. apply Hany.
    + eapply Forall_impl; [|exact Hb]. intros v Hv. exact Hv.
    + apply Hema; try assumption; try reflexivity. apply Hany.
Qed.

Lemma freshAnalyzer_wellFormed (att run : bool) (rate : Q) (m : AudioSourceMode) :
  wellFormed (freshAnalyzer att run rate m).
Proof.
  unfold wellFormed, inRange, prevOk, freshAnalyzer, smoothedState.
  cbn [smSubBass smBass smMids smHighs smBrilliance smCentroid smFlux smRolloff smZCR
       onsetDensitySmooth prevDataArray].
  split; [|split; [split; discriminate|exact I]].
  repeat (apply Forall_cons; [split; discriminate|]). apply Forall_nil.
Qed.

(** Every analyzer reached by ticks on bytes is well formed, and every
    frame on the way has its scalars in range. *)
Lemma ticks_wellFormed (inputs : list (Q * list Z)) :
  forall s, wellFormed s -> byteInputs inputs ->
  wellFormed (fst (ticks inputs s)) /\
  Forall frameScalarsInRange (snd (ticks inputs s)).
Proof.
  induction inputs as [|[t d] rest IH]; intros s Hs Hall.
  - split; [exact Hs|constructor].
  - inversion Hall as [|? ? [Hne Hb] Hrest]; subst. cbn [snd] in Hne, Hb.
    rewrite ticks_cons. cbn [fst snd].
    destruct (tick_wellFormed t d s Hs Hne Hb) as [Hs1 Hf].
    destruct (IH _ Hs1 Hrest) as [Hs2 Hfs].
    split; [exact Hs2|now constructor].
Qed.

(** C1 (as the code has it). On all-zero frequency data every smoothed
    scalar of the frame is the value the analyzer held times its retention
    to the number of frames: it stays in [0, 1], never increases, and comes
    within any tolerance of 0 after a number of frames that depends on the
    tolerance alone.  The floor is 0 for the rolloff as well.  The analyzer
    the run starts from is any one with its scalars in [0, 1], as every
    analyzer reached from a fresh one by ticks on bytes is. *)
Theorem silence_decay :
  (forall s inputs, live s -> prevOk s -> inRange s -> silentInputs inputs ->
     let frames := snd (ticks inputs s) in
     length frames = length inputs /\
     (forall k f, nth_error frames k = Some f ->
        Forall2 Qeq (smoothedFrame f) (decayed (S k) (smoothedState s)) /\
        Forall (fun x => 0 <= x <= 1) (smoothedFrame f) /\
        Forall2 Qle (smoothedFrame f) (smoothedState s)) /\
     (forall k f g, nth_error frames k = Some f -> nth_error frames (S k) = Some g ->
        Forall2 Qle (smoothedFrame g) (smoothedFrame f))) /\
  SettlesAt silenceFloors /\
  (forall att run rate m inputs, byteInputs inputs ->
     let s := fst (ticks inputs (freshAnalyzer att run rate m)) in
     prevOk s /\ inRange s).
Proof.
  split; [|split; [exact silent_settles|]];
    [|intros att run rate m inputs Hin;
      destruct (ticks_wellFormed inputs _ (freshAnalyzer_wellFormed att run rate m) Hin)
        as [(Hr & _ & Hp) _]; now split].
  intros s inputs Hl Hp Hr Hs frames. split; [apply ticks_length|]. split.
  - intros k f Hf.
    pose proof (ticks_silent inputs s Hl Hp Hs k f Hf) as Hc.
    split; [exact Hc|].
    destruct (silent_frame_facts s (S k) (smoothedFrame f)
                (decayed (S (S k)) (smoothedState s)) Hr Hc (Forall2_Qeq_refl _))
      as (H01 & Hle & _ & _).
    now split.
  - intros k f g Hf Hg.
    pose proof (ticks_silent inputs s Hl Hp Hs k f Hf) as Hcf.
    pose proof (ticks_silent inputs s Hl Hp Hs (S k) g Hg) as Hcg.
    now destruct (silent_frame_facts s (S k) _ _ Hr Hcf Hcg) as (_ & _ & Hm & _).
Qed.

Lemma silence_decay_witness :
  exists f, nth_error (snd (ticks (silence1024 2) liveStart)) 1 = Some f /\
            Forall (fun x => 0 <= x <= 1) (smoothedFrame f).
Proof.
  destruct liveStart_ok as (Hl & Hp & Hr).
  destruct (proj1 silence_decay liveStart (silence1024 2) Hl Hp Hr (silence1024_silent 2))
    as (Hlen & Hframes & _).
  destruct (nth_error (snd (ticks (silence1024 2) liveStart)) 1) as [f|] eqn:E.
  - exists f. split; [reflexivity|]. now apply (Hframes 1%nat f).
  - apply nth_error_None in E. rewrite Hlen in E. simpl in E. lia.
Defined.

(** C1 as stated fails: on silence the rolloff does not settle at 0.3;
    from the reset value 0.3 it is at most 0.27 from the first frame on. *)
Lemma silence_rolloff_floor_counterexample : ~ SettlesAt claimedFloors.
Proof.
  intros Hclaim. destruct (Hclaim 0.01) as [N HN]; [reflexivity|].
  destruct liveStart_ok as (Hl & Hp & Hr).
  pose proof (silence1024_silent (S N)) as Hs.
  destruct (nth_error (snd (ticks (silence1024 (S N)) liveStart)) N) as [f|] eqn:E.
  - specialize (HN liveStart _ Hl Hp Hr Hs N f (Nat.le_refl N) E).
    pose proof (ticks_silent _ _ Hl Hp Hs N f E) as Hc.
    unfold smoothedFrame, claimedFloors, decayed, retentions, smoothedState in HN, Hc.
    cbn [combine map fst snd] in Hc. inv_Forall.
    match goal with H : Qabs (rolloff f - 0.3) < 0.01 |- _ =>
      apply Qabs_Qlt_condition in H; rename H into Habs end.
    match goal with H : rolloff f == _ |- _ => rename H into Hroll end.
    cbn [retained liveStart freshAnalyzer smRolloff] in Hroll.
    assert (Hret : retained 0.90 N <= 1)
      by (apply retained_le_1; split; discriminate).
    lra.
  - apply nth_error_None in E. rewrite ticks_length in E.
    unfold silence1024 in E. rewrite length_map, length_seq in E. lia.
Qed.










Lemma tick_keeps_live (t : Q) (data : list Z) (s : LiveAnalyzer) :
  live s -> live (fst (tick t data s)).
Proof.
  intros [Ha Hr]. unfold tick. rewrite Ha, Hr. cbn [negb orb]. cbv zeta.
  now split.
Qed.




Lemma spikeRun_sorted : StronglySorted Qle (map fst spikeRun).
Proof. unfold spikeRun. cbn [map fst]. repeat constructor. discriminate. Qed.

Lemma spikeRun_frame (k : nat) :
  (k < 2)%nat ->
  nth_error (snd (ticks spikeRun liveStart)) k
  = Some (nth k (snd (ticks spikeRun liveStart)) (zeroFrame liveStart)).
Proof.
  intros Hk. apply nth_error_nth'. now rewrite ticks_length.
Qed.





Lemma tick_tempo (t : Q) (data : list Z) (s : LiveAnalyzer) :
  live s ->
  tempoOf (fst (tick t data s))
  = (if beatFired (snd (tick t data s)) then tempoOnBeat t (tempoOf s) else tempoOf s) /\
  bpm (snd (tick t data s)) = _bpm (fst (tick t data s)).
Proof.
  intros [Ha Hr]. unfold tick. rewrite Ha, Hr. cbn [negb orb]. cbv zeta.
  cbn [fst snd beatFired bpm]. unfold tempoOf at 1.
  cbn [lastBeatTime beatIntervals _bpm].
  split; [|reflexivity].
  match goal with |- context [if ?c then _ else _] => destruct c end;
    [now destruct (tempoOnBeat t (tempoOf s))|reflexivity].
Qed.


(** The ring after a push: what [push] and [shift] leave is the last 8. *)
Lemma ring_lastN (l : list Q) (x : Q) :
  (length l <= 8)%nat ->
  (if (8 <? length (l ++ [x]))%nat then tl (l ++ [x]) else l ++ [x]) = lastN 8 (l ++ [x]).
Proof.
  intros Hl. unfold lastN. rewrite length_app. cbn [length].
  destruct (Nat.ltb_spec 8 (length l + 1)) as [H|H].
  - replace (length l + 1 - 8)%nat with 1%nat by lia. reflexivity.
  - replace (length l + 1 - 8)%nat with 0%nat by lia. reflexivity.
Qed.

(** What a beat at wall time [t] does to the tempo state. *)
Lemma tempoOnBeat_spec (t : Q) (tp : Tempo) :
  (length (t_intervals tp) <= 8)%nat ->
  let tp' := tempoOnBeat t tp in
  let ring := lastN 8 (t_intervals tp ++ [t - t_lastBeatTime tp]) in
  t_lastBeatTime tp' = t /\
  (length (t_intervals tp') <= 8)%nat /\
  (gapRecorded t tp ->
     t_intervals tp' = ring /\
     ((2 <= length ring)%nat -> t_bpm tp' = jsRound (60 / (sumQ ring / lengthQ ring))) /\
     ((length ring < 2)%nat -> t_bpm tp' = t_bpm tp)) /\
  (~ gapRecorded t tp -> t_intervals tp' = t_intervals tp /\ t_bpm tp' = t_bpm tp).
Proof.
  intros Hlen. cbv zeta. unfold tempoOnBeat, gapRecorded.
  destruct (Qgeb (t_lastBeatTime tp) 0) eqn:E0.
  - destruct (Qltb (t - t_lastBeatTime tp) 2.0) eqn:E1.
    + rewrite ring_lastN by exact Hlen.
      set (ring := lastN 8 (t_intervals tp ++ [t - t_lastBeatTime tp])).
      assert (Hring : (length ring <= 8)%nat).
      { unfold ring, lastN. rewrite length_skipn. lia. }
      destruct (Nat.leb_spec 2 (length ring)) as [H2|H2];
        cbn [t_lastBeatTime t_intervals t_bpm];
        (split; [reflexivity|]); (split; [exact Hring|]); split.
      * intros _. split; [reflexivity|]. split; [reflexivity|lia].
      * intros Hn. exfalso. apply Hn. unfold Qgeb in E0. qbool. split; lra.
      * intros _. split; [reflexivity|]. split; [lia|reflexivity].
      * intros Hn. exfalso. apply Hn. unfold Qgeb in E0. qbool. split; lra.
    + cbn [t_lastBeatTime t_intervals t_bpm].
      split; [reflexivity|]. split; [exact Hlen|]. split.
      * intros [_ H]. qbool. lra.
      * auto.
  - cbn [t_lastBeatTime t_intervals t_bpm].
    split; [reflexivity|]. split; [exact Hlen|]. split.
    + intros [H _]. unfold Qgeb in E0. qbool. lra.
    + auto.
Qed.



#[export] Instance jsRound_comp : Proper (Qeq ==> eq) jsRound.
Proof. intros x y Hxy. unfold jsRound. now rewrite Hxy. Qed.

Lemma lastN_Forall {A} (P : A -> Prop) (n : nat) (l : list A) :
  Forall P l -> Forall P (lastN n l).
Proof.
  intros H. unfold lastN. rewrite <- (firstn_skipn (length l - n) l) in H.
  apply Forall_app in H. tauto.
Qed.









(** ** Bands, rolloff, flux, beats and tempo over ticks; [disposeSource] *)

(** The beat flag and the confidence of a tick that analyses. *)
Lemma tick_beat (t : Q) (data : list Z) (s : LiveAnalyzer) :
  live s ->
  let bassAvg := pb_bass (rawBandsOf (sumsOf s data)) in
  let thr := Qmax 6 ((rollingBass s * 0.94 + bassAvg * 0.06) * 1.4) in
  let gapOk := Qltb (lastBeatTime s) 0 || Qgtb (t - lastBeatTime s) 0.18 in
  beatFired (snd (tick t data s)) = Qgtb bassAvg thr && gapOk /\
  beatConfidence (snd (tick t data s))
  = (if Qgtb bassAvg thr && gapOk then Qmin 1 ((bassAvg - thr) / Qmax 1 thr) else 0).
Proof.
  intros [Ha Hr]. unfold tick. rewrite Ha, Hr. cbn [negb orb]. cbv zeta.
  cbn [fst snd beatFired beatConfidence]. split; reflexivity.
Qed.

(** X3. The beat confidence of every frame is in [0, 1], and it is
    positive exactly on the frames in which a beat fired. *)
Theorem beat_confidence (t : Q) (data : list Z) (s : LiveAnalyzer) :
  let f := snd (tick t data s) in
  0 <= beatConfidence f <= 1 /\
  (beatFired f = true <-> 0 < beatConfidence f).
Proof.
  cbv zeta.
  destruct (attached s) eqn:Ha; [destruct (running s) eqn:Hr|].
  - destruct (tick_beat t data s (conj Ha Hr)) as [Hf Hc]. cbv zeta in Hf, Hc.
    rewrite Hf, Hc.
    set (bassAvg := pb_bass (rawBandsOf (sumsOf s data))).
    set (thr := Qmax 6 ((rollingBass s * 0.94 + bassAvg * 0.06) * 1.4)).
    destruct (Qgtb bassAvg thr) eqn:E; cbn [andb].
    + destruct (Qltb (lastBeatTime s) 0 || Qgtb (t - lastBeatTime s) 0.18).
      * qbool.
        assert (Hd : 0 < Qmax 1 thr).
        { apply Qlt_le_trans with 1; [reflexivity|apply Q.le_max_l]. }
        assert (Hq : 0 < (bassAvg - thr) / Qmax 1 thr).
        { apply Qlt_shift_div_l; [exact Hd|lra]. }
        assert (Hm : 0 < Qmin 1 ((bassAvg - thr) / Qmax 1 thr)).
        { apply Q.min_glb_lt; [reflexivity|exact Hq]. }
        split; [split; [lra|apply Q.le_min_l]|]. split; [intros _; exact Hm|reflexivity].
      * split; [split; discriminate|]. split; [discriminate|intros H; inversion H].
    + split; [split; discriminate|]. split; [discriminate|intros H; inversion H].
  - unfold tick. rewrite Ha, Hr. cbn.
    split; [split; discriminate|]. split; [discriminate|intros H; inversion H].
  - unfold tick. rewrite Ha. cbn.
    split; [split; discriminate|]. split; [discriminate|intros H; inversion H].
Qed.

Lemma tick_lastBeatTime (t : Q) (data : list Z) (s : LiveAnalyzer) :
  live s ->
  lastBeatTime (fst (tick t data s))
  = (if beatFired (snd (tick t data s)) then t else lastBeatTime s).
Proof.
  intros Hl. destruct (tick_tempo t data s Hl) as [Ht _].
  change (lastBeatTime (fst (tick t data s)))
    with (t_lastBeatTime (tempoOf (fst (tick t data s)))).
  rewrite Ht. now destruct (beatFired _).
Qed.

(** While no tick comes before wall time [L], itself not negative, and
    the last beat is not before [L] either, a beat fires more than 180 ms
    after [L]. *)
Lemma beat_after (L : Q) (inputs : list (Q * list Z)) :
  forall s, live s -> 0 <= L -> L <= lastBeatTime s ->
  Forall (fun i => L <= fst i) inputs ->
  forall j tj dj fj,
    nth_error inputs j = Some (tj, dj) ->
    nth_error (snd (ticks inputs s)) j = Some fj ->
    beatFired fj = true ->
    0.18 < tj - L.
Proof.
  induction inputs as [|[t d] rest IH]; intros s Hl H0 HL Hall j tj dj fj Hin Hfr Hon.
  - now destruct j.
  - rewrite ticks_cons in Hfr. cbn [snd] in Hfr.
    inversion Hall as [|? ? Ht Hrest]; subst. cbn [fst] in Ht.
    destruct (tick_beat t d s Hl) as [Hf _]. cbv zeta in Hf.
    pose proof (tick_lastBeatTime t d s Hl) as Hlast.
    destruct j as [|j]; simpl in Hin, Hfr.
    + inversion Hin; subst. inversion Hfr; subst.
      rewrite Hf in Hon. apply andb_true_iff in Hon. destruct Hon as [_ Hgap].
      apply orb_true_iff in Hgap. destruct Hgap as [Hneg|Hgap]; qbool; lra.
    + apply (IH (fst (tick t d s))) with (j := j) (dj := dj) (fj := fj); try assumption.
      * now apply tick_keeps_live.
      * rewrite Hlast. now destruct (beatFired (snd (tick t d s))).
Qed.

(** X4. Over ticks in wall-time order, two frames in which a beat fired
    are more than 180 ms apart, the first of them at a wall time that is
    not negative (a negative last-beat time stands for no beat yet). *)
Theorem beat_refractory (inputs : list (Q * list Z)) :
  forall s, live s -> StronglySorted Qle (map fst inputs) ->
  forall i j ti di tj dj fi fj,
    (i < j)%nat ->
    nth_error inputs i = Some (ti, di) -> nth_error inputs j = Some (tj, dj) ->
    nth_error (snd (ticks inputs s)) i = Some fi ->
    nth_error (snd (ticks inputs s)) j = Some fj ->
    0 <= ti ->
    beatFired fi = true -> beatFired fj = true ->
    0.18 < tj - ti.
Proof.
  induction inputs as [|[t d] rest IH];
    intros s Hl Hs i j ti di tj dj fi fj Hij Hi Hj Hfi Hfj H0 Hoi Hoj.
  - now destruct i.
  - rewrite ticks_cons in Hfi, Hfj. cbn [snd] in Hfi, Hfj.
    cbn [map fst] in Hs. inversion Hs as [|? ? Hs' Hall]; subst.
    destruct j as [|j]; [lia|]. simpl in Hj, Hfj.
    destruct i as [|i]; simpl in Hi, Hfi.
    + inversion Hi; subst. inversion Hfi; subst.
      pose proof (tick_lastBeatTime ti di s Hl) as Hlast. rewrite Hoi in Hlast.
      apply (beat_after ti rest (fst (tick ti di s))) with (j := j) (dj := dj) (fj := fj);
        try assumption.
      * now apply tick_keeps_live.
      * rewrite Hlast. apply Qle_refl.
      * rewrite Forall_map in Hall. exact Hall.
    + apply (IH (fst (tick t d s))) with (i := i) (j := j) (ti := ti) (di := di) (dj := dj)
                                         (fi := fi) (fj := fj); try assumption.
      * now apply tick_keeps_live.
      * lia.
Qed.

(** *** The tempo estimate stays in range *)

Lemma fold_Qplus_bounds (lo hi : Q) (l : list Q) :
  Forall (fun x => lo <= x <= hi) l ->
  forall a, a + lo * lengthQ l <= fold_left Qplus l a <= a + hi * lengthQ l.
Proof.
  unfold lengthQ.
  induction 1 as [|x l Hx _ IH]; intros a; cbn [fold_left length].
  - change (inject_Z (Z.of_nat 0)) with 0. split; lra.
  - specialize (IH (a + x)). rewrite Nat2Z.inj_succ. unfold Z.succ. rewrite inject_Z_plus.
    change (inject_Z 1) with 1. lra.
Qed.

Lemma mean_bounds (lo hi : Q) (l : list Q) :
  l <> [] -> Forall (fun x => lo <= x <= hi) l ->
  lo <= sumQ l / lengthQ l <= hi.
Proof.
  intros Hne Hall. pose proof (lengthQ_pos l Hne) as Hpos.
  pose proof (fold_Qplus_bounds lo hi l Hall 0) as [H1 H2]. fold (sumQ l) in H1, H2.
  split.
  - apply Qle_shift_div_l; [exact Hpos|lra].
  - apply Qle_shift_div_r; [exact Hpos|lra].
Qed.

Lemma jsRound_bounds (x : Q) : 30 <= x -> x <= 1000 / 3 -> 30 <= jsRound x <= 333.
Proof.
  intros H1 H2. unfold jsRound. split.
  - change 30 with (inject_Z (Qfloor (30 + 0.5))). rewrite <- Zle_Qle.
    apply Qfloor_resp_le. lra.
  - change 333 with (inject_Z (Qfloor (1000 / 3 + 0.5))). rewrite <- Zle_Qle.
    apply Qfloor_resp_le. lra.
Qed.

Lemma bpm_of_ring (ring : list Q) :
  ring <> [] -> Forall (fun gap => 0.18 < gap < 2) ring ->
  30 <= jsRound (60 / (sumQ ring / lengthQ ring)) <= 333.
Proof.
  intros Hne Hall.
  assert (Hall' : Forall (fun x => 0.18 <= x <= 2) ring).
  { eapply Forall_impl; [|exact Hall]. cbv beta. intros g Hg. lra. }
  destruct (mean_bounds 0.18 2 ring Hne Hall') as [M1 M2].
  set (avg := sumQ ring / lengthQ ring) in *.
  apply jsRound_bounds.
  - apply Qle_shift_div_l; lra.
  - apply Qle_shift_div_r; [lra|].
    setoid_replace (1000 / 3 * avg) with ((1000 # 3) * avg) by reflexivity. lra.
Qed.

(** A beat that passed the gap test keeps the tempo state in order. *)
Lemma tempoOnBeat_ok (t : Q) (tp : Tempo) :
  tempoOk tp ->
  t_lastBeatTime tp < 0 \/ 0.18 < t - t_lastBeatTime tp ->
  tempoOk (tempoOnBeat t tp).
Proof.
  intros (Hlen & Hall & Hbpm) Hgap.
  destruct (tempoOnBeat_spec t tp Hlen) as (_ & Hlen' & Hrec & Hnot). cbv zeta in *.
  destruct (Qlt_le_dec (t_lastBeatTime tp) 0) as [Hneg|Hpos].
  - assert (Hn : ~ gapRecorded t tp) by (unfold gapRecorded; lra).
    destruct (Hnot Hn) as [E1 E2]. unfold tempoOk. rewrite E1, E2. now split.
  - destruct (Qlt_le_dec (t - t_lastBeatTime tp) 2) as [H2|H2].
    + assert (Hg : gapRecorded t tp) by (split; assumption).
      destruct (Hrec Hg) as (Hring & Hb2 & Hb1).
      assert (Hrall : Forall (fun gap => 0.18 < gap < 2)
                        (lastN 8 (t_intervals tp ++ [t - t_lastBeatTime tp]))).
      { apply lastN_Forall. apply Forall_app. split; [exact Hall|].
        constructor; [|constructor]. lra. }
      unfold tempoOk. split; [exact Hlen'|]. rewrite Hring. split; [exact Hrall|].
      destruct (Nat.le_gt_cases 2
                  (length (lastN 8 (t_intervals tp ++ [t - t_lastBeatTime tp])))) as [Hk|Hk].
      * rewrite (Hb2 Hk). apply bpm_of_ring; [|exact Hrall].
        intros E. rewrite E in Hk. simpl in Hk. lia.
      * now rewrite (Hb1 Hk).
    + assert (Hn : ~ gapRecorded t tp) by (unfold gapRecorded; lra).
      destruct (Hnot Hn) as [E1 E2]. unfold tempoOk. rewrite E1, E2. now split.
Qed.

Lemma tick_tempoOk (t : Q) (data : list Z) (s : LiveAnalyzer) :
  tempoOk (tempoOf s) ->
  tempoOk (tempoOf (fst (tick t data s))) /\ 30 <= bpm (snd (tick t data s)) <= 333.
Proof.
  intros Hok.
  destruct (attached s) eqn:Ha; [destruct (running s) eqn:Hr|].
  - pose proof (conj Ha Hr : live s) as Hl.
    destruct (tick_tempo t data s Hl) as [Ht Hb].
    destruct (tick_beat t data s Hl) as [Hf _]. cbv zeta in Hf.
    assert (Hok' : tempoOk (tempoOf (fst (tick t data s)))).
    { rewrite Ht. destruct (beatFired (snd (tick t data s))) eqn:E; [|exact Hok].
      apply tempoOnBeat_ok; [exact Hok|].
      symmetry in Hf. apply andb_true_iff in Hf. destruct Hf as [_ Hg].
      apply orb_true_iff in Hg. cbn [tempoOf t_lastBeatTime].
      destruct Hg as [Hg|Hg]; qbool; [now left|now right]. }
    split; [exact Hok'|]. rewrite Hb. apply Hok'.
  - unfold tick. rewrite Ha, Hr. cbn [negb orb fst snd zeroFrame bpm].
    split; [exact Hok|apply Hok].
  - unfold tick. rewrite Ha. cbn [negb orb fst snd zeroFrame bpm].
    split; [exact Hok|apply Hok].
Qed.

(** X5. The ring of beat gaps holds at most 8 gaps, each between 0.18 s
    and 2 s, and the BPM stays between 30 and 333: ticks keep this true
    whatever the data and the wall times, a fresh analyzer starts with it,
    and [disposeSource] keeps it (the BPM is not reset). *)
Theorem bpm_in_range :
  (forall inputs s, tempoOk (tempoOf s) ->
     tempoOk (tempoOf (fst (ticks inputs s))) /\
     Forall (fun f => 30 <= bpm f <= 333) (snd (ticks inputs s))) /\
  (forall att run rate m, tempoOk (tempoOf (freshAnalyzer att run rate m))) /\
  (forall s, tempoOk (tempoOf s) -> tempoOk (tempoOf (disposeSource s))).
Proof.
  split; [|split].
  - induction inputs as [|[t d] rest IH]; intros s Hok.
    + split; [exact Hok|constructor].
    + rewrite ticks_cons. cbn [fst snd].
      destruct (tick_tempoOk t d s Hok) as [Hok1 Hb].
      destruct (IH _ Hok1) as [Hok2 Hall].
      split; [exact Hok2|now constructor].
  - intros att run rate m. unfold tempoOk, tempoOf, freshAnalyzer.
    cbn [t_intervals t_bpm beatIntervals _bpm length].
    split; [lia|]. split; [constructor|split; discriminate].
  - intros s (_ & _ & Hb). unfold tempoOk, tempoOf, disposeSource in *.
    cbn [t_intervals t_bpm beatIntervals _bpm length] in *.
    split; [lia|]. split; [constructor|exact Hb].
Qed.

(** *** The five bands partition the spectrum *)

Lemma accumulate_partition (hzPerBin : Q) (i : Z) (v prev : Q) (a : Sums) :
  let a' := accumulate hzPerBin i v prev a in
  bandCount a' == bandCount a + 1 /\ bandSum a' == bandSum a + v /\
  totalMag a' == totalMag a + v.
Proof.
  cbv zeta. unfold accumulate, bandCount, bandSum.
  destruct (Qltb _ 60); [|destruct (Qltb _ 250); [|destruct (Qltb _ 2000);
    [|destruct (Qltb _ 6000)]]];
    cbn [subBassSum subBassCount bassSum bassCount midsSum midsCount highsSum highsCount
         brillSum brillCount totalMag];
    repeat split; ring.
Qed.

Lemma accumulateFrom_partition (hzPerBin : Q) (prev : option (list Z)) (data : list Z) :
  forall i a,
    let a' := accumulateFrom hzPerBin prev i data a in
    bandCount a' == bandCount a + lengthQ data /\
    bandSum a' == bandSum a + inject_Z (sumBytes data) /\
    totalMag a' == totalMag a + inject_Z (sumBytes data).
Proof.
  unfold lengthQ.
  induction data as [|v rest IH]; intros i a; cbn [accumulateFrom length sumBytes fold_right].
  - change (inject_Z (Z.of_nat 0)) with 0. change (inject_Z 0) with 0. repeat split; ring.
  - destruct (IH (i + 1)%Z (accumulate hzPerBin i (inject_Z v) (prevAt prev i) a))
      as (C & S & M).
    destruct (accumulate_partition hzPerBin i (inject_Z v) (prevAt prev i) a) as (C1 & S1 & M1).
    cbv zeta in *. fold (sumBytes rest).
    rewrite C, S, M, C1, S1, M1, Nat2Z.inj_succ. unfold Z.succ.
    rewrite !inject_Z_plus. change (inject_Z 1) with 1. repeat split; ring.
Qed.

Lemma sumsOf_total (s : LiveAnalyzer) (data : list Z) :
  totalMag (sumsOf s data) == inject_Z (sumBytes data).
Proof.
  unfold sumsOf.
  destruct (accumulateFrom_partition (sampleRate s / 2 / lengthQ data) (prevDataArray s)
              data 0%Z zeroSums) as (_ & _ & M).
  cbv zeta in M. rewrite M. cbn [zeroSums totalMag]. ring.
Qed.

(** X6. The first loop of [tick] counts every bin in exactly one of the
    five bands: the band counts add up to the number of bins, the band sums
    to the total magnitude, which is the sum of the bytes of the frame. *)
Theorem bands_partition (s : LiveAnalyzer) (data : list Z) :
  let a := sumsOf s data in
  bandCount a == lengthQ data /\
  bandSum a == totalMag a /\
  totalMag a == inject_Z (sumBytes data).
Proof.
  cbv zeta. unfold sumsOf.
  destruct (accumulateFrom_partition (sampleRate s / 2 / lengthQ data) (prevDataArray s)
              data 0%Z zeroSums) as (C & S & M).
  cbv zeta in *. rewrite C, S, M. unfold bandCount, bandSum, zeroSums.
  cbn [subBassSum subBassCount bassSum bassCount midsSum midsCount highsSum highsCount
       brillSum brillCount totalMag].
  repeat split; ring.
Qed.

(** *** The rolloff bin *)

Lemma sumBytes_nonneg (data : list Z) : bytes data -> (0 <= sumBytes data)%Z.
Proof.
  induction 1 as [|v rest Hv _ IH]; cbn [sumBytes fold_right]; [lia|].
  fold (sumBytes rest). lia.
Qed.

Lemma prefix_first (v : Z) (rest : list Z) (i : Z) :
  inject_Z (sumBytes (firstn (Z.to_nat (i - i + 1)) (v :: rest))) == inject_Z v.
Proof.
  rewrite Z.sub_diag. change (Z.to_nat (0 + 1)) with 1%nat.
  cbn [firstn sumBytes fold_right]. now rewrite Z.add_0_r.
Qed.

Lemma rolloffFrom_spec (target : Q) (data : list Z) :
  forall i acc,
    data <> [] ->
    target <= acc + inject_Z (sumBytes data) ->
    let k := rolloffFrom target i acc data in
    (i <= k < i + Z.of_nat (length data))%Z /\
    target <= acc + prefixSum data (k - i) /\
    (forall j, (i <= j < k)%Z -> acc + prefixSum data (j - i) < target).
Proof.
  unfold prefixSum.
  induction data as [|v rest IH]; intros i acc Hne Ht; [congruence|].
  cbn [rolloffFrom length]. cbv zeta.
  destruct (Qgeb (acc + inject_Z v) target) eqn:E.
  - unfold Qgeb in E. qbool.
    split; [lia|]. split.
    + rewrite prefix_first. exact E.
    + intros j Hj. lia.
  - unfold Qgeb in E. qbool.
    cbn [sumBytes fold_right] in Ht. fold (sumBytes rest) in Ht.
    rewrite inject_Z_plus in Ht.
    assert (Hne' : rest <> []).
    { intros ->. cbn in Ht. change (inject_Z 0) with 0 in Ht. lra. }
    destruct (IH (i + 1)%Z (acc + inject_Z v) Hne') as (R1 & R2 & R3); [lra|].
    cbv zeta in R1, R2, R3.
    set (k := rolloffFrom target (i + 1) (acc + inject_Z v) rest) in *.
    assert (Hstep : forall j, (i < j)%Z ->
              acc + inject_Z (sumBytes (firstn (Z.to_nat (j - i + 1)) (v :: rest)))
              == acc + inject_Z v
                 + inject_Z (sumBytes (firstn (Z.to_nat (j - (i + 1) + 1)) rest))).
    { intros j Hj.
      replace (Z.to_nat (j - i + 1)) with (S (Z.to_nat (j - (i + 1) + 1))) by lia.
      cbn [firstn sumBytes fold_right].
      fold (sumBytes (firstn (Z.to_nat (j - (i + 1) + 1)) rest)).
      rewrite inject_Z_plus. ring. }
    split; [lia|]. split.
    + rewrite Hstep by lia. exact R2.
    + intros j Hj. destruct (Z.eq_dec j i) as [->|Hne2].
      * rewrite prefix_first. exact E.
      * rewrite Hstep by lia. apply R3. lia.
Qed.

Lemma rolloffFrom_comp (target target' : Q) (data : list Z) :
  target == target' ->
  forall i acc, rolloffFrom target i acc data = rolloffFrom target' i acc data.
Proof.
  intros Ht. induction data as [|v rest IH]; intros i acc; [reflexivity|].
  cbn [rolloffFrom]. unfold Qgeb. rewrite Ht. now rewrite IH.
Qed.

Lemma tick_rolloff (t : Q) (data : list Z) (s : LiveAnalyzer) :
  live s -> data <> [] ->
  rolloff (snd (tick t data s))
  == smRolloff s * 0.90
     + inject_Z (rolloffFrom (totalMag (sumsOf s data) * 0.85) 0 0 data)
       / lengthQ data * 0.10.
Proof.
  intros [Ha Hr] Hne. unfold tick. rewrite Ha, Hr. cbn [negb orb]. cbv zeta.
  cbn [snd rolloff].
  assert (E : Qgtb (lengthQ data) 0 = true) by (qbool; now apply lengthQ_pos).
  rewrite E. reflexivity.
Qed.

(** X7. On a non-empty frame of bytes the rolloff bin is the first bin at
    which the running sum of the magnitudes reaches 85 % of their total; it
    is a bin of the frame, and the rolloff of the frame is the smoothed
    value moved a tenth of the way to that bin over the number of bins. *)
Theorem rolloff_bin (t : Q) (data : list Z) (s : LiveAnalyzer) :
  live s -> data <> [] -> bytes data ->
  let total := inject_Z (sumBytes data) in
  exists k : Z,
    (0 <= k < Z.of_nat (length data))%Z /\
    total * 0.85 <= prefixSum data k /\
    (forall j, (0 <= j < k)%Z -> prefixSum data j < total * 0.85) /\
    rolloff (snd (tick t data s))
    == smRolloff s * 0.90 + inject_Z k / lengthQ data * 0.10.
Proof.
  intros Hl Hne Hb total.
  exists (rolloffFrom (total * 0.85) 0 0 data).
  assert (Htot : 0 <= total).
  { apply inject_Z_nonneg. now apply sumBytes_nonneg. }
  destruct (rolloffFrom_spec (total * 0.85) data 0%Z 0 Hne) as (R1 & R2 & R3).
  { fold total. lra. }
  cbv zeta in R1, R2, R3. rewrite Z.sub_0_r in R2.
  split; [lia|]. split; [lra|]. split.
  - intros j Hj. specialize (R3 j Hj). rewrite Z.sub_0_r in R3. lra.
  - rewrite (tick_rolloff t data s Hl Hne).
    rewrite (rolloffFrom_comp (totalMag (sumsOf s data) * 0.85) (total * 0.85)).
    + reflexivity.
    + now rewrite sumsOf_total.
Qed.

(** *** Flux is half-wave rectified *)

Lemma accumulate_flux (hzPerBin : Q) (i : Z) (v prev : Q) (a : Sums) :
  fluxSum (accumulate hzPerBin i v prev a) == fluxSum a + Qmax 0 (v - prev).
Proof.
  unfold accumulate.
  destruct (Qltb _ 60); [|destruct (Qltb _ 250); [|destruct (Qltb _ 2000);
    [|destruct (Qltb _ 6000)]]]; cbn [fluxSum]; reflexivity.
Qed.

Lemma accumulateFrom_no_rise (hzPerBin : Q) (data : list Z) :
  forall pre prevRest a,
    Forall2 Z.le data prevRest ->
    fluxSum (accumulateFrom hzPerBin (Some (pre ++ prevRest))
               (Z.of_nat (length pre)) data a)
    == fluxSum a.
Proof.
  induction data as [|v rest IH]; intros pre prevRest a Hall; [reflexivity|].
  inversion Hall as [|? p ? prevRest' Hv Hrest]; subst.
  cbn [accumulateFrom].
  replace (Z.of_nat (length pre) + 1)%Z with (Z.of_nat (length (pre ++ [p])))
    by (rewrite length_app; cbn [length]; lia).
  replace (pre ++ p :: prevRest') with ((pre ++ [p]) ++ prevRest')
    by (now rewrite <- app_assoc).
  rewrite (IH (pre ++ [p]) prevRest' _ Hrest).
  rewrite accumulate_flux.
  assert (Hp : prevAt (Some ((pre ++ [p]) ++ prevRest')) (Z.of_nat (length pre)) = inject_Z p).
  { unfold prevAt. rewrite Nat2Z.id, <- app_assoc. cbn [app]. now rewrite nth_middle. }
  rewrite Hp.
  assert (Hm : Qmax 0 (inject_Z v - inject_Z p) == 0).
  { apply Q.max_l. rewrite Zle_Qle in Hv. lra. }
  rewrite Hm. ring.
Qed.

(** X8. The flux is half-wave rectified: a frame in which no bin is above
    its value in the previous frame adds nothing, and the flux reported is
    the smoothed flux times its retention 0.70. *)
Theorem flux_no_rise (t : Q) (data prev : list Z) (s : LiveAnalyzer) :
  live s -> prevDataArray s = Some prev -> Forall2 Z.le data prev ->
  flux (snd (tick t data s)) == smFlux s * 0.70.
Proof.
  intros [Ha Hr] Hp Hall. unfold tick. rewrite Ha, Hr. cbn [negb orb]. cbv zeta.
  cbn [snd flux]. unfold sumsOf. rewrite Hp.
  pose proof (accumulateFrom_no_rise (sampleRate s / 2 / lengthQ data) data [] prev
                zeroSums Hall) as Hf.
  cbn [app length Z.of_nat] in Hf. rewrite Hf. cbn [zeroSums fluxSum].
  unfold Qdiv. ring.
Qed.

(** X9. After [disposeSource] a tick analyses nothing and leaves the
    analyzer as it is: the frame has every band, flux, rolloff and
    noisiness at the idle values (centroid 0.5, rolloff 0.3), no onset and
    no beat, and still reports the BPM estimated before the dispose. *)
Theorem tick_after_dispose (t : Q) (data : list Z) (s : LiveAnalyzer) :
  let idle := disposeSource s in
  fst (tick t data idle) = idle /\
  smoothedFrame (snd (tick t data idle)) = [0; 0; 0; 0; 0; 0.5; 0; 0.3; 0] /\
  onsets (snd (tick t data idle)) = mkPerBand false false false false /\
  beatFired (snd (tick t data idle)) = false /\
  bpm (snd (tick t data idle)) = _bpm s.
Proof.
  cbv zeta. unfold tick, disposeSource. cbn. repeat split; reflexivity.
Qed.

Lemma spikeRun_beats :
  beatFired (nth 0 (snd (ticks spikeRun liveStart)) (zeroFrame liveStart)) = true /\
  beatFired (nth 1 (snd (ticks spikeRun liveStart)) (zeroFrame liveStart)) = true.
Proof. split; vm_compute; reflexivity. Qed.

Lemma beat_refractory_witness :
  live liveStart /\ StronglySorted Qle (map fst spikeRun) /\
  beatFired (nth 0 (snd (ticks spikeRun liveStart)) (zeroFrame liveStart)) = true /\
  beatFired (nth 1 (snd (ticks spikeRun liveStart)) (zeroFrame liveStart)) = true /\
  0.18 < 0.5 - 0.
Proof.
  split; [exact (conj eq_refl eq_refl)|]. split; [exact spikeRun_sorted|].
  split; [exact (proj1 spikeRun_beats)|]. split; [exact (proj2 spikeRun_beats)|].
  apply (beat_refractory spikeRun liveStart (conj eq_refl eq_refl)
           spikeRun_sorted 0%nat 1%nat 0 bassSpike 0.5 bassSpike
           (nth 0 (snd (ticks spikeRun liveStart)) (zeroFrame liveStart))
           (nth 1 (snd (ticks spikeRun liveStart)) (zeroFrame liveStart))).
  - apply Nat.lt_0_succ.
  - reflexivity.
  - reflexivity.
  - apply spikeRun_frame. apply Nat.lt_0_succ.
  - apply spikeRun_frame. apply Nat.lt_succ_diag_r.
  - apply Qle_refl.
  - exact (proj1 spikeRun_beats).
  - exact (proj2 spikeRun_beats).
Defined.

Lemma liveStart_tempoOk : tempoOk (tempoOf liveStart).
Proof.
  unfold tempoOk, tempoOf, liveStart, freshAnalyzer.
  cbn [t_intervals t_bpm beatIntervals _bpm length].
  split; [apply Nat.le_0_l|]. split; [constructor|split; discriminate].
Qed.

Lemma bpm_in_range_witness :
  tempoOk (tempoOf liveStart) /\
  tempoOk (tempoOf (fst (ticks spikeRun3 liveStart))).
Proof.
  split; [exact liveStart_tempoOk|].
  exact (proj1 (proj1 bpm_in_range spikeRun3 liveStart liveStart_tempoOk)).
Defined.

Lemma rolloff_bin_witness :
  live liveStart /\ [0; 200; 40; 10]%Z <> [] /\ bytes [0; 200; 40; 10]%Z /\
  exists k : Z,
    (0 <= k < Z.of_nat (length [0; 200; 40; 10]%Z))%Z /\
    inject_Z (sumBytes [0; 200; 40; 10]%Z) * 0.85 <= prefixSum [0; 200; 40; 10]%Z k /\
    (forall j, (0 <= j < k)%Z ->
       prefixSum [0; 200; 40; 10]%Z j < inject_Z (sumBytes [0; 200; 40; 10]%Z) * 0.85) /\
    rolloff (snd (tick 0 [0; 200; 40; 10]%Z liveStart))
    == smRolloff liveStart * 0.90 + inject_Z k / lengthQ [0; 200; 40; 10]%Z * 0.10.
Proof.
  assert (Hb : bytes [0; 200; 40; 10]%Z) by (repeat constructor; discriminate).
  assert (Hne : [0; 200; 40; 10]%Z <> []) by discriminate.
  split; [exact (conj eq_refl eq_refl)|]. split; [exact Hne|]. split; [exact Hb|].
  exact (rolloff_bin 0 [0; 200; 40; 10]%Z liveStart (conj eq_refl eq_refl) Hne Hb).
Defined.

Lemma flux_no_rise_witness :
  live (fst (tick 0 [9; 7]%Z liveStart)) /\
  prevDataArray (fst (tick 0 [9; 7]%Z liveStart)) = Some [9; 7]%Z /\
  Forall2 Z.le [9; 3]%Z [9; 7]%Z /\
  flux (snd (tick (1 / 60) [9; 3]%Z (fst (tick 0 [9; 7]%Z liveStart))))
  == smFlux (fst (tick 0 [9; 7]%Z liveStart)) * 0.70.
Proof.
  assert (Hl : live (fst (tick 0 [9; 7]%Z liveStart))) by (split; reflexivity).
  assert (Hle : Forall2 Z.le [9; 3]%Z [9; 7]%Z) by (repeat constructor; discriminate).
  split; [exact Hl|]. split; [reflexivity|]. split; [exact Hle|].
  exact (flux_no_rise (1 / 60) [9; 3]%Z [9; 7]%Z (fst (tick 0 [9; 7]%Z liveStart))
           Hl eq_refl Hle).
Defined.

End LiveProofs.

(** * The audio profile classifier *)

Module ProfileProofs.

Import Live Profile.

(** C9. A frame whose bass and sub-bass energies are both zero makes
    [update] a no-op: it returns the parameters the classifier holds and
    leaves the rolling statistics, the weights, the parameters and the
    transition trackers as they are. *)
Theorem update_no_audio (frame : LiveAnalysisFrame) (dt : Q) (c : Classifier) :
  bass frame == 0 -> subBass frame == 0 ->
  update frame dt c = (c, params c).
Proof.
  intros Hb Hs. unfold update, hasAudio.
  assert (E1 : Qgtb (bass frame) 0 = false) by (qbool; lra).
  assert (E2 : Qgtb (subBass frame) 0 = false) by (qbool; lra).
  now rewrite E1, E2.
Qed.

Lemma update_no_audio_witness :
  bass (zeroFrame liveStart) == 0 /\ subBass (zeroFrame liveStart) == 0 /\
  update (zeroFrame liveStart) (1 / 60) initialClassifier
  = (initialClassifier, params initialClassifier).
Proof.
  split; [reflexivity|]. split; [reflexivity|].
  apply update_no_audio; reflexivity.
Defined.

Lemma sat_nonneg (x : Q) : 0 <= sat x.
Proof. unfold sat. apply Q.le_max_l. Qed.

Lemma sat_le_1 (x : Q) : sat x <= 1.
Proof.
  unfold sat. apply Q.max_lub; [discriminate|]. apply Q.le_min_l.
Qed.

Lemma sat_pos (x : Q) : 0 < x -> 0 < sat x.
Proof.
  intros Hx. unfold sat.
  destruct (Q.min_spec 1 x) as [[_ E]|[_ E]];
    (eapply Qlt_le_trans; [|apply Q.le_max_r]); rewrite E; [reflexivity|exact Hx].
Qed.

(** A blend rate [min(cap, dt / tau)] for a positive [dt]. *)
Lemma rate_bounds (cap tau dt : Q) :
  0 < cap -> 0 < tau -> 0 < dt -> 0 < Qmin cap (dt / tau) <= cap.
Proof.
  intros Hc Ht Hd. split; [|apply Q.le_min_l].
  assert (Hq : 0 < dt / tau).
  { unfold Qdiv. apply Qmult_lt_0_compat; [exact Hd|]. now apply Qinv_lt_0_compat. }
  destruct (Q.min_spec cap (dt / tau)) as [[_ E]|[_ E]]; rewrite E; assumption.
Qed.

(** An exponential step towards a sample at most 1 stays below 1. *)
Lemma ema_below_1 (x sample a : Q) :
  x < 1 -> sample <= 1 -> 0 < a -> a < 1 -> x + (sample - x) * a < 1.
Proof.
  intros Hx Hs Ha Ha1.
  assert (H1 : 0 < (1 - a) * (1 - x)) by (apply Qmult_lt_0_compat; lra).
  assert (H2 : 0 <= a * (1 - sample)) by (apply Qmult_le_0_compat; lra).
  lra.
Qed.

(** The loops over [PROFILE_KEYS], field by field. *)
Lemma totalScore_sum (s : ProfileWeights) :
  fold_left (fun t k => t + wget s k) PROFILE_KEYS 0 == weightSum s.
Proof. unfold PROFILE_KEYS, weightSum. cbn [fold_left wget]. ring. Qed.

Lemma normalize_fields (s : ProfileWeights) :
  normalize s = mkWeights (w_heavy s / totalScore s) (w_ambient s / totalScore s)
                          (w_rhythmic s / totalScore s) (w_acoustic s / totalScore s)
                          (w_chaotic s / totalScore s).
Proof. reflexivity. Qed.

Lemma blendWeights_fields (w target : ProfileWeights) (a : Q) :
  blendWeights w target a =
  mkWeights (w_heavy w + (w_heavy target - w_heavy w) * a)
            (w_ambient w + (w_ambient target - w_ambient w) * a)
            (w_rhythmic w + (w_rhythmic target - w_rhythmic w) * a)
            (w_acoustic w + (w_acoustic target - w_acoustic w) * a)
            (w_chaotic w + (w_chaotic target - w_chaotic w) * a).
Proof. reflexivity. Qed.

(** Scores with a positive sum normalize to weights that sum to 1. *)
Lemma normalize_normalized (s : ProfileWeights) :
  0 <= w_heavy s -> 0 <= w_ambient s -> 0 <= w_rhythmic s ->
  0 <= w_acoustic s -> 0 <= w_chaotic s -> 0 < weightSum s ->
  normalized (normalize s).
Proof.
  intros H1 H2 H3 H4 H5 Hpos.
  assert (Ht : totalScore s == weightSum s).
  { unfold totalScore. cbv zeta.
    destruct (Qeq_bool _ 0) eqn:E.
    - apply Qeq_bool_iff in E. rewrite totalScore_sum in E. lra.
    - apply totalScore_sum. }
  assert (Hinv : 0 < / totalScore s) by (apply Qinv_lt_0_compat; lra).
  rewrite normalize_fields. unfold normalized, weightSum.
  cbn [w_heavy w_ambient w_rhythmic w_acoustic w_chaotic].
  repeat split; try (unfold Qdiv; apply Qmult_le_0_compat; lra).
  unfold weightSum in Ht, Hpos. field_simplify_eq; [lra|lra].
Qed.

(** A convex step from normalized weights to normalized weights. *)
Lemma blendWeights_normalized (w target : ProfileWeights) (a : Q) :
  normalized w -> normalized target -> 0 <= a <= 1 ->
  normalized (blendWeights w target a).
Proof.
  unfold normalized, weightSum.
  intros (W1 & W2 & W3 & W4 & W5 & Ws) (T1 & T2 & T3 & T4 & T5 & Ts) [Ha0 Ha1].
  rewrite blendWeights_fields.
  cbn [w_heavy w_ambient w_rhythmic w_acoustic w_chaotic].
  assert (C : forall x y, 0 <= x -> 0 <= y -> 0 <= x + (y - x) * a).
  { intros x y Hx Hy.
    assert (0 <= (1 - a) * x) by (apply Qmult_le_0_compat; lra).
    assert (0 <= a * y) by (apply Qmult_le_0_compat; lra).
    lra. }
  repeat split; try (apply C; assumption).
  transitivity ((w_heavy w + w_ambient w + w_rhythmic w + w_acoustic w + w_chaotic w)
                + ((w_heavy target + w_ambient target + w_rhythmic target
                    + w_acoustic target + w_chaotic target)
                   - (w_heavy w + w_ambient w + w_rhythmic w + w_acoustic w + w_chaotic w)) * a);
    [ring|]. rewrite Ws, Ts. ring.
Qed.

Lemma initialClassifier_inv : classifierInv initialClassifier.
Proof.
  unfold classifierInv, initialClassifier, normalized, weightSum, initialWeights.
  cbn [rolling weights r_flux r_onsetDensity w_heavy w_ambient w_rhythmic w_acoustic w_chaotic].
  repeat split; try reflexivity; discriminate.
Qed.

Lemma rawScores_positive (r : RollingStats) :
  r_flux r < 1 -> r_onsetDensity r < 1 ->
  let s := rawScores r in
  0 <= w_heavy s /\ 0 <= w_ambient s /\ 0 <= w_rhythmic s /\
  0 <= w_acoustic s /\ 0 <= w_chaotic s /\ 0 < weightSum s.
Proof.
  intros Hf Ho. cbv zeta. unfold rawScores, weightSum.
  cbn [w_heavy w_ambient w_rhythmic w_acoustic w_chaotic].
  assert (Ha : 0 < sat ((1 - r_onsetDensity r) * (1 - r_flux r) * 0.95)).
  { apply sat_pos. repeat apply Qmult_lt_0_compat; lra. }
  pose proof (sat_nonneg (r_bassRatio r * r_onsetDensity r * r_flux r * 6)).
  pose proof (sat_nonneg (r_centroid r * r_onsetDensity r
                          * Qmax 0 (1 - r_bassRatio r * 0.5) * 4)).
  pose proof (sat_nonneg ((1 - r_zcr r) * (0.6 - Qabs (r_centroid r - 0.28)) * 4
                          * (1 - r_onsetDensity r * 0.6))).
  pose proof (sat_nonneg (r_zcr r * r_flux r * 6)).
  repeat split; try assumption; lra.
Qed.

Lemma update_inv (frame : LiveAnalysisFrame) (dt : Q) (c : Classifier) :
  frameInRange frame -> 0 < dt -> classifierInv c ->
  classifierInv (fst (update frame dt c)).
Proof.
  intros [Hfl Hod] Hdt (If & Io & Iw). unfold update.
  destruct (negb (hasAudio frame)); [exact (conj If (conj Io Iw))|].
  cbv zeta. cbn [fst]. unfold classifierInv. cbn [rolling weights].
  destruct (rate_bounds 0.15 1.5 dt) as [Fa0 Fa1]; try reflexivity; try assumption.
  destruct (rate_bounds 0.04 5.0 dt) as [Sa0 Sa1]; try reflexivity; try assumption.
  destruct (rate_bounds 0.02 2.5 dt) as [Ba0 Ba1]; try reflexivity; try assumption.
  assert (If' : r_flux (roll (rolling c) frame dt) < 1).
  { unfold roll. cbn [r_flux]. apply ema_below_1; try assumption; lra. }
  assert (Io' : r_onsetDensity (roll (rolling c) frame dt) < 1).
  { unfold roll. cbn [r_onsetDensity]. apply ema_below_1; try assumption; lra. }
  split; [exact If'|]. split; [exact Io'|].
  apply blendWeights_normalized; [exact Iw| |lra].
  destruct (rawScores_positive _ If' Io') as (S1 & S2 & S3 & S4 & S5 & Sp).
  now apply normalize_normalized.
Qed.

Lemma updates_inv (inputs : list (LiveAnalysisFrame * Q)) :
  forall c, Forall validCall inputs -> classifierInv c -> classifierInv (updates inputs c).
Proof.
  induction inputs as [|[f dt] rest IH]; intros c Hall Hc; [exact Hc|].
  inversion Hall as [|? ? [Hf Hdt] Hrest]; subst. cbn [updates].
  apply IH; [exact Hrest|]. now apply update_inv.
Qed.

(** C4 (as the code has it). From the initial classifier, after any
    sequence of [update] calls with [dt > 0] on frames whose flux and onset
    density are at most 1, their documented range, the five weights are
    non-negative and sum to 1 (as rationals exactly, hence within 1e-6).
    Every frame that [tick] returns is such a frame, whatever bytes the
    analyzer is fed. *)
Theorem weights_normalized :
  (forall inputs, Forall validCall inputs ->
     let w := weights (updates inputs initialClassifier) in
     0 <= w_heavy w /\ 0 <= w_ambient w /\ 0 <= w_rhythmic w /\
     0 <= w_acoustic w /\ 0 <= w_chaotic w /\
     Qabs (weightSum w - 1) <= 1 / 1000000) /\
  (forall inputs s, wellFormed s -> byteInputs inputs ->
     Forall frameInRange (snd (ticks inputs s))).
Proof.
  split.
  - intros inputs Hall.
    destruct (updates_inv inputs initialClassifier Hall initialClassifier_inv)
      as (_ & _ & (W1 & W2 & W3 & W4 & W5 & Ws)).
    cbv zeta. repeat split; try assumption.
    rewrite Ws. discriminate.
  - intros inputs s Hs Hin.
    destruct (LiveProofs.ticks_wellFormed inputs s Hs Hin) as [_ Hfs].
    eapply Forall_impl; [|exact Hfs].
    intros f [Hsm [_ Hod]]. unfold smoothedFrame in Hsm.
    split; [|exact Hod].
    repeat match goal with
    | H : Forall _ (_ :: _) |- _ => inversion H; clear H; subst
    end.
    tauto.
Qed.

Lemma sat_comp (x y : Q) : x == y -> sat x == sat y.
Proof. intros H. unfold sat. now rewrite H. Qed.

Lemma rawScores_comp (r r' : RollingStats) :
  rollingEq r r' -> weightsEq (rawScores r) (rawScores r').
Proof.
  intros (Hc & Hf & Ho & Hb & Hz) k. unfold rawScores.
  destruct k; cbn [wget w_heavy w_ambient w_rhythmic w_acoustic w_chaotic];
    apply sat_comp; rewrite ?Hc, ?Hf, ?Ho, ?Hb, ?Hz; reflexivity.
Qed.

Lemma totalScore_comp (s s' : ProfileWeights) :
  weightsEq s s' -> totalScore s == totalScore s'.
Proof.
  intros H. unfold totalScore. cbv zeta.
  assert (E : fold_left (fun t k => t + wget s k) PROFILE_KEYS 0
              == fold_left (fun t k => t + wget s' k) PROFILE_KEYS 0).
  { unfold PROFILE_KEYS. cbn [fold_left].
    now rewrite (H heavy), (H ambient), (H rhythmic), (H acoustic), (H chaotic). }
  rewrite E. destruct (Qeq_bool _ 0); [reflexivity|exact E].
Qed.

Lemma normalize_comp (s s' : ProfileWeights) :
  weightsEq s s' -> weightsEq (normalize s) (normalize s').
Proof.
  intros H k. rewrite !normalize_fields.
  pose proof (totalScore_comp s s' H) as Ht.
  pose proof (H heavy) as H1. pose proof (H ambient) as H2. pose proof (H rhythmic) as H3.
  pose proof (H acoustic) as H4. pose proof (H chaotic) as H5.
  cbn [wget] in H1, H2, H3, H4, H5.
  destruct k; cbn [wget w_heavy w_ambient w_rhythmic w_acoustic w_chaotic];
    rewrite Ht, ?H1, ?H2, ?H3, ?H4, ?H5; reflexivity.
Qed.

(** Weights that equal their target stay where they are. *)
Lemma blendWeights_converged (w target T : ProfileWeights) (a : Q) :
  weightsEq w T -> weightsEq target T -> weightsEq (blendWeights w target a) T.
Proof.
  intros Hw Ht k. rewrite blendWeights_fields.
  pose proof (Hw k) as H1. pose proof (Ht k) as H2.
  destruct k; cbn [wget w_heavy w_ambient w_rhythmic w_acoustic w_chaotic] in *;
    rewrite H1, H2; ring.
Qed.

(** The arg-max of [paramsFromWeights] reads the weights as numbers. *)
Lemma dominantOf_comp (w w' : ProfileWeights) :
  weightsEq w w' -> dominantOf w = dominantOf w'.
Proof.
  intros H. unfold dominantOf.
  generalize (hd heavy PROFILE_KEYS) as a. generalize (tl PROFILE_KEYS) as ks.
  induction ks as [|k ks IH]; intros a; cbn [fold_left]; [reflexivity|].
  rewrite (H a), (H k). apply IH.
Qed.

Lemma scenario_scores :
  let s := rawScores scenarioRolling in
  w_heavy s == 1 /\ w_acoustic s == 1 /\ w_ambient s == 0.19 /\
  w_rhythmic s == 0 /\ w_chaotic s == 0.3.
Proof. cbv zeta. repeat split; vm_compute; reflexivity. Qed.

Lemma scenario_dominant : dominantOf (normalize (rawScores scenarioRolling)) = acoustic.
Proof. vm_compute. reflexivity. Qed.

Lemma update_dominant (frame : LiveAnalysisFrame) (dt : Q) (c : Classifier) :
  hasAudio frame = true ->
  dominant (snd (update frame dt c))
  = dominantOf (blendWeights (weights c) (normalize (rawScores (roll (rolling c) frame dt)))
                  (Qmin 0.02 (dt / 2.5))).
Proof.
  intros Ha. unfold update. rewrite Ha. reflexivity.
Qed.

Lemma converged_acoustic : ConvergedDominant acoustic.
Proof.
  intros frame dt c Ha Hr Hw. rewrite update_dominant by exact Ha.
  rewrite <- scenario_dominant. apply dominantOf_comp.
  apply blendWeights_converged; [exact Hw|].
  apply normalize_comp. now apply rawScores_comp.
Qed.

Lemma scenario_instance :
  hasAudio scenarioFrame = true /\
  rollingEq (roll (rolling scenarioClassifier) scenarioFrame (1 / 60)) scenarioRolling /\
  weightsEq (weights scenarioClassifier) (normalize (rawScores scenarioRolling)).
Proof.
  split; [reflexivity|]. split.
  - repeat split; vm_compute; reflexivity.
  - intros k. reflexivity.
Qed.

Lemma scenario_update_dominant :
  dominant (snd (update scenarioFrame (1 / 60) scenarioClassifier)) = acoustic.
Proof. vm_compute. reflexivity. Qed.

(** C2 (as the code has it). With the rolled scalars of the scenario the
    raw score of [heavy] is 1, the highest value a score takes, and the raw
    score of [acoustic] is 1 as well; the others are 0.19, 0 and 0.3.  Once
    the weights have converged to the normalized scores the dominant
    archetype reported is [acoustic]: the arg-max keeps the later key of
    [PROFILE_KEYS] when two weights are equal. *)
Theorem heavy_scenario :
  (let s := rawScores scenarioRolling in
   w_heavy s == 1 /\ w_acoustic s == 1 /\ w_ambient s == 0.19 /\
   w_rhythmic s == 0 /\ w_chaotic s == 0.3 /\
   forall k, wget s k <= w_heavy s) /\
  ConvergedDominant acoustic.
Proof.
  split; [|exact converged_acoustic].
  destruct scenario_scores as (H1 & H2 & H3 & H4 & H5). cbv zeta in *.
  repeat split; try assumption.
  intros k. destruct k; cbn [wget]; rewrite ?H1, ?H2, ?H3, ?H4, ?H5; discriminate.
Qed.

Lemma heavy_scenario_witness :
  hasAudio scenarioFrame = true /\
  rollingEq (roll (rolling scenarioClassifier) scenarioFrame (1 / 60)) scenarioRolling /\
  weightsEq (weights scenarioClassifier) (normalize (rawScores scenarioRolling)) /\
  dominant (snd (update scenarioFrame (1 / 60) scenarioClassifier)) = acoustic.
Proof.
  destruct scenario_instance as (Ha & Hr & Hw).
  split; [exact Ha|]. split; [exact Hr|]. split; [exact Hw|].
  exact (proj2 heavy_scenario scenarioFrame (1 / 60) scenarioClassifier Ha Hr Hw).
Defined.

(** C2 as stated fails: with converged weights the dominant archetype
    reported in the scenario is not [heavy]. *)
Lemma heavy_dominant_counterexample : ~ ConvergedDominant heavy.
Proof.
  intros Hclaim. destruct scenario_instance as (Ha & Hr & Hw).
  specialize (Hclaim scenarioFrame (1 / 60) scenarioClassifier Ha Hr Hw).
  pose proof scenario_update_dominant as Hd. congruence.
Qed.

Lemma weights_normalized_witness :
  Forall validCall [(scenarioFrame, 1 / 60); (scenarioFrame, 1 / 30)] /\
  0 <= w_heavy (weights (updates [(scenarioFrame, 1 / 60); (scenarioFrame, 1 / 30)]
                           initialClassifier)).
Proof.
  assert (H : Forall validCall [(scenarioFrame, 1 / 60); (scenarioFrame, 1 / 30)]).
  { repeat constructor; cbn; discriminate. }
  split; [exact H|].
  exact (proj1 (proj1 weights_normalized _ H)).
Defined.

(** C4 as stated fails: the weights are not normalized for any input
    frame.  On a frame with flux -1 and onset density 50 (and bass 1) the
    five raw scores are all 0, the total falls back to 1, the target
    weights are all 0, and one [update] from the initial classifier leaves
    weights that sum to 0.98. *)
Lemma weights_any_frame_counterexample :
  weightSum (weights (fst (update outOfRangeFrame 1 initialClassifier))) == 0.98 /\
  ~ (forall frame dt, 0 < dt ->
       Qabs (weightSum (weights (fst (update frame dt initialClassifier))) - 1)
       <= 1 / 1000000).
Proof.
  split; [vm_compute; reflexivity|].
  intros Hclaim. specialize (Hclaim outOfRangeFrame 1 ltac:(reflexivity)).
  apply Qle_bool_iff in Hclaim. vm_compute in Hclaim. discriminate.
Qed.

(** ** Dominant profile, parameter envelope and transitions *)

(** X10. The dominant profile [paramsFromWeights] reports has the greatest
    weight, and every profile that comes after it in [PROFILE_KEYS] has a
    strictly smaller one: among profiles of equal greatest weight the last
    of them is reported. *)
Theorem dominant_is_last_maximum (w : ProfileWeights) :
  let d := dominant (paramsFromWeights w) in
  (forall k, wget w k <= wget w d) /\
  (forall k, (keyIndex d < keyIndex k)%nat -> wget w k < wget w d).
Proof.
  cbv zeta. unfold paramsFromWeights. cbn [dominant].
  unfold dominantOf, PROFILE_KEYS. cbn [tl hd fold_left].
  destruct (Qgtb (wget w heavy) (wget w ambient)) eqn:E1;
  match goal with |- context [Qgtb (wget w ?a) (wget w rhythmic)] =>
    destruct (Qgtb (wget w a) (wget w rhythmic)) eqn:E2 end;
  match goal with |- context [Qgtb (wget w ?a) (wget w acoustic)] =>
    destruct (Qgtb (wget w a) (wget w acoustic)) eqn:E3 end;
  match goal with |- context [Qgtb (wget w ?a) (wget w chaotic)] =>
    destruct (Qgtb (wget w a) (wget w chaotic)) eqn:E4 end;
  qbool; cbn [wget] in *;
  (split; intros k; destruct k; cbn [wget keyIndex]; try lra; intros Hk; try lra; lia).
Qed.

(** *** The parameters stay in the envelope of the profile tables *)

Lemma dget_paramsFromWeights (w : ProfileWeights) (key : ParamKey) :
  dget (p_values (paramsFromWeights w)) key = blend w key.
Proof. now destruct key. Qed.

Lemma dget_smoothParams (p target : ProfileDef) (a : Q) (key : ParamKey) :
  dget (smoothParams p target a) key = dget p key + (dget target key - dget p key) * a.
Proof. now destruct key. Qed.

Lemma blend_envelope (w : ProfileWeights) (key : ParamKey) :
  normalized w -> lowest key <= blend w key <= highest key.
Proof.
  unfold normalized, weightSum. intros (W1 & W2 & W3 & W4 & W5 & Ws).
  destruct key;
    match goal with |- ?lo <= _ <= ?hi =>
      let l := eval vm_compute in lo in
      let h := eval vm_compute in hi in
      change lo with l; change hi with h
    end;
    unfold blend, PROFILE_KEYS; cbn [fold_left dget PROFILE_DEFS wget
      d_hue1 d_hue2 d_hue3 d_roughness d_displacementScale d_bloomStrength
      d_chromaAmount d_grainAmount d_particleVelocity d_particleOpacity d_cameraShake];
    split; lra.
Qed.

Lemma convex_between (lo hi x y a : Q) :
  lo <= x <= hi -> lo <= y <= hi -> 0 <= a <= 1 -> lo <= x + (y - x) * a <= hi.
Proof.
  intros Hx Hy Ha.
  assert (0 <= (1 - a) * (x - lo)) by (apply Qmult_le_0_compat; lra).
  assert (0 <= a * (y - lo)) by (apply Qmult_le_0_compat; lra).
  assert (0 <= (1 - a) * (hi - x)) by (apply Qmult_le_0_compat; lra).
  assert (0 <= a * (hi - y)) by (apply Qmult_le_0_compat; lra).
  split; lra.
Qed.

Lemma update_envelope (frame : LiveAnalysisFrame) (dt : Q) (c : Classifier) :
  frameInRange frame -> 0 < dt -> classifierInv c -> inEnvelope (params c) ->
  inEnvelope (params (fst (update frame dt c))) /\ inEnvelope (snd (update frame dt c)).
Proof.
  intros Hf Hdt Hc He.
  pose proof (update_inv frame dt c Hf Hdt Hc) as (_ & _ & Hn).
  unfold update in *. destruct (negb (hasAudio frame)); [now split|].
  cbv zeta in *. cbn [fst snd params weights] in *.
  assert (Hgoal : inEnvelope
    {| p_values := smoothParams (p_values (params c))
         (p_values (paramsFromWeights
            (blendWeights (weights c) (normalize (rawScores (roll (rolling c) frame dt)))
               (Qmin 0.02 (dt / 2.5)))))
         (Qmin 0.25 (dt / 0.3));
       dominant := dominant (paramsFromWeights
            (blendWeights (weights c) (normalize (rawScores (roll (rolling c) frame dt)))
               (Qmin 0.02 (dt / 2.5)))) |}).
  { intros key. cbn [p_values]. rewrite dget_smoothParams, dget_paramsFromWeights.
    destruct (rate_bounds 0.25 0.3 dt) as [A0 A1]; try reflexivity; try assumption.
    apply convex_between; [apply He|now apply blend_envelope|lra]. }
  now split.
Qed.

Lemma initial_envelope : inEnvelope (params initialClassifier).
Proof.
  intros key. unfold initialClassifier. cbn [params].
  rewrite dget_paramsFromWeights. apply blend_envelope.
  apply initialClassifier_inv.
Qed.

Lemma updates_envelope (inputs : list (LiveAnalysisFrame * Q)) :
  forall c, Forall validCall inputs -> classifierInv c -> inEnvelope (params c) ->
  classifierInv (updates inputs c) /\ inEnvelope (params (updates inputs c)).
Proof.
  induction inputs as [|[f dt] rest IH]; intros c Hall Hc He; [now split|].
  inversion Hall as [|? ? [Hf Hdt] Hrest]; subst. cbn [updates]. cbn [fst snd] in Hf, Hdt.
  apply IH; [exact Hrest|now apply update_inv|].
  now apply (update_envelope f dt c).
Qed.

(** X11. From the initial classifier, after any sequence of [update] calls
    with [dt > 0] on frames with flux and onset density at most 1, each of
    the eleven numeric parameters the classifier holds, and each one a
    further such call returns, lies between the least and the greatest
    value the five profile tables give that parameter. *)
Theorem params_in_envelope (inputs : list (LiveAnalysisFrame * Q))
    (frame : LiveAnalysisFrame) (dt : Q) :
  Forall validCall inputs -> validCall (frame, dt) ->
  let c := updates inputs initialClassifier in
  inEnvelope (getParams c) /\ inEnvelope (snd (update frame dt c)).
Proof.
  intros Hall [Hf Hdt] c. cbn [fst snd] in Hf, Hdt.
  destruct (updates_envelope inputs initialClassifier Hall initialClassifier_inv
              initial_envelope) as [Hc He].
  split; [exact He|]. now apply (update_envelope frame dt c).
Qed.

(** X12. [update] and [checkTransition] do not interfere: calling them in
    either order leaves the same classifier, [update] returns the same
    parameters and [checkTransition] the same answer. *)
Theorem update_checkTransition_commute
    (f g : LiveAnalysisFrame) (dt dt' : Q) (c : Classifier) :
  fst (update f dt (fst (checkTransition g dt' c)))
  = fst (checkTransition g dt' (fst (update f dt c))) /\
  snd (update f dt (fst (checkTransition g dt' c))) = snd (update f dt c) /\
  snd (checkTransition g dt' (fst (update f dt c))) = snd (checkTransition g dt' c).
Proof.
  unfold update, checkTransition. destruct (negb (hasAudio f)); cbv zeta; cbn; repeat split.
Qed.


Lemma params_in_envelope_witness :
  Forall validCall [(scenarioFrame, 1 / 60)] /\ validCall (scenarioFrame, 1 / 30) /\
  inEnvelope (getParams (updates [(scenarioFrame, 1 / 60)] initialClassifier)).
Proof.
  assert (H1 : Forall validCall [(scenarioFrame, 1 / 60)])
    by (repeat constructor; cbn; discriminate).
  assert (H2 : validCall (scenarioFrame, 1 / 30))
    by (repeat constructor; cbn; discriminate).
  split; [exact H1|]. split; [exact H2|].
  exact (proj1 (params_in_envelope [(scenarioFrame, 1 / 60)] scenarioFrame (1 / 30) H1 H2)).
Defined.


End ProfileProofs.

(** * The mood palette modulation *)

Module MoodProofs.

Import Mood.

Lemma max3_ge (x y z : Q) : x <= max3 x y z /\ y <= max3 x y z /\ z <= max3 x y z.
Proof.
  unfold max3.
  pose proof (Q.le_max_l (Qmax x y) z). pose proof (Q.le_max_r (Qmax x y) z).
  pose proof (Q.le_max_l x y). pose proof (Q.le_max_r x y).
  repeat split; lra.
Qed.

Lemma min3_le (x y z : Q) : min3 x y z <= x /\ min3 x y z <= y /\ min3 x y z <= z.
Proof.
  unfold min3.
  pose proof (Q.le_min_l (Qmin x y) z). pose proof (Q.le_min_r (Qmin x y) z).
  pose proof (Q.le_min_l x y). pose proof (Q.le_min_r x y).
  repeat split; lra.
Qed.

(** [max3] and [min3] are among their arguments. *)
Lemma max3_cases (x y z : Q) : max3 x y z == x \/ max3 x y z == y \/ max3 x y z == z.
Proof.
  unfold max3.
  destruct (Q.max_spec (Qmax x y) z) as [[_ E]|[_ E]]; rewrite E;
    [right; right; reflexivity|].
  destruct (Q.max_spec x y) as [[_ E']|[_ E']]; rewrite E';
    [right; left; reflexivity|left; reflexivity].
Qed.

Lemma min3_cases (x y z : Q) : min3 x y z == x \/ min3 x y z == y \/ min3 x y z == z.
Proof.
  unfold min3.
  destruct (Q.min_spec (Qmin x y) z) as [[_ E]|[_ E]]; rewrite E;
    [|right; right; reflexivity].
  destruct (Q.min_spec x y) as [[_ E']|[_ E']]; rewrite E';
    [left; reflexivity|right; left; reflexivity].
Qed.

Lemma div_between (x d lo hi : Q) :
  0 < d -> lo * d <= x -> x <= hi * d -> lo <= x / d <= hi.
Proof.
  intros Hd Hlo Hhi. split.
  - apply Qle_shift_div_l; assumption.
  - apply Qle_shift_div_r; assumption.
Qed.

Lemma div_below (x d hi : Q) : 0 < d -> x < hi * d -> x / d < hi.
Proof. intros Hd Hhi. apply Qlt_shift_div_r; assumption. Qed.

(** The hue of [rgbToHsl] is in [0, 1), for any three numbers. *)
Lemma rgbToHsl_hue (c : RGB) : 0 <= hue (rgbToHsl c) < 1.
Proof.
  unfold rgbToHsl. cbv zeta.
  destruct (max3_ge (r c) (g c) (b c)) as (Mr & Mg & Mb).
  destruct (min3_le (r c) (g c) (b c)) as (mr & mg & mb).
  set (M := max3 (r c) (g c) (b c)) in *. set (m := min3 (r c) (g c) (b c)) in *.
  destruct (Qeq_bool M m) eqn:E; cbn [hue]; [split; [discriminate|reflexivity]|].
  apply Qeq_bool_neq in E.
  assert (Hd : 0 < M - m).
  { destruct (Qlt_le_dec m M) as [H|H]; [lra|]. exfalso. apply E. lra. }
  destruct (Qeq_bool M (r c)) eqn:Er.
  - apply Qeq_bool_iff in Er.
    destruct (Qltb (g c) (b c)) eqn:Egb; qbool.
    + destruct (div_between (g c - b c) (M - m) (-1) 0 Hd) as [L U]; try lra.
      assert (U' : (g c - b c) / (M - m) < 0) by (apply div_below; lra).
      split.
      * apply Qle_shift_div_l; [reflexivity|]. lra.
      * apply Qlt_shift_div_r; [reflexivity|]. lra.
    + destruct (div_between (g c - b c) (M - m) 0 1 Hd) as [L U]; try lra.
      split.
      * apply Qle_shift_div_l; [reflexivity|]. lra.
      * apply Qlt_shift_div_r; [reflexivity|]. lra.
  - destruct (Qeq_bool M (g c)) eqn:Eg.
    + apply Qeq_bool_iff in Eg.
      destruct (div_between (b c - r c) (M - m) (-1) 1 Hd) as [L U]; try lra.
      split.
      * apply Qle_shift_div_l; [reflexivity|]. lra.
      * apply Qlt_shift_div_r; [reflexivity|]. lra.
    + destruct (div_between (r c - g c) (M - m) (-1) 1 Hd) as [L U]; try lra.
      split.
      * apply Qle_shift_div_l; [reflexivity|]. lra.
      * apply Qlt_shift_div_r; [reflexivity|]. lra.
Qed.

(** Saturation and lightness of a colour in gamut are in [0, 1]. *)
Lemma rgbToHsl_range (c : RGB) :
  inGamut c ->
  (0 <= saturation (rgbToHsl c) <= 1) /\ (0 <= lightness (rgbToHsl c) <= 1).
Proof.
  intros (Hr & Hg & Hb). unfold rgbToHsl. cbv zeta.
  destruct (max3_ge (r c) (g c) (b c)) as (Mr & Mg & Mb).
  destruct (min3_le (r c) (g c) (b c)) as (mr & mg & mb).
  assert (HM : max3 (r c) (g c) (b c) <= 1)
    by (destruct (max3_cases (r c) (g c) (b c)) as [E|[E|E]]; rewrite E; lra).
  assert (Hm : 0 <= min3 (r c) (g c) (b c))
    by (destruct (min3_cases (r c) (g c) (b c)) as [E|[E|E]]; rewrite E; lra).
  set (M := max3 (r c) (g c) (b c)) in *. set (m := min3 (r c) (g c) (b c)) in *.
  assert (Hl : 0 <= (M + m) / 2 <= 1).
  { split; [apply Qle_shift_div_l|apply Qle_shift_div_r]; try reflexivity; lra. }
  destruct (Qeq_bool M m) eqn:E; cbn [saturation lightness].
  - split; [split; discriminate|exact Hl].
  - split; [|exact Hl].
    apply Qeq_bool_neq in E.
    assert (Hd : 0 < M - m).
    { destruct (Qlt_le_dec m M) as [H|H]; [lra|]. exfalso. apply E. lra. }
    destruct (Qgtb ((M + m) / 2) 0.5) eqn:El.
    + apply div_between; lra.
    + apply div_between; lra.
Qed.




Lemma clamp_id (x : Q) : 0 <= x <= 1 -> Qmin 1 (Qmax 0 x) == x.
Proof.
  intros Hx. rewrite (Q.max_r 0 x) by lra. apply Q.min_r. lra.
Qed.




(** [modulate] rewrites the first four colours, each from its own mood
    colour, and leaves the rest of the array alone; it throws where the
    palette or the mood colours have fewer than four. *)
Lemma modulateLoop_Some (n : nat) :
  forall pal current,
    (n <= length pal)%nat -> (n <= length current)%nat ->
    exists out, modulateLoop n pal current = Some out.
Proof.
  induction n as [|n IH]; intros pal current Hp Hc; [now exists pal|].
  destruct pal as [|p pal]; [cbn [length] in Hp; lia|].
  destruct current as [|m current]; [cbn [length] in Hc; lia|].
  cbn [length] in Hp, Hc. destruct (IH pal current) as [out E]; [lia|lia|].
  exists (modulateColor p m :: out). cbn [modulateLoop]. now rewrite E.
Qed.

Lemma modulateLoop_None (n : nat) :
  forall pal current,
    (length pal < n)%nat \/ (length current < n)%nat -> modulateLoop n pal current = None.
Proof.
  induction n as [|n IH]; intros pal current H; [lia|].
  destruct pal as [|p pal]; [reflexivity|].
  destruct current as [|m current]; [reflexivity|].
  cbn [length] in H. cbn [modulateLoop]. rewrite IH; [reflexivity|lia].
Qed.

Lemma modulateLoop_nth (n : nat) :
  forall pal current out i base mood,
    modulateLoop n pal current = Some out ->
    (i < n)%nat -> nth_error pal i = Some base -> nth_error current i = Some mood ->
    nth_error out i = Some (modulateColor base mood).
Proof.
  induction n as [|n IH]; intros pal current out i base mood E Hi Hp Hc; [lia|].
  destruct pal as [|p pal]; [now destruct i|].
  destruct current as [|m current]; [now destruct i|].
  cbn [modulateLoop] in E.
  destruct (modulateLoop n pal current) as [rest|] eqn:Er; [|discriminate].
  inversion E; subst out. destruct i as [|i]; cbn [nth_error] in *.
  - congruence.
  - apply (IH pal current rest i base mood Er); [lia|assumption|assumption].
Qed.



Lemma red_inGamut : inGamut red.
Proof. unfold inGamut, red. cbn [r g b]. repeat split; discriminate. Qed.



(** [x % 1] is the remainder of the numerator over the denominator. *)
Lemma jsMod1_rem (x : Q) :
  jsMod1 x == Z.rem (Qnum x) (Zpos (Qden x)) # Qden x.
Proof.
  destruct x as [n d]. unfold jsMod1, Qminus, Qplus, Qopp, inject_Z, Qeq.
  cbn [Qnum Qden].
  pose proof (Z.quot_rem' n (Zpos d)) as H. nia.
Qed.

Lemma jsMod1_nonneg (x : Q) : 0 <= x -> 0 <= jsMod1 x < 1.
Proof.
  intros Hx. rewrite jsMod1_rem. destruct x as [n d]. cbn [Qnum Qden].
  assert (Hn : (0 <= n)%Z) by (unfold Qle in Hx; simpl in Hx; lia).
  pose proof (Z.rem_bound_pos n (Zpos d) Hn (Pos2Z.is_pos d)) as [H0 H1].
  split.
  - unfold Qle. simpl. lia.
  - unfold Qlt. simpl. lia.
Qed.

Lemma jsMod1_range (x : Q) : -1 < jsMod1 x < 1.
Proof.
  rewrite jsMod1_rem. destruct x as [n d]. cbn [Qnum Qden].
  assert (Hd : Z.pos d <> 0%Z) by discriminate.
  pose proof (Z.rem_bound_abs n (Z.pos d) Hd) as H.
  split; unfold Qlt; simpl; lia.
Qed.

(** The hue [hslToRgb] works with is in [0, 1). *)
Lemma hue_normalized (h : Q) : 0 <= jsMod1 (jsMod1 h + 1) < 1.
Proof.
  apply jsMod1_nonneg. pose proof (jsMod1_range h). lra.
Qed.

Lemma jsMod1_turns (x : Q) : exists k : Z, jsMod1 x == x - inject_Z k.
Proof. eexists. unfold jsMod1. reflexivity. Qed.

(** It is the hue it was given, a whole number of turns away. *)
Lemma hue_normalized_turns (h : Q) :
  exists k : Z, jsMod1 (jsMod1 h + 1) == h + inject_Z k.
Proof.
  destruct (jsMod1_turns h) as [k2 H2].
  destruct (jsMod1_turns (jsMod1 h + 1)) as [k1 H1].
  exists (1 - k1 - k2)%Z. rewrite H1, H2.
  unfold Z.sub. rewrite !inject_Z_plus, !inject_Z_opp.
  change (inject_Z 1) with 1. ring.
Qed.

(** Write the constant quotients of the source as fractions. *)
Ltac qconst :=
  change (1 / 6) with (1 # 6) in *; change (1 / 3) with (1 # 3) in *;
  change (1 / 2) with (1 # 2) in *; change (2 / 3) with (2 # 3) in *;
  change (5 / 6) with (5 # 6) in *.

Lemma h2rgb_unit (p q t : Q) : 0 <= t <= 1 -> h2rgb p q t = ramp p q t.
Proof.
  intros Ht. unfold h2rgb.
  replace (Qltb t 0) with false by (symmetry; qbool; lra).
  replace (Qgtb t 1) with false by (symmetry; qbool; lra).
  reflexivity.
Qed.

Lemma h2rgb_below (p q t : Q) : -1 <= t < 0 -> h2rgb p q t = ramp p q (t + 1).
Proof.
  intros Ht. unfold h2rgb.
  replace (Qltb t 0) with true by (symmetry; qbool; lra).
  replace (Qgtb (t + 1) 1) with false by (symmetry; qbool; lra).
  reflexivity.
Qed.

Lemma h2rgb_above (p q t : Q) : 1 < t <= 2 -> h2rgb p q t = ramp p q (t - 1).
Proof.
  intros Ht. unfold h2rgb.
  replace (Qltb t 0) with false by (symmetry; qbool; lra).
  replace (Qgtb t 1) with true by (symmetry; qbool; lra).
  reflexivity.
Qed.

(** Decide the comparisons of a [ramp] from the bounds at hand. *)
Ltac eval_ramp :=
  unfold ramp; qconst;
  repeat match goal with
  | |- context [Qltb ?a ?b] =>
      first [ replace (Qltb a b) with true by (symmetry; qbool; lra)
            | replace (Qltb a b) with false by (symmetry; qbool; lra) ]
  end.

Lemma max3_eq (x y z M : Q) :
  x <= M -> y <= M -> z <= M -> (x == M \/ y == M \/ z == M) -> max3 x y z == M.
Proof.
  intros Hx Hy Hz Hor.
  destruct (max3_ge x y z) as (A & B & C).
  destruct (max3_cases x y z) as [E|[E|E]]; destruct Hor as [F|[F|F]]; lra.
Qed.

Lemma min3_eq (x y z m : Q) :
  m <= x -> m <= y -> m <= z -> (x == m \/ y == m \/ z == m) -> min3 x y z == m.
Proof.
  intros Hx Hy Hz Hor.
  destruct (min3_le x y z) as (A & B & C).
  destruct (min3_cases x y z) as [E|[E|E]]; destruct Hor as [F|[F|F]]; lra.
Qed.

Lemma scaled_hue (N k d H : Q) : 0 < d -> N + k * d == 6 * (d * H) -> (N / d + k) / 6 == H.
Proof.
  intros Hd E.
  assert (Hne : ~ d == 0) by (intros F; rewrite F in Hd; discriminate).
  field_simplify_eq; [|exact Hne]. lra.
Qed.

(** Close a branch of the hue formula: an impossible comparison, or the
    hue equation scaled by [d]. *)
Ltac hue_branch Hd :=
  repeat match goal with
  | E : Qeq_bool _ _ = true |- _ => apply Qeq_bool_iff in E
  | E : Qeq_bool _ _ = false |- _ => apply Qeq_bool_neq in E
  end;
  qbool;
  qconst;
  first [ exfalso; nra
        | exfalso; match goal with E : ~ _ == _ |- _ => apply E; nra end
        | apply (scaled_hue _ _ _ _ Hd); nra ].

Ltac sector_done Hd :=
  repeat match goal with
  | |- _ /\ _ => split
  end;
  try nra;
  try (left; nra); try (right; left; nra); try (right; right; nra);
  repeat match goal with
  | |- context [Qeq_bool ?x ?y] => destruct (Qeq_bool x y) eqn:?
  | |- context [Qltb ?x ?y] => destruct (Qltb x y) eqn:?
  end;
  hue_branch Hd.

Lemma hueOf_sectors (p q H : Q) :
  p < q -> 0 <= H < 1 ->
  let c := mkRGB (h2rgb p q (H + 1 / 3)) (h2rgb p q H) (h2rgb p q (H - 1 / 3)) in
  (p <= r c <= q) /\ (p <= g c <= q) /\ (p <= b c <= q) /\
  (r c == q \/ g c == q \/ b c == q) /\ (r c == p \/ g c == p \/ b c == p) /\
  hueOf q (q - p) c == H.
Proof.
  intros Hpq [H0 H1] c. unfold c, hueOf. cbn [r g b]. qconst.
  assert (Hd : 0 < q - p) by lra.
  assert (X0 : 0 <= (q - p) * H) by (apply Qmult_le_0_compat; lra).
  assert (X1 : 0 < (q - p) * (1 - H)) by (apply Qmult_lt_0_compat; lra).
  destruct (Qlt_le_dec H (1 # 6)) as [S1|S1];
    [|destruct (Qlt_le_dec H (1 # 3)) as [S2|S2];
      [|destruct (Qlt_le_dec H (1 # 2)) as [S3|S3];
        [|destruct (Qlt_le_dec H (2 # 3)) as [S4|S4];
          [|destruct (Qlt_le_dec H (5 # 6)) as [S5|S5]]]]].
  - rewrite (h2rgb_unit _ _ (H + (1 # 3))), (h2rgb_unit _ _ H),
      (h2rgb_below _ _ (H - (1 # 3))) by lra.
    eval_ramp. sector_done Hd.
  - rewrite (h2rgb_unit _ _ (H + (1 # 3))), (h2rgb_unit _ _ H),
      (h2rgb_below _ _ (H - (1 # 3))) by lra.
    eval_ramp. sector_done Hd.
  - rewrite (h2rgb_unit _ _ (H + (1 # 3))), (h2rgb_unit _ _ H),
      (h2rgb_unit _ _ (H - (1 # 3))) by lra.
    eval_ramp. sector_done Hd.
  - rewrite (h2rgb_unit _ _ (H + (1 # 3))), (h2rgb_unit _ _ H),
      (h2rgb_unit _ _ (H - (1 # 3))) by lra.
    eval_ramp. sector_done Hd.
  - destruct (Qlt_le_dec (2 # 3) H) as [T|T].
    + rewrite (h2rgb_above _ _ (H + (1 # 3))), (h2rgb_unit _ _ H),
        (h2rgb_unit _ _ (H - (1 # 3))) by lra.
      eval_ramp. sector_done Hd.
    + rewrite (h2rgb_unit _ _ (H + (1 # 3))), (h2rgb_unit _ _ H),
        (h2rgb_unit _ _ (H - (1 # 3))) by lra.
      eval_ramp. sector_done Hd.
  - rewrite (h2rgb_above _ _ (H + (1 # 3))), (h2rgb_unit _ _ H),
      (h2rgb_unit _ _ (H - (1 # 3))) by lra.
    eval_ramp. sector_done Hd.
Qed.

(** [rgbToHsl] of a colour that is not grey, from the maximum [M] and
    the minimum [m] of its channels. *)
Lemma rgbToHsl_eval (c : RGB) (M m : Q) :
  max3 (r c) (g c) (b c) == M -> min3 (r c) (g c) (b c) == m -> m < M ->
  lightness (rgbToHsl c) == (M + m) / 2 /\
  hue (rgbToHsl c) == hueOf M (M - m) c /\
  (0.5 < (M + m) / 2 -> saturation (rgbToHsl c) == (M - m) / (2 - M - m)) /\
  ((M + m) / 2 <= 0.5 -> saturation (rgbToHsl c) == (M - m) / (M + m)).
Proof.
  intros HM Hm Hlt. unfold rgbToHsl, hueOf. cbv zeta.
  set (M' := max3 (r c) (g c) (b c)) in *. set (m' := min3 (r c) (g c) (b c)) in *.
  assert (B0 : Qeq_bool M' m' = false).
  { destruct (Qeq_bool M' m') eqn:E; [|reflexivity].
    apply Qeq_bool_iff in E. lra. }
  assert (B1 : Qeq_bool M' (r c) = Qeq_bool M (r c)) by now rewrite HM.
  assert (B2 : Qeq_bool M' (g c) = Qeq_bool M (g c)) by now rewrite HM.
  assert (B3 : Qgtb ((M' + m') / 2) 0.5 = Qgtb ((M + m) / 2) 0.5) by now rewrite HM, Hm.
  rewrite B0, B1, B2, B3. cbn [hue saturation lightness].
  split; [now rewrite HM, Hm|]. split.
  - destruct (Qeq_bool M (r c)); [|destruct (Qeq_bool M (g c))]; now rewrite HM, Hm.
  - split; intros Hl.
    + replace (Qgtb ((M + m) / 2) 0.5) with true by (symmetry; qbool; exact Hl).
      now rewrite HM, Hm.
    + replace (Qgtb ((M + m) / 2) 0.5) with false by (symmetry; qbool; exact Hl).
      now rewrite HM, Hm.
Qed.

(** A grey: [rgbToHsl] returns hue 0, saturation 0 and the common value. *)
Lemma rgbToHsl_grey (c : RGB) (v : Q) :
  r c == v -> g c == v -> b c == v ->
  hue (rgbToHsl c) == 0 /\ saturation (rgbToHsl c) == 0 /\ lightness (rgbToHsl c) == v.
Proof.
  intros Hr Hg Hb. unfold rgbToHsl. cbv zeta.
  assert (HM : max3 (r c) (g c) (b c) == v) by (apply max3_eq; try lra; now left).
  assert (Hm : min3 (r c) (g c) (b c) == v) by (apply min3_eq; try lra; now left).
  assert (B0 : Qeq_bool (max3 (r c) (g c) (b c)) (min3 (r c) (g c) (b c)) = true).
  { apply Qeq_bool_iff. now rewrite HM, Hm. }
  rewrite B0. cbn [hue saturation lightness].
  split; [reflexivity|]. split; [reflexivity|]. rewrite HM, Hm. field.
Qed.

Lemma h2rgb_flat (p q t : Q) : q == p -> h2rgb p q t == p.
Proof.
  intros E. unfold h2rgb. cbv zeta.
  repeat match goal with |- context [if ?c then _ else _] => destruct c end;
    rewrite ?E; ring.
Qed.

(** [hslToRgb] on a saturation of at least 0.0001. *)
Lemma hslToRgb_chromatic (h s l : Q) :
  0.0001 <= s ->
  let H := jsMod1 (jsMod1 h + 1) in
  let q := if Qltb l 0.5 then l * (1 + s) else l + s - l * s in
  let p := 2 * l - q in
  hslToRgb h s l = mkRGB (h2rgb p q (H + 1 / 3)) (h2rgb p q H) (h2rgb p q (H - 1 / 3)).
Proof.
  intros Hs. unfold hslToRgb. cbv zeta.
  replace (Qltb s 0.0001) with false by (symmetry; qbool; exact Hs). reflexivity.
Qed.






Lemma clamp_range (x : Q) : 0 <= Qmin 1 (Qmax 0 x) <= 1.
Proof.
  split; [|apply Q.le_min_l]. apply Q.min_glb; [discriminate|apply Q.le_max_l].
Qed.

Lemma blendHsl_range (base mood : RGB) :
  0 <= saturation (blendHsl base mood) <= 1 /\ 0 <= lightness (blendHsl base mood) <= 1.
Proof.
  unfold blendHsl. cbv zeta. cbn [saturation lightness]. split; apply clamp_range.
Qed.












(** ** The mood system: [satAdjust], [update], [modulate] *)

Import Live.

Lemma satAdjust_inGamut (c : RGB) (factor : Q) : inGamut (satAdjust c factor).
Proof.
  unfold satAdjust, inGamut. cbv zeta. cbn [r g b].
  split; [|split]; apply clamp_range.
Qed.

Lemma luma_range (c : RGB) : inGamut c -> 0 <= luma c <= 1.
Proof. intros (Hr & Hg & Hb). unfold luma. split; lra. Qed.

Lemma convex_range (lo hi x y a : Q) :
  lo <= x <= hi -> lo <= y <= hi -> 0 <= a <= 1 -> lo <= x + (y - x) * a <= hi.
Proof.
  intros Hx Hy Ha.
  assert (0 <= (1 - a) * (x - lo)) by (apply Qmult_le_0_compat; lra).
  assert (0 <= a * (y - lo)) by (apply Qmult_le_0_compat; lra).
  assert (0 <= (1 - a) * (hi - x)) by (apply Qmult_le_0_compat; lra).
  assert (0 <= a * (hi - y)) by (apply Qmult_le_0_compat; lra).
  split; lra.
Qed.

(** X14. [satAdjust] returns a colour in gamut whatever the factor.  On a
    colour in gamut, factor 1 returns the colour itself and factor 0 the
    grey of its luma; for a factor in [0, 1] nothing is clamped, each
    channel moves from the luma towards the channel by the factor, and the
    luma of the result is the luma of the colour. *)
Theorem satAdjust_spec (c : RGB) :
  inGamut c ->
  (forall factor, inGamut (satAdjust c factor)) /\
  rgbEq (satAdjust c 1) c /\
  rgbEq (satAdjust c 0) (mkRGB (luma c) (luma c) (luma c)) /\
  (forall factor, 0 <= factor <= 1 ->
     rgbEq (satAdjust c factor)
       (mkRGB (luma c + (r c - luma c) * factor) (luma c + (g c - luma c) * factor)
              (luma c + (b c - luma c) * factor)) /\
     luma (satAdjust c factor) == luma c).
Proof.
  intros Hc. pose proof (luma_range c Hc) as HL. destruct Hc as (Hr & Hg & Hb).
  split; [intros factor; apply satAdjust_inGamut|].
  assert (Hmix : forall factor, 0 <= factor <= 1 ->
            rgbEq (satAdjust c factor)
              (mkRGB (luma c + (r c - luma c) * factor) (luma c + (g c - luma c) * factor)
                     (luma c + (b c - luma c) * factor))).
  { intros factor Hf. unfold rgbEq, satAdjust. cbv zeta. fold (luma c). cbn [r g b].
    split; [|split]; apply clamp_id; apply convex_range; assumption. }
  split; [|split].
  - destruct (Hmix 1) as (E1 & E2 & E3); [split; discriminate|].
    cbn [r g b] in E1, E2, E3. repeat split; [rewrite E1|rewrite E2|rewrite E3]; ring.
  - destruct (Hmix 0) as (E1 & E2 & E3); [split; discriminate|].
    cbn [r g b] in E1, E2, E3. repeat split; cbn [r g b];
      [rewrite E1|rewrite E2|rewrite E3]; ring.
  - intros factor Hf. split; [now apply Hmix|].
    destruct (Hmix factor Hf) as (E1 & E2 & E3). cbn [r g b] in E1, E2, E3.
    unfold luma at 1. rewrite E1, E2, E3. unfold luma. ring.
Qed.

Lemma lerp3_inGamut (a c : RGB) (t : Q) :
  inGamut a -> inGamut c -> 0 <= t <= 1 -> inGamut (lerp3 a c t).
Proof.
  intros (Ar & Ag & Ab) (Cr & Cg & Cb) Ht. unfold lerp3, inGamut. cbn [r g b].
  split; [|split]; apply convex_range; assumption.
Qed.

Lemma corners_inGamut :
  Forall inGamut LD /\ Forall inGamut LB /\ Forall inGamut HD /\ Forall inGamut HB.
Proof.
  unfold LD, LB, HD, HB, inGamut.
  repeat split; repeat constructor; cbn [r g b]; discriminate.
Qed.

Lemma moodQuad_inGamut (energy bright : Q) :
  0 <= energy <= 1 -> 0 <= bright <= 1 -> quadInGamut (moodQuad energy bright).
Proof.
  intros He Hb. split; [reflexivity|].
  destruct corners_inGamut as (H1 & H2 & H3 & H4).
  unfold LD, LB, HD, HB in *.
  repeat match goal with H : Forall _ (_ :: _) |- _ => inversion H; clear H; subst end.
  unfold moodQuad. cbn [map seq nth LD LB HD HB].
  repeat (apply Forall_cons;
          [apply lerp3_inGamut; [apply lerp3_inGamut; assumption
                                |apply lerp3_inGamut; assumption|assumption]|]).
  apply Forall_nil.
Qed.

Lemma Forall2_rgbEq_refl (l : list RGB) : Forall2 rgbEq l l.
Proof. induction l; constructor; [repeat split; reflexivity|assumption]. Qed.

(** X15. [moodQuad] returns the four corner palettes at the corners of
    the unit square (low/dark at (0, 0), high/dark at (1, 0), low/bright at
    (0, 1), high/bright at (1, 1)), and four colours in gamut for every
    energy and brightness in [0, 1]. *)
Theorem moodQuad_spec :
  Forall2 rgbEq (moodQuad 0 0) LD /\ Forall2 rgbEq (moodQuad 1 0) HD /\
  Forall2 rgbEq (moodQuad 0 1) LB /\ Forall2 rgbEq (moodQuad 1 1) HB /\
  (forall energy bright, 0 <= energy <= 1 -> 0 <= bright <= 1 ->
     quadInGamut (moodQuad energy bright)).
Proof.
  assert (Hcorner : forall e br corner,
            Forall2 (fun a c => Qeq_bool (r a) (r c) && Qeq_bool (g a) (g c)
                                && Qeq_bool (b a) (b c) = true) (moodQuad e br) corner ->
            Forall2 rgbEq (moodQuad e br) corner).
  { intros e br corner Hall. eapply Forall2_impl; [|exact Hall].
    intros a c Hac. cbv beta in Hac.
    apply andb_true_iff in Hac. destruct Hac as [Hac E3].
    apply andb_true_iff in Hac. destruct Hac as [E1 E2].
    split; [|split]; now apply Qeq_bool_iff. }
  split; [|split; [|split; [|split]]].
  - apply Hcorner. repeat constructor.
  - apply Hcorner. repeat constructor.
  - apply Hcorner. repeat constructor.
  - apply Hcorner. repeat constructor.
  - intros energy bright He Hb. now apply moodQuad_inGamut.
Qed.

(** *** The mood colours stay in gamut *)

Lemma setAt_quad (i : nat) (v : RGB) (colors : list RGB) :
  inGamut v -> Forall inGamut colors ->
  length (setAt i v colors) = length colors /\ Forall inGamut (setAt i v colors).
Proof.
  intros Hv. revert i. induction colors as [|c rest IH]; intros i Hall.
  - destruct i; split; try reflexivity; constructor.
  - inversion Hall as [|? ? Hc Hrest]; subst. destruct i as [|i]; cbn [setAt length].
    + split; [reflexivity|now constructor].
    + destruct (IH i Hrest) as [Hl Hf]. split; [now rewrite Hl|now constructor].
Qed.

Lemma lerpLoop_quad (n : nat) (a : Q) :
  0 <= a <= 1 ->
  forall cur tgt, Forall inGamut cur -> Forall inGamut tgt ->
  length (lerpLoop n cur tgt a) = length cur /\ Forall inGamut (lerpLoop n cur tgt a).
Proof.
  intros Ha. induction n as [|n IH]; intros cur tgt Hc Ht.
  - destruct cur; now split.
  - destruct cur as [|c cur]; [now split|]. destruct tgt as [|t tgt]; [now split|].
    inversion Hc; subst. inversion Ht; subst. cbn [lerpLoop length].
    destruct (IH cur tgt) as [Hl Hf]; try assumption.
    split; [now rewrite Hl|]. constructor; [now apply lerp3_inGamut|exact Hf].
Qed.

Lemma nth_inGamut (i : nat) (colors : list RGB) :
  Forall inGamut colors -> inGamut (nth i colors black).
Proof.
  intros Hall. destruct (nth_in_or_default i colors black) as [Hin|Hd].
  - rewrite Forall_forall in Hall. now apply Hall.
  - rewrite Hd. unfold inGamut, black. cbn [r g b]. repeat split; discriminate.
Qed.

Lemma blend_rate (dt speed : Q) : 0 <= dt -> 0 <= speed -> 0 <= Qmin 1 (dt * speed) <= 1.
Proof.
  intros Hd Hs. split; [|apply Q.le_min_l].
  apply Q.min_glb; [discriminate|now apply Qmult_le_0_compat].
Qed.

Lemma update_gamut (frame : LiveAnalysisFrame) (dt t : Q) (m : MoodPaletteSystem) :
  0 <= dt -> quadInGamut (current m) ->
  quadInGamut (target (fst (update frame dt t m))) /\
  quadInGamut (current (fst (update frame dt t m))).
Proof.
  intros Hdt [Hlen Hcur]. unfold update. cbv zeta. cbn [fst target current].
  set (e := Qmin 1 (_ * 2.2 + _)). set (bright := Qmin 1 (_ * 3.0)).
  set (satFactor := 0.35 + _ * 2.05).
  set (fluxNorm := Qmin 1 (_ / Qmax 0.01 _)).
  set (sat := map (fun c => satAdjust c satFactor) (moodQuad e bright)).
  assert (Hsat : quadInGamut sat).
  { split; [reflexivity|]. unfold sat. apply Forall_forall. intros c Hin.
    apply in_map_iff in Hin. destruct Hin as (c0 & <- & _). apply satAdjust_inGamut. }
  set (colors := if Qgtb fluxNorm 0.35 then _ else sat).
  assert (Hcol : quadInGamut colors).
  { unfold colors. destruct (Qgtb fluxNorm 0.35) eqn:E; [|exact Hsat].
    qbool. destruct Hsat as [Hl Hf].
    assert (Hn : fluxNorm <= 1) by apply Q.le_min_l.
    assert (Hk : 0 <= (fluxNorm - 0.35) / 0.65 * 0.80 <= 1).
    { unfold Qdiv. change (/ 0.65) with (100 # 65). lra. }
    pose proof (nth_inGamut 0 sat Hf) as (S0 & S1 & S2).
    assert (Hcomp : inGamut (mkRGB (1 - r (nth 0 sat black)) (1 - g (nth 0 sat black))
                               (1 - b (nth 0 sat black)))).
    { unfold inGamut. cbn [r g b]. split; [|split]; lra. }
    destruct (setAt_quad 3
                (lerp3 (nth 3 sat black)
                   (mkRGB (1 - r (nth 0 sat black)) (1 - g (nth 0 sat black))
                      (1 - b (nth 0 sat black)))
                   ((fluxNorm - 0.35) / 0.65 * 0.80)) sat) as [Hl' Hf'].
    - apply lerp3_inGamut; [now apply nth_inGamut|exact Hcomp|exact Hk].
    - exact Hf.
    - split; [now rewrite Hl'|exact Hf']. }
  split; [exact Hcol|].
  match goal with |- quadInGamut (lerpLoop 4 _ _ ?a) =>
    assert (Ha : 0 <= a <= 1) end.
  { apply blend_rate; [exact Hdt|]. destruct (beforeFastUntil _ _); discriminate. }
  destruct (lerpLoop_quad 4 _ Ha (current m) colors Hcur (proj2 Hcol)) as [Hl Hf].
  split; [now rewrite Hl|exact Hf].
Qed.

Lemma initialMood_gamut : quadInGamut (current initialMood) /\ quadInGamut (target initialMood).
Proof.
  unfold initialMood. cbn [current target].
  split; apply moodQuad_inGamut; split; discriminate.
Qed.

(** X16. From a new [MoodPaletteSystem], after any sequence of [update]
    calls with [dt >= 0], whatever the frames and the wall times, the
    current and the target mood colours are four colours in gamut. *)
Theorem mood_colours_in_gamut (calls : list (LiveAnalysisFrame * Q * Q)) :
  Forall (fun call => 0 <= snd (fst call)) calls ->
  let m := moodUpdates calls initialMood in
  quadInGamut (current m) /\ quadInGamut (target m).
Proof.
  intros Hall. cbv zeta.
  assert (Hgen : forall m, quadInGamut (current m) /\ quadInGamut (target m) ->
            quadInGamut (current (moodUpdates calls m)) /\
            quadInGamut (target (moodUpdates calls m))).
  { induction Hall as [|[[f dt] t] rest Hdt _ IH]; intros m Hm; [exact Hm|].
    cbn [moodUpdates]. cbn [fst snd] in Hdt. apply IH.
    destruct (update_gamut f dt t m Hdt (proj1 Hm)) as [Ht Hc]. now split. }
  apply Hgen. exact initialMood_gamut.
Qed.

(** *** [hslToRgb] stays in gamut *)

Lemma hslToRgb_inGamut (h s l : Q) :
  0 <= s <= 1 -> 0 <= l <= 1 -> inGamut (hslToRgb h s l).
Proof.
  intros Hs Hl.
  destruct (Qlt_le_dec s 0.0001) as [Hgrey|Hchr].
  - unfold hslToRgb. cbv zeta.
    replace (Qltb s 0.0001) with true by (symmetry; qbool; exact Hgrey).
    unfold inGamut. cbn [r g b]. tauto.
  - rewrite (hslToRgb_chromatic h s l Hchr). cbv zeta.
    set (H := jsMod1 (jsMod1 h + 1)).
    pose proof (hue_normalized h) as HH. fold H in HH. clearbody H.
    set (q := if Qltb l 0.5 then l * (1 + s) else l + s - l * s).
    set (p := 2 * l - q).
    assert (Hq : (l < 0.5 /\ q == l * (1 + s)) \/ (0.5 <= l /\ q == l + s - l * s)).
    { unfold q. destruct (Qltb l 0.5) eqn:E; qbool; [left|right]; split;
        try assumption; reflexivity. }
    assert (Hp : p == 2 * l - q) by reflexivity.
    clearbody p q.
    assert (S1 : 0 <= l * s) by (apply Qmult_le_0_compat; lra).
    assert (S2 : 0 <= (1 - l) * s) by (apply Qmult_le_0_compat; lra).
    assert (S3 : 0 <= l * (1 - s)) by (apply Qmult_le_0_compat; lra).
    assert (S4 : 0 <= (1 - l) * (1 - s)) by (apply Qmult_le_0_compat; lra).
    assert (Hpq : p <= q) by (destruct Hq as [[? E]|[? E]]; lra).
    assert (Hp0 : 0 <= p) by (destruct Hq as [[? E]|[? E]]; lra).
    assert (Hq1 : q <= 1) by (destruct Hq as [[? E]|[? E]]; lra).
    destruct (Qlt_le_dec p q) as [Hlt|Hge].
    + destruct (hueOf_sectors p q H Hlt HH) as (Rr & Rg & Rb & _).
      cbn [r g b] in Rr, Rg, Rb. unfold inGamut. cbn [r g b].
      split; [|split]; lra.
    + assert (E : q == p) by lra.
      unfold inGamut. cbn [r g b].
      rewrite !(h2rgb_flat p q _ E). split; [|split]; lra.
Qed.

Lemma modulateLoop_inGamut (n : nat) :
  forall pal cur out, Forall inGamut pal ->
  modulateLoop n pal cur = Some out ->
  length out = length pal /\ Forall inGamut out.
Proof.
  induction n as [|n IH]; intros pal cur out Hp E.
  - cbn [modulateLoop] in E. inversion E; subst. now split.
  - destruct pal as [|c pal]; [discriminate|]. destruct cur as [|m cur]; [discriminate|].
    cbn [modulateLoop] in E.
    destruct (modulateLoop n pal cur) as [rest|] eqn:Er; [|discriminate].
    inversion E; subst out. inversion Hp; subst. cbn [length].
    destruct (IH pal cur rest) as [Hl Hf]; [assumption|exact Er|].
    split; [now rewrite Hl|]. constructor; [|exact Hf].
    unfold modulateColor. cbv zeta.
    destruct (blendHsl_range c m). now apply hslToRgb_inGamut.
Qed.

(** X17. [modulate] keeps a palette in gamut: with at least four palette
    and mood colours, all in gamut, it returns a palette of the same
    length with every colour in gamut ([hslToRgb] of a saturation and a
    lightness in [0, 1] is in gamut, whatever the hue); with fewer than
    four palette colours or mood colours it throws. *)
Theorem modulate_in_gamut (moodColours pal : list RGB) :
  ((length pal < 4)%nat \/ (length moodColours < 4)%nat ->
   modulate moodColours pal = None) /\
  ((4 <= length pal)%nat -> (4 <= length moodColours)%nat ->
   Forall inGamut pal -> Forall inGamut moodColours ->
   exists out, modulate moodColours pal = Some out /\
               length out = length pal /\ Forall inGamut out) /\
  (forall h s l, 0 <= s <= 1 -> 0 <= l <= 1 -> inGamut (hslToRgb h s l)).
Proof.
  split; [apply modulateLoop_None|]. split; [|exact hslToRgb_inGamut].
  intros Lp Lm Hp _. unfold modulate.
  destruct (modulateLoop_Some 4 pal moodColours Lp Lm) as [out E].
  exists out. split; [exact E|].
  exact (modulateLoop_inGamut 4 pal moodColours out Hp E).
Qed.

Lemma satAdjust_spec_witness : inGamut red /\ rgbEq (satAdjust red 1) red.
Proof.
  split; [exact red_inGamut|].
  exact (proj1 (proj2 (satAdjust_spec red red_inGamut))).
Defined.

Lemma mood_colours_in_gamut_witness :
  Forall (fun call => 0 <= snd (fst call)) [(zeroFrame liveStart, 1 / 60, 0)] /\
  quadInGamut (current (moodUpdates [(zeroFrame liveStart, 1 / 60, 0)] initialMood)).
Proof.
  assert (H : Forall (fun call : LiveAnalysisFrame * Q * Q => 0 <= snd (fst call))
                [(zeroFrame liveStart, 1 / 60, 0)])
    by (repeat constructor; discriminate).
  split; [exact H|].
  exact (proj1 (mood_colours_in_gamut [(zeroFrame liveStart, 1 / 60, 0)] H)).
Defined.

Lemma initialCurrent_inGamut : Forall inGamut initialCurrent.
Proof. apply moodQuad_inGamut; split; discriminate. Qed.

Lemma corner_LD_inGamut : Forall inGamut LD.
Proof. exact (proj1 corners_inGamut). Qed.

Lemma modulate_in_gamut_witness :
  (4 <= length LD)%nat /\ (4 <= length initialCurrent)%nat /\
  Forall inGamut LD /\ Forall inGamut initialCurrent /\
  exists out, modulate initialCurrent LD = Some out /\
              length out = length LD /\ Forall inGamut out.
Proof.
  assert (L1 : (4 <= length LD)%nat) by (cbn; lia).
  assert (L2 : (4 <= length initialCurrent)%nat) by (cbn; lia).
  split; [exact L1|]. split; [exact L2|].
  split; [exact corner_LD_inGamut|]. split; [exact initialCurrent_inGamut|].
  exact (proj1 (proj2 (modulate_in_gamut initialCurrent LD))
           L1 L2 corner_LD_inGamut initialCurrent_inGamut).
Defined.

(** ** [hslToRgb] after [rgbToHsl] *)

Ltac ramp_of t :=
  first [ rewrite (h2rgb_unit _ _ t) by lra
        | rewrite (h2rgb_below _ _ t) by lra
        | rewrite (h2rgb_above _ _ t) by lra ].

Ltac ramps h :=
  ramp_of (h + (1 # 3)); ramp_of h; ramp_of (h - (1 # 3)); eval_ramp.

Ltac channel Hmin :=
  first [ lra | nra
        | let E := fresh "E" in destruct Hmin as [E|[E|E]]; first [lra | nra] ].

Lemma ramp_back (c : RGB) (M m : Q) :
  r c <= M -> g c <= M -> b c <= M -> m <= r c -> m <= g c -> m <= b c ->
  (r c == M \/ g c == M \/ b c == M) -> (r c == m \/ g c == m \/ b c == m) -> m < M ->
  forall h, h == hueOf M (M - m) c ->
  h2rgb m M (h + 1 / 3) == r c /\ h2rgb m M h == g c /\ h2rgb m M (h - 1 / 3) == b c.
Proof.
  intros Rr Rg Rb Lr Lg Lb Hmax Hmin Hlt h Hh. unfold hueOf in Hh. qconst.
  assert (Hd : 0 < M - m) by lra.
  destruct (Qeq_bool M (r c)) eqn:Er.
  - apply Qeq_bool_iff in Er.
    destruct (Qltb (g c) (b c)) eqn:Egb; qbool.
    + set (u := (g c - b c) / (M - m)) in Hh.
      assert (Hu : u * (M - m) == g c - b c) by (unfold u; field; lra).
      assert (B1 : -1 <= u) by (unfold u; apply Qle_shift_div_l; lra).
      assert (B2 : u < 0) by (unfold u; apply Qlt_shift_div_r; lra).
      assert (Hh' : h == (u + 6) * (1 # 6)) by exact Hh.
      clearbody u. clear Hh.
      ramps h. split; [|split]; channel Hmin.
    + set (u := (g c - b c) / (M - m)) in Hh.
      assert (Hu : u * (M - m) == g c - b c) by (unfold u; field; lra).
      assert (B1 : 0 <= u) by (unfold u; apply Qle_shift_div_l; lra).
      assert (B2 : u <= 1) by (unfold u; apply Qle_shift_div_r; lra).
      assert (Hh' : h == (u + 0) * (1 # 6)) by exact Hh.
      clearbody u. clear Hh.
      destruct (Qlt_le_dec u 1) as [U1|U1].
      * ramps h. split; [|split]; channel Hmin.
      * ramps h. split; [|split]; channel Hmin.
  - apply Qeq_bool_neq in Er.
    destruct (Qeq_bool M (g c)) eqn:Eg.
    + apply Qeq_bool_iff in Eg.
      assert (Rr' : r c < M).
      { destruct (Qlt_le_dec (r c) M) as [H|H]; [exact H|]. exfalso. apply Er. lra. }
      set (u := (b c - r c) / (M - m)) in Hh.
      assert (Hu : u * (M - m) == b c - r c) by (unfold u; field; lra).
      assert (B1 : -1 < u) by (unfold u; apply Qlt_shift_div_l; lra).
      assert (B2 : u <= 1) by (unfold u; apply Qle_shift_div_r; lra).
      assert (Hh' : h == (u + 2) * (1 # 6)) by exact Hh.
      clearbody u. clear Hh.
      destruct (Qlt_le_dec u 0) as [U0|U0]; [|destruct (Qlt_le_dec u 1) as [U1|U1]].
      * ramps h. split; [|split]; channel Hmin.
      * ramps h. split; [|split]; channel Hmin.
      * ramps h. split; [|split]; channel Hmin.
    + apply Qeq_bool_neq in Eg.
      assert (Rr' : r c < M).
      { destruct (Qlt_le_dec (r c) M) as [H|H]; [exact H|]. exfalso. apply Er. lra. }
      assert (Rg' : g c < M).
      { destruct (Qlt_le_dec (g c) M) as [H|H]; [exact H|]. exfalso. apply Eg. lra. }
      assert (Eb : b c == M) by (destruct Hmax as [E|[E|E]]; lra).
      set (u := (r c - g c) / (M - m)) in Hh.
      assert (Hu : u * (M - m) == r c - g c) by (unfold u; field; lra).
      assert (B1 : -1 < u) by (unfold u; apply Qlt_shift_div_l; lra).
      assert (B2 : u < 1) by (unfold u; apply Qlt_shift_div_r; lra).
      assert (Hh' : h == (u + 4) * (1 # 6)) by exact Hh.
      clearbody u. clear Hh.
      destruct (Qlt_le_dec u 0) as [U0|U0]; [|destruct (Qlt_le_dec 0 u) as [U1|U1]].
      * ramps h. split; [|split]; channel Hmin.
      * ramps h. split; [|split]; channel Hmin.
      * ramps h. split; [|split]; channel Hmin.
Qed.

Lemma turns_zero (x y : Q) (k : Z) :
  0 <= x < 1 -> 0 <= y < 1 -> x == y + inject_Z k -> x == y.
Proof.
  intros Hx Hy E.
  assert (Hk : (-1 < k < 1)%Z).
  { split; rewrite Zlt_Qlt.
    - change (inject_Z (-1)) with (-1). lra.
    - change (inject_Z 1) with 1. lra. }
  assert (k = 0%Z) by lia. subst k. change (inject_Z 0) with 0 in E. lra.
Qed.

Lemma hsl_q_low (M m : Q) : 0 < M + m -> (M + m) / 2 * (1 + (M - m) / (M + m)) == M.
Proof. intros H. field. lra. Qed.

Lemma hsl_q_high (M m : Q) :
  M + m < 2 ->
  (M + m) / 2 + (M - m) / (2 - M - m) - (M + m) / 2 * ((M - m) / (2 - M - m)) == M.
Proof. intros H. field. lra. Qed.

Lemma hsl_q_half (M m : Q) :
  M + m == 1 ->
  (M + m) / 2 + (M - m) / (M + m) - (M + m) / 2 * ((M - m) / (M + m)) == M.
Proof.
  intros H. assert (E : m == 1 - M) by lra. rewrite E. field. lra.
Qed.

(** [hslToRgb] undoes [rgbToHsl], whatever whole number of turns is added
    to the hue. *)
Lemma hslToRgb_back (c : RGB) (h s l : Q) :
  inGamut c ->
  (exists k : Z, h == hue (rgbToHsl c) + inject_Z k) ->
  s == saturation (rgbToHsl c) -> l == lightness (rgbToHsl c) ->
  (s < 0.0001 -> s == 0) ->
  rgbEq (hslToRgb h s l) c.
Proof.
  intros (Gr & Gg & Gb) [k Hh] Hs Hl Hsat.
  destruct (max3_ge (r c) (g c) (b c)) as (Mr & Mg & Mb).
  destruct (min3_le (r c) (g c) (b c)) as (mr & mg & mb).
  pose proof (max3_cases (r c) (g c) (b c)) as Hmax.
  pose proof (min3_cases (r c) (g c) (b c)) as Hmin.
  set (M := max3 (r c) (g c) (b c)) in *. set (m := min3 (r c) (g c) (b c)) in *.
  assert (HM1 : M <= 1) by (destruct Hmax as [E|[E|E]]; lra).
  assert (Hm0 : 0 <= m) by (destruct Hmin as [E|[E|E]]; lra).
  destruct (Qlt_le_dec m M) as [Hlt|Hge].
  - destruct (rgbToHsl_eval c M m) as (EL & EH & ES1 & ES2); try reflexivity; try exact Hlt.
    assert (Hspos : 0 < s).
    { rewrite Hs. destruct (Qlt_le_dec 0.5 ((M + m) / 2)) as [Hhi|Hlo].
      - rewrite (ES1 Hhi). apply Qlt_shift_div_l; lra.
      - rewrite (ES2 Hlo). apply Qlt_shift_div_l; lra. }
    assert (Hchr : 0.0001 <= s).
    { destruct (Qlt_le_dec s 0.0001) as [H|H]; [|exact H]. specialize (Hsat H). lra. }
    rewrite (hslToRgb_chromatic h s l Hchr). cbv zeta.
    set (H := jsMod1 (jsMod1 h + 1)).
    pose proof (hue_normalized h) as HH. fold H in HH.
    assert (HHx : H == hue (rgbToHsl c)).
    { destruct (hue_normalized_turns h) as [k1 Hk1]. fold H in Hk1.
      apply (turns_zero _ _ (k + k1)); [exact HH|apply rgbToHsl_hue|].
      rewrite Hk1, Hh, inject_Z_plus. ring. }
    clearbody H.
    set (q := if Qltb l 0.5 then l * (1 + s) else l + s - l * s).
    assert (Hq : q == M).
    { unfold q. destruct (Qltb l 0.5) eqn:E; qbool.
      - rewrite Hs, Hl, EL, ES2 by (rewrite <- EL, <- Hl; lra).
        apply hsl_q_low. rewrite Hl, EL in E.
        apply Qlt_shift_div_l in E; [|reflexivity]. lra.
      - destruct (Qlt_le_dec 0.5 l) as [Hhi|Hlo].
        + rewrite Hs, Hl, EL, ES1 by (rewrite <- EL, <- Hl; exact Hhi).
          apply hsl_q_high. lra.
        + rewrite Hs, Hl, EL, ES2 by (rewrite <- EL, <- Hl; lra).
          apply hsl_q_half.
          assert (E2 : (M + m) / 2 == 0.5) by (rewrite <- EL, <- Hl; lra).
          assert (E3 : M + m == (M + m) / 2 * 2) by field.
          rewrite E3, E2. reflexivity. }
    set (p := 2 * l - q).
    assert (Hp : p == m).
    { unfold p. rewrite Hq, Hl, EL. field. }
    clearbody p q.
    assert (Hpq : p < q) by lra.
    destruct (rgbToHsl_eval c q p) as (_ & EH' & _); [now symmetry|now symmetry|exact Hpq|].
    fold M m in EH'.
    assert (Hmax' : r c == q \/ g c == q \/ b c == q).
    { destruct Hmax as [E|[E|E]]; [left|right; left|right; right]; lra. }
    assert (Hmin' : r c == p \/ g c == p \/ b c == p).
    { destruct Hmin as [E|[E|E]]; [left|right; left|right; right]; lra. }
    assert (HH' : H == hueOf q (q - p) c) by now rewrite HHx.
    destruct (ramp_back c q p) with (h := H) as (R1 & R2 & R3);
      try assumption; try lra.
    unfold rgbEq. cbn [r g b]. now split.
  - assert (Er : r c == M) by lra. assert (Eg : g c == M) by lra.
    assert (Eb : b c == M) by lra.
    destruct (rgbToHsl_grey c M Er Eg Eb) as (_ & S0 & L0).
    assert (Hs0 : s == 0) by (rewrite Hs; exact S0).
    unfold hslToRgb. cbv zeta.
    replace (Qltb s 0.0001) with true by (symmetry; qbool; rewrite Hs0; reflexivity).
    unfold rgbEq. cbn [r g b]. rewrite Hl, L0. repeat split; lra.
Qed.

(** X18. [hslToRgb] undoes [rgbToHsl]: for a colour in gamut that is a
    grey or has a saturation of at least 0.0001 (below which [hslToRgb]
    returns a grey), converting to hue, saturation and lightness and back
    gives the colour itself. *)
Theorem rgb_hsl_round_trip (c : RGB) :
  inGamut c ->
  let x := rgbToHsl c in
  (saturation x < 0.0001 -> saturation x == 0) ->
  rgbEq (hslToRgb (hue x) (saturation x) (lightness x)) c.
Proof.
  intros Hc x Hsat. subst x.
  apply hslToRgb_back; [exact Hc| |reflexivity|reflexivity|exact Hsat].
  exists 0%Z. change (inject_Z 0) with 0. ring.
Qed.

Lemma shortestArc_same (x : Q) : shortestArc x x == 0.
Proof.
  unfold shortestArc. cbv zeta.
  replace (Qgtb (x - x) 0.5) with false by (symmetry; qbool; lra).
  replace (Qltb (x - x) (-0.5)) with false by (symmetry; qbool; lra).
  ring.
Qed.

(** X19. On a palette and mood colours of at least four entries, where
    the mood colour equals the palette colour [modulate] leaves the
    palette colour as it is (for a colour in gamut that is a grey or has a
    saturation of at least 0.0001). *)
Theorem modulate_same_colour (moodColours pal : list RGB) (i : nat) (c : RGB) :
  (4 <= length pal)%nat -> (4 <= length moodColours)%nat ->
  (i < 4)%nat -> nth_error pal i = Some c -> nth_error moodColours i = Some c ->
  inGamut c ->
  (saturation (rgbToHsl c) < 0.0001 -> saturation (rgbToHsl c) == 0) ->
  exists outs out,
    modulate moodColours pal = Some outs /\ nth_error outs i = Some out /\ rgbEq out c.
Proof.
  intros Lp Lm Hi Hp Hm Hc Hsat.
  destruct (modulateLoop_Some 4 pal moodColours Lp Lm) as [outs E].
  exists outs, (modulateColor c c). split; [exact E|].
  split; [now apply (modulateLoop_nth 4 pal moodColours outs i c c)|].
  destruct (rgbToHsl_range c Hc) as [Rs Rl].
  unfold modulateColor, blendHsl. cbv zeta. cbn [hue saturation lightness].
  assert (Es : Qmin 1 (Qmax 0 (saturation (rgbToHsl c)
                 + (saturation (rgbToHsl c) - saturation (rgbToHsl c)) * 0.70))
               == saturation (rgbToHsl c)).
  { rewrite clamp_id; [ring|]. lra. }
  apply hslToRgb_back; [exact Hc| |exact Es| |].
  - exists 0%Z. rewrite shortestArc_same. change (inject_Z 0) with 0. ring.
  - rewrite clamp_id; [ring|]. lra.
  - intros H. rewrite Es in *. now apply Hsat.
Qed.

Lemma red_saturated :
  saturation (rgbToHsl red) < 0.0001 -> saturation (rgbToHsl red) == 0.
Proof. intros H. vm_compute in H. discriminate. Qed.

Lemma rgb_hsl_round_trip_witness :
  inGamut red /\
  rgbEq (hslToRgb (hue (rgbToHsl red)) (saturation (rgbToHsl red)) (lightness (rgbToHsl red)))
    red.
Proof.
  split; [exact red_inGamut|].
  exact (rgb_hsl_round_trip red red_inGamut red_saturated).
Defined.

Lemma modulate_same_colour_witness :
  (4 <= length [red; red; red; red])%nat /\ inGamut red /\
  exists outs out,
    modulate [red; red; red; red] [red; red; red; red] = Some outs /\
    nth_error outs 0 = Some out /\ rgbEq out red.
Proof.
  assert (L : (4 <= length [red; red; red; red])%nat) by (cbn; lia).
  split; [exact L|]. split; [exact red_inGamut|].
  exact (modulate_same_colour [red; red; red; red] [red; red; red; red] 0 red L L
           (Nat.lt_0_succ 3) eq_refl eq_refl red_inGamut red_saturated).
Defined.

End MoodProofs.

(** * The scene: seeds, palettes and the frame loop *)

Module SceneProofs.

Import Live Mood Scene MoodProofs.

Lemma floor_draw (rnd : Q) (n : Z) :
  0 <= rnd < 1 -> (0 < n)%Z -> (0 <= Qfloor (rnd * inject_Z n) < n)%Z.
Proof.
  intros [H0 H1] Hn.
  assert (Hq : 0 < inject_Z n) by (change 0 with (inject_Z 0); now rewrite <- Zlt_Qlt).
  split.
  - change 0%Z with (Qfloor 0). apply Qfloor_resp_le.
    apply Qmult_le_0_compat; lra.
  - rewrite Zlt_Qlt. apply Qle_lt_trans with (rnd * inject_Z n); [apply Qfloor_le|].
    assert (0 < (1 - rnd) * inject_Z n) by (apply Qmult_lt_0_compat; lra).
    lra.
Qed.

Lemma diff_spec (rnd : Q) (cur max : Z) :
  0 <= rnd < 1 -> (2 <= max)%Z ->
  (0 <= diff rnd cur max < max)%Z /\ diff rnd cur max <> cur.
Proof.
  intros Hr Hm. unfold diff. cbv zeta.
  pose proof (floor_draw rnd max Hr ltac:(lia)) as Hn.
  set (n := Qfloor (rnd * inject_Z max)) in *.
  destruct (Z.eqb_spec n cur) as [E|E]; [|split; [exact Hn|exact E]].
  destruct (Z.eq_dec (n + 1) max) as [Emax|Emax].
  - rewrite Emax, Z.rem_same by lia. split; lia.
  - rewrite Z.rem_small by lia. split; lia.
Qed.

(** X20. With draws of [Math.random()] in [0, 1), the seed [makeSeed]
    builds from a previous seed has a composition and a palette index that
    differ from those of the previous seed, whatever these were. *)
Theorem makeSeed_differs (rnd : nat -> Q) (prev : SongSeed) (aspect : Q) :
  unitDraws rnd ->
  comp (makeSeed rnd (Some prev) aspect) <> comp prev /\
  palIdx (makeSeed rnd (Some prev) aspect) <> palIdx prev.
Proof.
  intros Hr. unfold makeSeed. cbv zeta. cbn [comp palIdx]. split.
  - apply diff_spec; [apply Hr|unfold NUM_COMPS; lia].
  - apply diff_spec; [apply Hr|cbn; lia].
Qed.

Lemma pick_In {A} (rnd : Q) (arr : list A) (d : A) :
  0 <= rnd < 1 -> arr <> [] -> In (pick rnd arr d) arr.
Proof.
  intros Hr Hne. unfold pick, lengthQ.
  assert (Hlen : (0 < Z.of_nat (length arr))%Z) by (destruct arr; [congruence|cbn; lia]).
  pose proof (floor_draw rnd _ Hr Hlen) as Hn.
  apply nth_In. lia.
Qed.

Lemma Qabs_bound (x c : Q) : - c <= x <= c -> Qabs x <= c.
Proof. intros H. apply Qabs_Qle_condition. exact H. Qed.

(** X21. With draws in [0, 1) and an aspect ratio that is not negative,
    every field of the seed [makeSeed] builds is in its range: composition
    0..9, palette index 0..7, four warp centres within 0.65 of the origin
    (times the aspect ratio horizontally), grid density in [20, 60), one of
    the four rotations, cell shape and band direction 0..3, 2..4 warps for
    composition 7 and 1..2 otherwise, 4, 5 or 6 mirrors, and a head offset
    of magnitude in [0.35, 0.47). *)
Theorem makeSeed_ranges (rnd : nat -> Q) (prev : option SongSeed) (aspect : Q) :
  unitDraws rnd -> 0 <= aspect ->
  seedOk aspect (makeSeed rnd prev aspect).
Proof.
  intros Hr Ha.
  assert (Hcomp : (0 <= comp (makeSeed rnd prev aspect) < 10)%Z).
  { unfold makeSeed. cbv zeta. cbn [comp]. destruct prev as [p|].
    - apply diff_spec; [apply Hr|unfold NUM_COMPS; lia].
    - apply (floor_draw _ 10); [apply Hr|lia]. }
  assert (Hpal : (0 <= palIdx (makeSeed rnd prev aspect) < 8)%Z).
  { unfold makeSeed. cbv zeta. cbn [palIdx]. destruct prev as [p|].
    - apply (diff_spec _ _ 8); [apply Hr|lia].
    - apply (floor_draw _ 8); [apply Hr|lia]. }
  unfold seedOk. split; [exact Hcomp|]. split; [exact Hpal|].
  unfold makeSeed in *. cbv zeta in *.
  cbn [comp palIdx warpCenters gridDensity gridRotation cellShape colorBandDir numWarps
       mirrorN headPosX] in *.
  split; [reflexivity|]. split.
  { cbn [map seq]. repeat (apply Forall_cons; [|]); try apply Forall_nil; cbn [fst snd];
      match goal with |- Qabs ((rnd ?i * 2 - 1) * 0.65 * aspect) <= _ /\
                         Qabs ((rnd ?j * 2 - 1) * 0.65) <= _ =>
        pose proof (Hr i) as Hi; pose proof (Hr j) as Hj;
        assert (0 <= rnd i * aspect) by (apply Qmult_le_0_compat; lra);
        assert (0 <= (1 - rnd i) * aspect) by (apply Qmult_le_0_compat; lra);
        split; apply Qabs_bound; split; lra
      end. }
  split; [pose proof (Hr 12%nat); split; lra|].
  split; [apply pick_In; [apply Hr|discriminate]|].
  assert (F14 : (0 <= Qfloor (rnd 14%nat * 4) < 4)%Z)
    by exact (floor_draw (rnd 14%nat) 4 (Hr 14%nat) eq_refl).
  assert (F15 : (0 <= Qfloor (rnd 15%nat * 4) < 4)%Z)
    by exact (floor_draw (rnd 15%nat) 4 (Hr 15%nat) eq_refl).
  assert (F16 : (0 <= Qfloor (rnd 16%nat * 3) < 3)%Z)
    by exact (floor_draw (rnd 16%nat) 3 (Hr 16%nat) eq_refl).
  assert (F16' : (0 <= Qfloor (rnd 16%nat * 2) < 2)%Z)
    by exact (floor_draw (rnd 16%nat) 2 (Hr 16%nat) eq_refl).
  split; [lia|]. split; [lia|].
  split; [destruct (_ =? 7)%Z; lia|].
  split; [apply pick_In; [apply Hr|discriminate]|].
  pose proof (Hr 11%nat) as H11.
  destruct (Qltb (rnd 10%nat) 0.5).
  - rewrite Qabs_neg by lra. split; lra.
  - rewrite Qabs_pos by lra. split; lra.
Qed.

(** *** The song palette *)

Lemma PALETTES_inGamut : Forall (fun p => length p = 4%nat /\ Forall inGamut p) PALETTES.
Proof.
  unfold PALETTES, inGamut.
  repeat (apply Forall_cons;
          [split; [reflexivity|];
           repeat (apply Forall_cons;
                   [cbn [r g b]; split; [|split]; split; discriminate|]);
           apply Forall_nil|]).
  apply Forall_nil.
Qed.

Lemma paletteAt_valid (idx : Z) :
  (0 <= idx < 8)%Z ->
  exists p, paletteAt idx = Some p /\ length p = 4%nat /\ Forall inGamut p.
Proof.
  intros Hi. unfold paletteAt.
  destruct (Z.ltb_spec idx 0) as [H|_]; [lia|].
  destruct (nth_error PALETTES (Z.to_nat idx)) as [p|] eqn:E.
  - exists p. split; [reflexivity|].
    pose proof PALETTES_inGamut as Hall. rewrite Forall_forall in Hall.
    apply Hall. eapply nth_error_In. exact E.
  - apply nth_error_None in E. cbn [PALETTES length] in E. lia.
Qed.

Lemma convex_mix (x y t : Q) : 0 <= x <= 1 -> 0 <= y <= 1 -> 0 <= t <= 1 ->
  0 <= x + (y - x) * t <= 1.
Proof. intros. now apply convex_range. Qed.

Lemma stepPalette_valid (t : Q) (curIdx prevIdx : Z) :
  0 <= t <= 1 -> (0 <= curIdx < 8)%Z -> (0 <= prevIdx < 8)%Z ->
  exists pal, stepPalette t curIdx prevIdx = Some pal /\ quadInGamut pal.
Proof.
  intros Ht Hc Hp.
  destruct (paletteAt_valid curIdx Hc) as (cp & Ec & Lc & Gc).
  destruct (paletteAt_valid prevIdx Hp) as (pp & Ep & Lp & Gp).
  unfold stepPalette. rewrite Ec, Ep. eexists. split; [reflexivity|].
  split; [reflexivity|].
  apply Forall_forall. intros c Hin. apply in_map_iff in Hin.
  destruct Hin as (i & <- & _). cbv zeta.
  pose proof (nth_inGamut i pp Gp) as (P1 & P2 & P3).
  pose proof (nth_inGamut i cp Gc) as (C1 & C2 & C3).
  unfold inGamut. cbn [r g b]. split; [|split]; now apply convex_mix.
Qed.

(** X22. For palette indices in 0..7, [stepPalette] writes four colours:
    in gamut for every blend in [0, 1], the palette of the previous seed at
    blend 0 and the palette of the current seed at blend 1. *)
Theorem stepPalette_spec (curIdx prevIdx : Z) :
  (0 <= curIdx < 8)%Z -> (0 <= prevIdx < 8)%Z ->
  (forall t, 0 <= t <= 1 ->
     exists pal, stepPalette t curIdx prevIdx = Some pal /\ quadInGamut pal) /\
  (exists pal, stepPalette 0 curIdx prevIdx = Some pal /\
               Forall2 rgbEq pal (nth (Z.to_nat prevIdx) PALETTES [])) /\
  (exists pal, stepPalette 1 curIdx prevIdx = Some pal /\
               Forall2 rgbEq pal (nth (Z.to_nat curIdx) PALETTES [])).
Proof.
  intros Hc Hp.
  split; [intros t Ht; now apply stepPalette_valid|].
  destruct (paletteAt_valid curIdx Hc) as (cp & Ec & Lc & _).
  destruct (paletteAt_valid prevIdx Hp) as (pp & Ep & Lp & _).
  assert (Nc : nth (Z.to_nat curIdx) PALETTES [] = cp).
  { unfold paletteAt in Ec. destruct (curIdx <? 0)%Z; [discriminate|].
    now apply nth_error_nth. }
  assert (Np : nth (Z.to_nat prevIdx) PALETTES [] = pp).
  { unfold paletteAt in Ep. destruct (prevIdx <? 0)%Z; [discriminate|].
    now apply nth_error_nth. }
  rewrite Nc, Np. unfold stepPalette. rewrite Ec, Ep.
  destruct cp as [|c0 [|c1 [|c2 [|c3 [|]]]]]; try discriminate.
  destruct pp as [|p0 [|p1 [|p2 [|p3 [|]]]]]; try discriminate.
  split; eexists; (split; [reflexivity|]); cbn [map seq nth];
    repeat (apply Forall2_cons; [unfold rgbEq; cbn [r g b]; repeat split; ring|]);
    apply Forall2_nil.
Qed.

(** *** The crossfade *)

Lemma advanceBlend_sum (dt blend total : Q) :
  0 <= dt -> blend == Qmin 1 total -> advanceBlend dt blend == Qmin 1 (total + dt / 2).
Proof.
  intros Hdt Hb. unfold advanceBlend, BLEND_SECS.
  assert (Hd : dt / 2.0 == dt / 2).
  { unfold Qdiv. assert (E : / 2.0 == / 2) by reflexivity. now rewrite E. }
  assert (Hh : 0 <= dt / 2) by (apply Qle_shift_div_l; [reflexivity|lra]).
  rewrite Hb, Hd.
  destruct (Q.min_spec 1 total) as [[H1 E1]|[H1 E1]]; rewrite E1.
  - rewrite !Q.min_l by lra. reflexivity.
  - reflexivity.
Qed.

Lemma fold_Qplus_shift (l : list Q) :
  forall a, fold_left Qplus l a == a + fold_left Qplus l 0.
Proof.
  induction l as [|x l IH]; intros a; cbn [fold_left]; [ring|].
  rewrite (IH (a + x)), (IH (0 + x)). ring.
Qed.

Lemma blendAfter_sum (dts : list Q) :
  Forall (fun dt => 0 <= dt) dts ->
  forall blend total, blend == Qmin 1 total ->
  blendAfter dts blend == Qmin 1 (total + sumQ dts / 2).
Proof.
  unfold blendAfter, sumQ.
  induction 1 as [|dt rest Hdt _ IH]; intros blend total Hb; cbn [fold_left].
  - rewrite Hb. unfold Qdiv. rewrite Qmult_0_l, Qplus_0_r. reflexivity.
  - rewrite (IH _ (total + dt / 2) (advanceBlend_sum dt blend total Hdt Hb)).
    rewrite (fold_Qplus_shift rest (0 + dt)).
    apply Q.min_compat; [reflexivity|]. field.
Qed.

Lemma frameDt_range (now lastFrameTime : Q) :
  lastFrameTime <= now -> 0 <= frameDt now lastFrameTime <= 0.05.
Proof.
  intros H. unfold frameDt. split; [|apply Q.le_min_r].
  apply Q.min_glb; [|discriminate]. apply Qle_shift_div_l; [reflexivity|lra].
Qed.

Lemma sumQ_bound (c : Q) (l : list Q) :
  Forall (fun x => x <= c) l -> sumQ l <= c * lengthQ l.
Proof.
  intros Hall. unfold sumQ.
  assert (Hgen : forall a, fold_left Qplus l a <= a + c * lengthQ l).
  { unfold lengthQ. induction Hall as [|x l Hx _ IH]; intros a; cbn [fold_left length].
    - change (inject_Z (Z.of_nat 0)) with 0. lra.
    - eapply Qle_trans; [apply IH|].
      rewrite Nat2Z.inj_succ. unfold Z.succ. rewrite inject_Z_plus.
      change (inject_Z 1) with 1. lra. }
  specialize (Hgen 0). lra.
Qed.

(** X23. Over frames whose clock does not run backwards, a crossfade that
    starts at 0 stands at the sum of the frame times over 2 s, capped at 1;
    a frame time is capped at 0.05 s, so after [n] frames the crossfade is
    at most [n / 40], however long the frames took. *)
Theorem crossfade_progress (stamps : list (Q * Q)) :
  Forall (fun s => snd s <= fst s) stamps ->
  let dts := map (fun s => frameDt (fst s) (snd s)) stamps in
  blendAfter dts 0 == Qmin 1 (sumQ dts / 2) /\
  blendAfter dts 0 <= 0.025 * lengthQ stamps.
Proof.
  intros Hall dts.
  assert (Hr : Forall (fun dt => 0 <= dt <= 0.05) dts).
  { unfold dts. apply Forall_forall. intros dt Hin. apply in_map_iff in Hin.
    destruct Hin as (s & <- & Hs). rewrite Forall_forall in Hall.
    apply frameDt_range. now apply Hall. }
  assert (H0 : Forall (fun dt => 0 <= dt) dts).
  { eapply Forall_impl; [|exact Hr]. cbv beta. intros dt Hd. lra. }
  assert (H1 : Forall (fun dt => dt <= 0.05) dts).
  { eapply Forall_impl; [|exact Hr]. cbv beta. intros dt Hd. lra. }
  assert (E : blendAfter dts 0 == Qmin 1 (sumQ dts / 2)).
  { rewrite (blendAfter_sum dts H0 0 0); [|now rewrite Q.min_r by discriminate].
    now rewrite Qplus_0_l. }
  split; [exact E|].
  rewrite E. eapply Qle_trans; [apply Q.le_min_r|].
  pose proof (sumQ_bound 0.05 dts H1) as Hs.
  assert (Hlen : lengthQ dts == lengthQ stamps).
  { unfold lengthQ, dts. now rewrite length_map. }
  rewrite Hlen in Hs. apply Qle_shift_div_r; [reflexivity|]. lra.
Qed.

(** *** The vocal silhouette *)

Lemma rate01 (dt tau : Q) : 0 <= dt -> 0 < tau -> 0 <= Qmin 1 (dt / tau) <= 1.
Proof.
  intros Hd Ht. split; [|apply Q.le_min_l].
  apply Q.min_glb; [discriminate|]. apply Qle_shift_div_l; lra.
Qed.

(** X24. A frame of [animLoop] with [dt >= 0] and raw mids that are not
    negative keeps the vocal silhouette in order: both strengths and the
    mouth opening stay in [0, 1], and the second silhouette is never
    stronger than the first. *)
Theorem vocal_fades_ordered (live : LiveAnalysisFrame) (dt : Q) (v : Vocal) :
  0 <= dt -> 0 <= rawMids live -> vocalOk v -> vocalOk (vocalStep live dt v).
Proof.
  intros Hdt Hraw (V0 & V1 & V2 & M0 & M1).
  destruct (rate01 dt 0.5 Hdt) as [I0 I1]; [reflexivity|].
  destruct (rate01 dt 0.8 Hdt) as [O0 O1]; [reflexivity|].
  destruct (rate01 dt 0.06 Hdt) as [K0 K1]; [reflexivity|].
  unfold vocalStep, vocalOk. cbv zeta. cbn [vocalFade vocalFade2 vocalMouth].
  set (aIn := Qmin 1 (dt / 0.5)) in *. set (aOut := Qmin 1 (dt / 0.8)) in *.
  set (aM := Qmin 1 (dt / 0.06)) in *. clearbody aIn aOut aM.
  set (f := vocalFade v) in *. set (f2 := vocalFade2 v) in *. set (mo := vocalMouth v) in *.
  clearbody f f2 mo.
  assert (Hmouth : 0 <= mo + ((if vocalDetected live then Qmin 1 (rawMids live * 2.5) else 0)
                              - mo) * aM <= 1).
  { apply convex_range; [now split| |now split].
    destruct (vocalDetected live); [|split; discriminate].
    split; [apply Q.min_glb; [discriminate|lra]|apply Q.le_min_l]. }
  assert (P1 : 0 <= f2 * aIn) by (apply Qmult_le_0_compat; lra).
  assert (P2 : 0 <= f2 * aOut) by (apply Qmult_le_0_compat; lra).
  assert (P3 : 0 <= (f - f2) * (1 - aIn)) by (apply Qmult_le_0_compat; lra).
  assert (P4 : 0 <= (f - f2) * (1 - aOut)) by (apply Qmult_le_0_compat; lra).
  assert (P5 : 0 <= (1 - f) * aIn) by (apply Qmult_le_0_compat; lra).
  assert (P6 : 0 <= (1 - f) * (1 - aIn)) by (apply Qmult_le_0_compat; lra).
  assert (P7 : 0 <= f2 * (1 - aOut)) by (apply Qmult_le_0_compat; lra).
  assert (P8 : 0 <= (1 - f2) * aIn) by (apply Qmult_le_0_compat; lra).
  assert (P9 : 0 <= (1 - f) * aOut) by (apply Qmult_le_0_compat; lra).
  assert (P10 : 0 <= (1 - f) * (1 - aOut)) by (apply Qmult_le_0_compat; lra).
  assert (P11 : 0 <= (1 - f2) * aOut) by (apply Qmult_le_0_compat; lra).
  assert (P12 : 0 <= f2 * (1 - aIn)) by (apply Qmult_le_0_compat; lra).
  destruct (vocalDetected live); cbn [andb];
    [destruct (Qgtb (mids live) 0.5)|];
    destruct (Qgtb _ f) eqn:Ef; destruct (Qgtb _ f2) eqn:Ef2; qbool;
    (split; [|split; [|split; [|exact Hmouth]]]); lra.
Qed.

(** *** The palette of a frame *)

(** X25. The palette of a frame of [animLoop] ([stepPalette], then the
    mood [update] and [modulate]) is four colours in gamut, and so are the
    mood colours after the frame, for a blend in [0, 1], palette indices in
    0..7, [dt >= 0] and mood colours that were four colours in gamut. *)
Theorem frame_palette_in_gamut (palBlend : Q) (curIdx prevIdx : Z)
    (live : LiveAnalysisFrame) (dt t : Q) (mood : MoodPaletteSystem) :
  0 <= palBlend <= 1 -> (0 <= curIdx < 8)%Z -> (0 <= prevIdx < 8)%Z ->
  0 <= dt -> quadInGamut (current mood) ->
  exists mood' pal,
    paletteFrame palBlend curIdx prevIdx live dt t mood = Some (mood', pal) /\
    mood' = fst (update live dt t mood) /\
    quadInGamut (current mood') /\ quadInGamut pal.
Proof.
  intros Hb Hc Hp Hdt Hm.
  destruct (stepPalette_valid palBlend curIdx prevIdx Hb Hc Hp) as (sp & Es & Ls & Gs).
  destruct (update_gamut live dt t mood Hdt Hm) as [_ Hcur].
  unfold paletteFrame. rewrite Es. cbv zeta. unfold modulate.
  destruct (modulateLoop_Some 4 sp (current (fst (update live dt t mood))))
    as [out E]; [rewrite Ls; lia|rewrite (proj1 Hcur); lia|].
  rewrite E. exists (fst (update live dt t mood)), out.
  split; [reflexivity|]. split; [reflexivity|].
  split; [exact Hcur|].
  destruct (modulateLoop_inGamut 4 sp (current (fst (update live dt t mood))) out Gs E)
    as [Hl Hg].
  split; [now rewrite Hl|exact Hg].
Qed.

Lemma halfDraws : unitDraws (fun _ => 1 / 2).
Proof. intros k. split; [discriminate|reflexivity]. Qed.

Lemma makeSeed_differs_witness :
  unitDraws (fun _ => 1 / 2) /\
  comp (makeSeed (fun _ => 1 / 2) (Some (makeSeed (fun _ => 1 / 2) None 1)) 1)
  <> comp (makeSeed (fun _ => 1 / 2) None 1).
Proof.
  split; [exact halfDraws|].
  exact (proj1 (makeSeed_differs (fun _ => 1 / 2) (makeSeed (fun _ => 1 / 2) None 1) 1
                  halfDraws)).
Defined.

Lemma makeSeed_ranges_witness :
  unitDraws (fun _ => 1 / 2) /\ 0 <= 1 /\ seedOk 1 (makeSeed (fun _ => 1 / 2) None 1).
Proof.
  assert (H : 0 <= 1) by discriminate.
  split; [exact halfDraws|]. split; [exact H|].
  exact (makeSeed_ranges (fun _ => 1 / 2) None 1 halfDraws H).
Defined.

Lemma stepPalette_spec_witness :
  (0 <= 1 < 8)%Z /\ (0 <= 0 < 8)%Z /\
  exists pal, stepPalette 0 1 0 = Some pal /\ Forall2 rgbEq pal (nth (Z.to_nat 0) PALETTES []).
Proof.
  assert (H1 : (0 <= 1 < 8)%Z) by (split; [discriminate|reflexivity]).
  assert (H0 : (0 <= 0 < 8)%Z) by (split; [discriminate|reflexivity]).
  split; [exact H1|]. split; [exact H0|].
  exact (proj1 (proj2 (stepPalette_spec 1 0 H1 H0))).
Defined.

Lemma crossfade_progress_witness :
  Forall (fun s : Q * Q => snd s <= fst s) [(16, 0); (33, 16)] /\
  blendAfter (map (fun s => frameDt (fst s) (snd s)) [(16, 0); (33, 16)]) 0
  <= 0.025 * lengthQ [(16, 0); (33, 16)].
Proof.
  assert (H : Forall (fun s : Q * Q => snd s <= fst s) [(16, 0); (33, 16)])
    by (repeat constructor; discriminate).
  split; [exact H|].
  exact (proj2 (crossfade_progress [(16, 0); (33, 16)] H)).
Defined.

Lemma vocal_fades_ordered_witness :
  0 <= 1 / 60 /\ 0 <= rawMids (zeroFrame liveStart) /\ vocalOk (mkVocal 0 0 0) /\
  vocalOk (vocalStep (zeroFrame liveStart) (1 / 60) (mkVocal 0 0 0)).
Proof.
  assert (H1 : 0 <= 1 / 60) by discriminate.
  assert (H2 : 0 <= rawMids (zeroFrame liveStart)) by discriminate.
  assert (H3 : vocalOk (mkVocal 0 0 0)).
  { unfold vocalOk. cbn [vocalFade vocalFade2 vocalMouth].
    split; [discriminate|]. split; [discriminate|]. split; [discriminate|].
    split; discriminate. }
  split; [exact H1|]. split; [exact H2|]. split; [exact H3|].
  exact (vocal_fades_ordered (zeroFrame liveStart) (1 / 60) (mkVocal 0 0 0) H1 H2 H3).
Defined.

Lemma frame_palette_in_gamut_witness :
  0 <= 1 / 2 <= 1 /\ (0 <= 1 < 8)%Z /\ (0 <= 0 < 8)%Z /\ 0 <= 1 / 60 /\
  quadInGamut (current initialMood) /\
  exists mood' pal,
    paletteFrame (1 / 2) 1 0 (zeroFrame liveStart) (1 / 60) 0 initialMood = Some (mood', pal) /\
    mood' = fst (update (zeroFrame liveStart) (1 / 60) 0 initialMood) /\
    quadInGamut (current mood') /\ quadInGamut pal.
Proof.
  assert (Hb : 0 <= 1 / 2 <= 1) by (split; discriminate).
  assert (H1 : (0 <= 1 < 8)%Z) by (split; [discriminate|reflexivity]).
  assert (H0 : (0 <= 0 < 8)%Z) by (split; [discriminate|reflexivity]).
  assert (Hd : 0 <= 1 / 60) by discriminate.
  split; [exact Hb|]. split; [exact H1|]. split; [exact H0|]. split; [exact Hd|].
  split; [exact (proj1 initialMood_gamut)|].
  exact (frame_palette_in_gamut (1 / 2) 1 0 (zeroFrame liveStart) (1 / 60) 0 initialMood
           Hb H1 H0 Hd (proj1 initialMood_gamut)).
Defined.

End SceneProofs.

